(** * The branch prediction coordinator of gem5: [BPredUnit]

    A shallow embedding of [src/cpu/pred/bpred_unit.cc] and the properties
    of its speculative-history protocol.

    The coordinator owns one history queue per thread and drives four
    collaborators: the direction predictor (the pure virtual members of
    [BPredUnit] itself), the branch target buffer, the indirect predictor
    and the return address stack.  The collaborators are interfaces here
    (type classes); the coordinator is a program in a state-and-abort monad
    over the record [BPredUnit]. *)

From stdpp Require Import base tactics option numbers list sorting.

Set Default Proof Using "Type".
Open Scope N_scope.

(** ** Machine types *)

(** [Addr] and [InstSeqNum] are [uint64_t]; the coordinator only copies
    and compares them, so no wrap-around arises.  [ThreadID] is [int16_t]. *)
Definition Addr := N.
Definition InstSeqNum := N.
Definition ThreadID := Z.

(** ** The architecture side: program counters and static instructions

    [PCStateBase], [StaticInst] and [getBranchType] are declared in headers
    outside this file; the coordinator never looks inside them, so they are
    parameters. *)
Class Arch := {
  PCState : Type;
  StaticInst : Type;
  BranchType : Type;
  instAddr : PCState → Addr;
  isUncondCtrl : StaticInst → bool;
  isDirectCtrl : StaticInst → bool;
  isCall : StaticInst → bool;
  isReturn : StaticInst → bool;
  (** [inst->advancePC(pc)]: the sequential successor of [pc]. *)
  advancePC : StaticInst → PCState → PCState;
  (** [inst->buildRetPC(cur, call)]. *)
  buildRetPC : StaticInst → PCState → PCState → PCState;
  getBranchType : StaticInst → BranchType;
}.

(** ** Collaborator interfaces

    Each collaborator is a state type with one transition function per
    member function.  A history token is a [void *]: [None] is the null
    pointer, [Some h] a handle whose pointee lives inside the
    collaborator's state.  A [void * &] parameter is passed in and handed
    back. *)

(** The direction predictor: the virtual members [lookup], [uncondBranch],
    [btbUpdate], [squash(tid, bp_history)] and the seven-argument [update].
    They are declared in [bpred_unit.hh]; the signatures are those of the
    collaborator contracts: [squash] takes the token by value, the others by
    reference.  A predictor that does not reassign the pointer hands back
    what it was given. *)
Class DirectionPredictor `{!Arch} := {
  DirState : Type;
  BPHistory : Type;
  BP_lookup : ThreadID → Addr → option BPHistory → DirState →
              bool * option BPHistory * DirState;
  BP_uncondBranch : ThreadID → Addr → option BPHistory → DirState →
                    option BPHistory * DirState;
  BP_btbUpdate : ThreadID → Addr → option BPHistory → DirState →
                 option BPHistory * DirState;
  BP_squash : ThreadID → option BPHistory → DirState → DirState;
  BP_update : ThreadID → Addr → bool → option BPHistory → bool →
              StaticInst → Addr → DirState → option BPHistory * DirState;
}.

Class BranchTargetBuffer `{!Arch} := {
  BTBState : Type;
  BTB_lookup : ThreadID → Addr → BranchType → BTBState →
               option PCState * BTBState;
  BTB_update : ThreadID → Addr → PCState → BranchType → BTBState → BTBState;
}.

Class IndirectPredictor `{!Arch} := {
  IPState : Type;
  IHistory : Type;
  IP_lookup : ThreadID → InstSeqNum → Addr → option IHistory → IPState →
              option PCState * option IHistory * IPState;
  IP_update : ThreadID → InstSeqNum → Addr → bool → bool → PCState →
              BranchType → option IHistory → IPState →
              option IHistory * IPState;
  IP_commit : ThreadID → InstSeqNum → option IHistory → IPState →
              option IHistory * IPState;
  IP_squash : ThreadID → InstSeqNum → option IHistory → IPState →
              option IHistory * IPState;
}.

Class ReturnAddrStack `{!Arch} := {
  RASState : Type;
  RASHistory : Type;
  RAS_pop : ThreadID → option RASHistory → RASState →
            option PCState * option RASHistory * RASState;
  RAS_push : ThreadID → PCState → option RASHistory → RASState →
             option RASHistory * RASState;
  RAS_commit : ThreadID → bool → BranchType → option RASHistory → RASState →
               option RASHistory * RASState;
  RAS_squash : ThreadID → option RASHistory → RASState →
               option RASHistory * RASState;
}.

(** ** History records *)

Module PredictorHistory.
Section record.
Context `{!Arch} `{!DirectionPredictor} `{!IndirectPredictor}
        `{!ReturnAddrStack}.

Record t := Build {
  seqNum : InstSeqNum;
  pc : Addr;
  bpHistory : option BPHistory;
  indirectHistory : option IHistory;
  rasHistory : option RASHistory;
  tid : ThreadID;
  predTaken : bool;
  pushedRAS : bool;
  wasIndirect : bool;
  target : Addr;
  inst : StaticInst;
  mispredict : bool;
}.

(** Modelled from the spec: the constructor of [PredictorHistory], which
    is declared in [cpu/pred/bpred_unit.hh] and not part of this file.  It
    takes (seqNum, pc, predTaken, bpHistory, indirectHistory, tid, inst)
    and defaults the rest: no RAS token, [pushedRAS], [wasIndirect] and
    [mispredict] false.  The default [target] is never observed:
    [predict] overwrites it before the record is stored. *)
Definition make (seq_num : InstSeqNum) (instPC : Addr) (pred_taken : bool)
    (bp_history : option BPHistory) (indirect_history : option IHistory)
    (_tid : ThreadID) (_inst : StaticInst) : t :=
  {| seqNum := seq_num; pc := instPC; bpHistory := bp_history;
     indirectHistory := indirect_history; rasHistory := None; tid := _tid;
     predTaken := pred_taken; pushedRAS := false; wasIndirect := false;
     target := 0; inst := _inst; mispredict := false |}.

Definition set_bpHistory (h : option BPHistory) (r : t) : t :=
  Build (seqNum r) (pc r) h (indirectHistory r) (rasHistory r) (tid r)
        (predTaken r) (pushedRAS r) (wasIndirect r) (target r) (inst r)
        (mispredict r).
Definition set_indirectHistory (h : option IHistory) (r : t) : t :=
  Build (seqNum r) (pc r) (bpHistory r) h (rasHistory r) (tid r)
        (predTaken r) (pushedRAS r) (wasIndirect r) (target r) (inst r)
        (mispredict r).
Definition set_rasHistory (h : option RASHistory) (r : t) : t :=
  Build (seqNum r) (pc r) (bpHistory r) (indirectHistory r) h (tid r)
        (predTaken r) (pushedRAS r) (wasIndirect r) (target r) (inst r)
        (mispredict r).
Definition set_predTaken (b : bool) (r : t) : t :=
  Build (seqNum r) (pc r) (bpHistory r) (indirectHistory r) (rasHistory r)
        (tid r) b (pushedRAS r) (wasIndirect r) (target r) (inst r)
        (mispredict r).
Definition set_pushedRAS (b : bool) (r : t) : t :=
  Build (seqNum r) (pc r) (bpHistory r) (indirectHistory r) (rasHistory r)
        (tid r) (predTaken r) b (wasIndirect r) (target r) (inst r)
        (mispredict r).
Definition set_wasIndirect (b : bool) (r : t) : t :=
  Build (seqNum r) (pc r) (bpHistory r) (indirectHistory r) (rasHistory r)
        (tid r) (predTaken r) (pushedRAS r) b (target r) (inst r)
        (mispredict r).
Definition set_target (a : Addr) (r : t) : t :=
  Build (seqNum r) (pc r) (bpHistory r) (indirectHistory r) (rasHistory r)
        (tid r) (predTaken r) (pushedRAS r) (wasIndirect r) a (inst r)
        (mispredict r).
Definition set_mispredict (b : bool) (r : t) : t :=
  Build (seqNum r) (pc r) (bpHistory r) (indirectHistory r) (rasHistory r)
        (tid r) (predTaken r) (pushedRAS r) (wasIndirect r) (target r)
        (inst r) b.
End record.
End PredictorHistory.

(** ** Statistics

    The counters are [statistics::Scalar]; they only ever count up by one
    and are modelled as unbounded naturals. *)
Module BPredUnitStats.
Record t := Build {
  lookups : N;
  condPredicted : N;
  condIncorrect : N;
  BTBLookups : N;
  BTBUpdates : N;
  BTBHits : N;
  RASUsed : N;
  RASIncorrect : N;
  indirectLookups : N;
  indirectHits : N;
  indirectMisses : N;
  indirectMispredicted : N;
}.

Definition zero : t := Build 0 0 0 0 0 0 0 0 0 0 0 0.

Definition incr_lookups (c : t) : t :=
  Build (lookups c + 1) (condPredicted c) (condIncorrect c) (BTBLookups c)
    (BTBUpdates c) (BTBHits c) (RASUsed c) (RASIncorrect c)
    (indirectLookups c) (indirectHits c) (indirectMisses c)
    (indirectMispredicted c).
Definition incr_condPredicted (c : t) : t :=
  Build (lookups c) (condPredicted c + 1) (condIncorrect c) (BTBLookups c)
    (BTBUpdates c) (BTBHits c) (RASUsed c) (RASIncorrect c)
    (indirectLookups c) (indirectHits c) (indirectMisses c)
    (indirectMispredicted c).
Definition incr_condIncorrect (c : t) : t :=
  Build (lookups c) (condPredicted c) (condIncorrect c + 1) (BTBLookups c)
    (BTBUpdates c) (BTBHits c) (RASUsed c) (RASIncorrect c)
    (indirectLookups c) (indirectHits c) (indirectMisses c)
    (indirectMispredicted c).
Definition incr_BTBLookups (c : t) : t :=
  Build (lookups c) (condPredicted c) (condIncorrect c) (BTBLookups c + 1)
    (BTBUpdates c) (BTBHits c) (RASUsed c) (RASIncorrect c)
    (indirectLookups c) (indirectHits c) (indirectMisses c)
    (indirectMispredicted c).
Definition incr_BTBUpdates (c : t) : t :=
  Build (lookups c) (condPredicted c) (condIncorrect c) (BTBLookups c)
    (BTBUpdates c + 1) (BTBHits c) (RASUsed c) (RASIncorrect c)
    (indirectLookups c) (indirectHits c) (indirectMisses c)
    (indirectMispredicted c).
Definition incr_BTBHits (c : t) : t :=
  Build (lookups c) (condPredicted c) (condIncorrect c) (BTBLookups c)
    (BTBUpdates c) (BTBHits c + 1) (RASUsed c) (RASIncorrect c)
    (indirectLookups c) (indirectHits c) (indirectMisses c)
    (indirectMispredicted c).
Definition incr_RASUsed (c : t) : t :=
  Build (lookups c) (condPredicted c) (condIncorrect c) (BTBLookups c)
    (BTBUpdates c) (BTBHits c) (RASUsed c + 1) (RASIncorrect c)
    (indirectLookups c) (indirectHits c) (indirectMisses c)
    (indirectMispredicted c).
Definition incr_RASIncorrect (c : t) : t :=
  Build (lookups c) (condPredicted c) (condIncorrect c) (BTBLookups c)
    (BTBUpdates c) (BTBHits c) (RASUsed c) (RASIncorrect c + 1)
    (indirectLookups c) (indirectHits c) (indirectMisses c)
    (indirectMispredicted c).
Definition incr_indirectLookups (c : t) : t :=
  Build (lookups c) (condPredicted c) (condIncorrect c) (BTBLookups c)
    (BTBUpdates c) (BTBHits c) (RASUsed c) (RASIncorrect c)
    (indirectLookups c + 1) (indirectHits c) (indirectMisses c)
    (indirectMispredicted c).
Definition incr_indirectHits (c : t) : t :=
  Build (lookups c) (condPredicted c) (condIncorrect c) (BTBLookups c)
    (BTBUpdates c) (BTBHits c) (RASUsed c) (RASIncorrect c)
    (indirectLookups c) (indirectHits c + 1) (indirectMisses c)
    (indirectMispredicted c).
Definition incr_indirectMisses (c : t) : t :=
  Build (lookups c) (condPredicted c) (condIncorrect c) (BTBLookups c)
    (BTBUpdates c) (BTBHits c) (RASUsed c) (RASIncorrect c)
    (indirectLookups c) (indirectHits c) (indirectMisses c + 1)
    (indirectMispredicted c).
Definition incr_indirectMispredicted (c : t) : t :=
  Build (lookups c) (condPredicted c) (condIncorrect c) (BTBLookups c)
    (BTBUpdates c) (BTBHits c) (RASUsed c) (RASIncorrect c)
    (indirectLookups c) (indirectHits c) (indirectMisses c)
    (indirectMispredicted c + 1).
End BPredUnitStats.

Module PH := PredictorHistory.
Module St := BPredUnitStats.

(** ** The coordinator *)

(** What can stop a call short of returning.  [NullPointer]: a member call
    through a null collaborator pointer.  [AssertionFailed]: an [assert]
    whose condition is false.  [OutOfBounds]: [predHist[tid]] with [tid]
    outside the vector.  [OutOfFuel] belongs to the model only: the loops
    are run with a step budget (see [fuel_suffices_update] and
    [fuel_suffices_squash]). *)
Inductive Fault := NullPointer | AssertionFailed | OutOfBounds | OutOfFuel.

Inductive Outcome (A : Type) :=
  | Ok (a : A)
  | Abort (f : Fault).
Arguments Ok {A} a.
Arguments Abort {A} f.

Section Coordinator.
Context `{!Arch} `{!DirectionPredictor} `{!BranchTargetBuffer}
        `{!IndirectPredictor} `{!ReturnAddrStack}.

(** One entry per probe notification and per call into a collaborator,
    with the arguments passed.  The log is ghost state: the code does not
    keep it, the properties about "is called" are stated on it. *)
Inductive Event :=
  | NotifyBranches (n : N)
  | NotifyMisses (n : N)
  | CallLookup (tid : ThreadID) (pc : Addr) (h : option BPHistory)
  | CallUncondBranch (tid : ThreadID) (pc : Addr) (h : option BPHistory)
  | CallBtbUpdate (tid : ThreadID) (pc : Addr) (h : option BPHistory)
  | CallSquash (tid : ThreadID) (h : option BPHistory)
  | CallUpdate (tid : ThreadID) (pc : Addr) (taken : bool)
      (h : option BPHistory) (squashed : bool) (inst : StaticInst)
      (target : Addr)
  | BtbLookup (tid : ThreadID) (pc : Addr) (type : BranchType)
  | BtbUpdate (tid : ThreadID) (pc : Addr) (target : PCState)
      (type : BranchType)
  | IPredLookup (tid : ThreadID) (sn : InstSeqNum) (pc : Addr)
      (h : option IHistory)
  | IPredUpdate (tid : ThreadID) (sn : InstSeqNum) (pc : Addr)
      (squashed taken : bool) (target : PCState) (type : BranchType)
      (h : option IHistory)
  | IPredCommit (tid : ThreadID) (sn : InstSeqNum) (h : option IHistory)
  | IPredSquash (tid : ThreadID) (sn : InstSeqNum) (h : option IHistory)
  | RasPop (tid : ThreadID) (h : option RASHistory)
  | RasPush (tid : ThreadID) (pc : PCState) (h : option RASHistory)
  | RasCommit (tid : ThreadID) (mispredict : bool) (type : BranchType)
      (h : option RASHistory)
  | RasSquash (tid : ThreadID) (h : option RASHistory).

(** [History] is a [std::deque]; the head of the list is its front. *)
Definition History := list PH.t.

(** The fields of [BPredUnit] the four operations touch.  [dir] is the
    state of the concrete direction predictor (the subclass).  [ras] and
    [iPred] are pointers that may be null; [btb] is dereferenced without
    a check everywhere and is taken to be present. *)
Record BPredUnit := Build_BPredUnit {
  predHist : list History;
  dir : DirState;
  btb : BTBState;
  ras : option RASState;
  iPred : option IPState;
  stats : St.t;
  trace : list Event;
}.

(** The constructor: [numThreads] empty queues, counters at zero. *)
Definition init (numThreads : nat) (d : DirState) (b : BTBState)
    (r : option RASState) (i : option IPState) : BPredUnit :=
  Build_BPredUnit (replicate numThreads []) d b r i St.zero [].

Definition set_predHist (v : list History) (s : BPredUnit) : BPredUnit :=
  Build_BPredUnit v (dir s) (btb s) (ras s) (iPred s) (stats s) (trace s).
Definition set_dir (v : DirState) (s : BPredUnit) : BPredUnit :=
  Build_BPredUnit (predHist s) v (btb s) (ras s) (iPred s) (stats s)
    (trace s).
Definition set_btb (v : BTBState) (s : BPredUnit) : BPredUnit :=
  Build_BPredUnit (predHist s) (dir s) v (ras s) (iPred s) (stats s)
    (trace s).
Definition set_ras (v : option RASState) (s : BPredUnit) : BPredUnit :=
  Build_BPredUnit (predHist s) (dir s) (btb s) v (iPred s) (stats s)
    (trace s).
Definition set_iPred (v : option IPState) (s : BPredUnit) : BPredUnit :=
  Build_BPredUnit (predHist s) (dir s) (btb s) (ras s) v (stats s)
    (trace s).
Definition set_stats (v : St.t) (s : BPredUnit) : BPredUnit :=
  Build_BPredUnit (predHist s) (dir s) (btb s) (ras s) (iPred s) v
    (trace s).
Definition log (e : Event) (s : BPredUnit) : BPredUnit :=
  Build_BPredUnit (predHist s) (dir s) (btb s) (ras s) (iPred s) (stats s)
    (trace s ++ [e]).

(** *** The monad: state passing with abort *)

Definition M (A : Type) : Type := BPredUnit → Outcome (A * BPredUnit).

Global Instance M_ret : MRet M := λ A a s, Ok (a, s).
Global Instance M_bind : MBind M := λ A B f m s,
  match m s with
  | Ok (a, s') => f a s'
  | Abort e => Abort e
  end.

Definition abort {A} (e : Fault) : M A := λ _, Abort e.
Definition gets {A} (f : BPredUnit → A) : M A := λ s, Ok (f s, s).
Definition modify (f : BPredUnit → BPredUnit) : M unit := λ s, Ok (tt, f s).

(** [++stats.x] *)
Definition count (f : St.t → St.t) : M unit :=
  modify (λ s, set_stats (f (stats s)) s).

(** [pp->notify(n)] *)
Definition notify (e : N → Event) (n : N) : M unit := modify (log (e n)).

(** [assert(c)] *)
Definition assert (c : bool) : M unit :=
  if c then mret tt else abort AssertionFailed.

(** *** The history queues *)

(** [predHist[tid]]: indexing outside the vector has no defined result. *)
Definition hist_at (v : list History) (tid : ThreadID) : option History :=
  if (0 <=? tid)%Z then v !! Z.to_nat tid else None.

Definition get_hist (tid : ThreadID) : M History := λ s,
  match hist_at (predHist s) tid with
  | Some h => Ok (h, s)
  | None => Abort OutOfBounds
  end.

Definition put_hist (tid : ThreadID) (h : History) : M unit :=
  get_hist tid ;;
  modify (λ s, set_predHist (<[Z.to_nat tid := h]> (predHist s)) s).

Definition push_front (tid : ThreadID) (r : PH.t) : M unit :=
  h ← get_hist tid; put_hist tid (r :: h).
Definition pop_front (tid : ThreadID) : M unit :=
  h ← get_hist tid; put_hist tid (tail h).
Definition pop_back (tid : ThreadID) : M unit :=
  h ← get_hist tid; put_hist tid (removelast h).

(** *** Calls into the collaborators *)

Definition lookup (tid : ThreadID) (pc : Addr) (h : option BPHistory)
    : M (bool * option BPHistory) := λ s,
  let '(taken, h', d) := BP_lookup tid pc h (dir s) in
  Ok ((taken, h'), set_dir d (log (CallLookup tid pc h) s)).

Definition uncondBranch (tid : ThreadID) (pc : Addr) (h : option BPHistory)
    : M (option BPHistory) := λ s,
  let '(h', d) := BP_uncondBranch tid pc h (dir s) in
  Ok (h', set_dir d (log (CallUncondBranch tid pc h) s)).

Definition btbUpdate (tid : ThreadID) (pc : Addr) (h : option BPHistory)
    : M (option BPHistory) := λ s,
  let '(h', d) := BP_btbUpdate tid pc h (dir s) in
  Ok (h', set_dir d (log (CallBtbUpdate tid pc h) s)).

Definition squash_bp (tid : ThreadID) (h : option BPHistory) : M unit :=
  λ s, Ok (tt, set_dir (BP_squash tid h (dir s)) (log (CallSquash tid h) s)).

Definition update_bp (tid : ThreadID) (pc : Addr) (taken : bool)
    (h : option BPHistory) (squashed : bool) (inst : StaticInst)
    (target : Addr) : M (option BPHistory) := λ s,
  let '(h', d) := BP_update tid pc taken h squashed inst target (dir s) in
  Ok (h', set_dir d (log (CallUpdate tid pc taken h squashed inst target) s)).

Definition btb_lookup (tid : ThreadID) (pc : Addr) (type : BranchType)
    : M (option PCState) := λ s,
  let '(t, b) := BTB_lookup tid pc type (btb s) in
  Ok (t, set_btb b (log (BtbLookup tid pc type) s)).

Definition btb_update (tid : ThreadID) (pc : Addr) (target : PCState)
    (type : BranchType) : M unit := λ s,
  Ok (tt, set_btb (BTB_update tid pc target type (btb s))
            (log (BtbUpdate tid pc target type) s)).

(** [iPred->f(...)] and [ras->f(...)]: a call through a null pointer
    aborts. *)
Definition with_iPred {A} (e : Event)
    (f : IPState → A * IPState) : M A := λ s,
  match iPred s with
  | Some i => let '(a, i') := f i in Ok (a, set_iPred (Some i') (log e s))
  | None => Abort NullPointer
  end.

Definition with_ras {A} (e : Event)
    (f : RASState → A * RASState) : M A := λ s,
  match ras s with
  | Some r => let '(a, r') := f r in Ok (a, set_ras (Some r') (log e s))
  | None => Abort NullPointer
  end.

Definition iPred_lookup (tid : ThreadID) (sn : InstSeqNum) (pc : Addr)
    (h : option IHistory) : M (option PCState * option IHistory) :=
  with_iPred (IPredLookup tid sn pc h) (IP_lookup tid sn pc h).
Definition iPred_update (tid : ThreadID) (sn : InstSeqNum) (pc : Addr)
    (squashed taken : bool) (target : PCState) (type : BranchType)
    (h : option IHistory) : M (option IHistory) :=
  with_iPred (IPredUpdate tid sn pc squashed taken target type h)
             (IP_update tid sn pc squashed taken target type h).
Definition iPred_commit (tid : ThreadID) (sn : InstSeqNum)
    (h : option IHistory) : M (option IHistory) :=
  with_iPred (IPredCommit tid sn h) (IP_commit tid sn h).
Definition iPred_squash (tid : ThreadID) (sn : InstSeqNum)
    (h : option IHistory) : M (option IHistory) :=
  with_iPred (IPredSquash tid sn h) (IP_squash tid sn h).

Definition ras_pop (tid : ThreadID) (h : option RASHistory)
    : M (option PCState * option RASHistory) :=
  with_ras (RasPop tid h) (RAS_pop tid h).
Definition ras_push (tid : ThreadID) (pc : PCState) (h : option RASHistory)
    : M (option RASHistory) :=
  with_ras (RasPush tid pc h) (RAS_push tid pc h).
Definition ras_commit (tid : ThreadID) (mispredict : bool)
    (type : BranchType) (h : option RASHistory) : M (option RASHistory) :=
  with_ras (RasCommit tid mispredict type h)
           (RAS_commit tid mispredict type h).
Definition ras_squash (tid : ThreadID) (h : option RASHistory)
    : M (option RASHistory) :=
  with_ras (RasSquash tid h) (RAS_squash tid h).

(** A pointer used as a condition: true unless null. *)
Definition present {A} (p : option A) : bool :=
  match p with Some _ => true | None => false end.

(** [if (iPred)] and [if (ras)] *)
Definition has_iPred : M bool := gets (λ s, present (iPred s)).
Definition has_ras : M bool := gets (λ s, present (ras s)).

(** *** [BPredUnit::predict] *)

(** The local variables [pred_taken], [target] and [predict_record] are
    threaded through the branches; [target] holds [*target], the clone
    of the incoming [pc]. *)
Definition predict (inst : StaticInst) (seqNum : InstSeqNum) (pc : PCState)
    (tid : ThreadID) : M (bool * PCState) :=
  let target := pc in
  count St.incr_lookups ;;
  notify NotifyBranches 1 ;;
  let indirect_history : option IHistory := None in
  '(pred_taken, bp_history) ←
    (if isUncondCtrl inst then
       bp_history ← uncondBranch tid (instAddr pc) None;
       mret (true, bp_history)
     else
       count St.incr_condPredicted ;;
       lookup tid (instAddr pc) None);
  let predict_record :=
    PH.make seqNum (instAddr pc) pred_taken bp_history indirect_history
            tid inst in
  '(pred_taken, target, predict_record) ←
    (if pred_taken : bool then
       '(target, predict_record) ←
         (if isReturn inst then
            count St.incr_RASUsed ;;
            '(return_addr, h) ← ras_pop tid (PH.rasHistory predict_record);
            let predict_record := PH.set_rasHistory h predict_record in
            mret (match return_addr with
                  | Some a => a
                  | None => target
                  end, predict_record)
          else mret (target, predict_record));
       predict_record ←
         (if isCall inst then
            let return_addr := buildRetPC inst pc pc in
            h ← ras_push tid return_addr (PH.rasHistory predict_record);
            mret (PH.set_rasHistory h predict_record)
          else mret predict_record);
       if negb (isReturn inst) then
         no_iPred ← (b ← has_iPred; mret (negb b));
         if isDirectCtrl inst || no_iPred then
           count St.incr_BTBLookups ;;
           btb_target ←
             btb_lookup tid (instAddr pc) (getBranchType inst);
           match btb_target with
           | Some t =>
               count St.incr_BTBHits ;;
               mret (pred_taken, t, predict_record)
           | None =>
               let pred_taken := false in
               let predict_record :=
                 PH.set_predTaken pred_taken predict_record in
               predict_record ←
                 (if negb (isCall inst) && negb (isReturn inst) then
                    (* the local [bp_history] is passed, not the record's
                       field *)
                    btbUpdate tid (instAddr pc) bp_history ;;
                    mret predict_record
                  else if isCall inst && negb (isUncondCtrl inst) then
                    h ← ras_squash tid (PH.rasHistory predict_record);
                    mret (PH.set_pushedRAS false
                            (PH.set_rasHistory h predict_record))
                  else mret predict_record);
               mret (pred_taken, advancePC inst target, predict_record)
           end
         else
           let predict_record := PH.set_wasIndirect true predict_record in
           count St.incr_indirectLookups ;;
           '(itarget, h) ←
             iPred_lookup tid seqNum (instAddr pc)
                          (PH.indirectHistory predict_record);
           let predict_record := PH.set_indirectHistory h predict_record in
           match itarget with
           | Some t =>
               count St.incr_indirectHits ;;
               mret (pred_taken, t, predict_record)
           | None =>
               count St.incr_indirectMisses ;;
               let pred_taken := false in
               let predict_record :=
                 PH.set_predTaken pred_taken predict_record in
               predict_record ←
                 (if negb (isCall inst) && negb (isReturn inst) then
                    mret predict_record
                  else if isCall inst && negb (isUncondCtrl inst) then
                    h ← ras_squash tid (PH.rasHistory predict_record);
                    mret (PH.set_rasHistory h predict_record)
                  else mret predict_record);
               mret (pred_taken, advancePC inst target, predict_record)
           end
       else mret (pred_taken, target, predict_record)
     else mret (pred_taken, advancePC inst target, predict_record));
  let predict_record :=
    PH.set_target (instAddr target) predict_record in
  (* [set(pc, *target)]: the new [pc] is returned with the result *)
  with_iPred ← has_iPred;
  predict_record ←
    (if with_iPred : bool then
       h ← iPred_update tid seqNum (PH.pc predict_record) false
             (PH.predTaken predict_record) target (getBranchType inst)
             (PH.indirectHistory predict_record);
       mret (PH.set_indirectHistory h predict_record)
     else mret predict_record);
  push_front tid predict_record ;;
  mret (pred_taken, target).

(** *** [BPredUnit::update(done_sn, tid)] *)

(** The [while] loop, one iteration per unit of [fuel].  The tokens are
    passed by reference into a record that is popped right after, so
    what the collaborators hand back is dropped. *)
Fixpoint update_loop (fuel : nat) (done_sn : InstSeqNum) (tid : ThreadID)
    : M unit :=
  hist ← get_hist tid;
  match last hist with
  | None => mret tt
  | Some back =>
      if PH.seqNum back <=? done_sn then
        match fuel with
        | O => abort OutOfFuel
        | S fuel =>
            update_bp tid (PH.pc back) (PH.predTaken back)
              (PH.bpHistory back) false (PH.inst back) (PH.target back) ;;
            with_iPred ← has_iPred;
            (if with_iPred : bool then
               iPred_commit tid (PH.seqNum back) (PH.indirectHistory back) ;;
               mret tt
             else mret tt) ;;
            with_ras ← has_ras;
            (if with_ras : bool then
               ras_commit tid (PH.mispredict back)
                 (getBranchType (PH.inst back)) (PH.rasHistory back) ;;
               mret tt
             else mret tt) ;;
            pop_back tid ;;
            update_loop fuel done_sn tid
        end
      else mret tt
  end.

Definition update (done_sn : InstSeqNum) (tid : ThreadID) : M unit :=
  hist ← get_hist tid;
  update_loop (length hist) done_sn tid.

(** *** [BPredUnit::squash(squashed_sn, tid)]: the flush form *)

Fixpoint squash_loop (fuel : nat) (squashed_sn : InstSeqNum)
    (tid : ThreadID) : M unit :=
  pred_hist ← get_hist tid;
  match pred_hist with
  | [] => mret tt
  | front :: _ =>
      if squashed_sn <? PH.seqNum front then
        match fuel with
        | O => abort OutOfFuel
        | S fuel =>
            (if present (PH.rasHistory front) then
               with_ras ← has_ras;
               assert with_ras ;;
               ras_squash tid (PH.rasHistory front) ;;
               mret tt
             else mret tt) ;;
            squash_bp tid (PH.bpHistory front) ;;
            with_iPred ← has_iPred;
            (if with_iPred : bool then
               iPred_squash tid (PH.seqNum front) (PH.indirectHistory front) ;;
               mret tt
             else mret tt) ;;
            pop_front tid ;;
            squash_loop fuel squashed_sn tid
        end
      else mret tt
  end.

Definition squash (squashed_sn : InstSeqNum) (tid : ThreadID) : M unit :=
  pred_hist ← get_hist tid;
  squash_loop (length pred_hist) squashed_sn tid.

(** *** [BPredUnit::squash(squashed_sn, corr_target, actually_taken, tid)]:
        the misprediction form *)

(** [hist_it] and [pred_hist.front()] name the same record; its fields are
    written through them in place.  Here the record is a local copy that
    is stored back at the end: the calls in between go to collaborators,
    which do not see the queue, and nothing after the [assert] can abort. *)
Definition squash_mispredict (squashed_sn : InstSeqNum)
    (corr_target : PCState) (actually_taken : bool) (tid : ThreadID)
    : M unit :=
  get_hist tid ;;
  count St.incr_condIncorrect ;;
  notify NotifyMisses 1 ;;
  squash squashed_sn tid ;;
  pred_hist ← get_hist tid;
  match pred_hist with
  | [] => mret tt
  | front :: rest =>
      (if negb (PH.seqNum front =? squashed_sn) then
         assert (PH.seqNum front =? squashed_sn)
       else mret tt) ;;
      (if present (PH.rasHistory front) then
         count St.incr_RASIncorrect
       else mret tt) ;;
      let front := PH.set_predTaken actually_taken front in
      let front := PH.set_target (instAddr corr_target) front in
      let front := PH.set_mispredict true front in
      h ← update_bp tid (PH.pc front) actually_taken (PH.bpHistory front)
            true (PH.inst front) (instAddr corr_target);
      let front := PH.set_bpHistory h front in
      with_iPred ← has_iPred;
      front ←
        (if with_iPred : bool then
           h ← iPred_update tid squashed_sn (PH.pc front) true
                 actually_taken corr_target
                 (getBranchType (PH.inst front))
                 (PH.indirectHistory front);
           mret (PH.set_indirectHistory h front)
         else mret front);
      with_ras ← has_ras;
      front ←
        (if with_ras : bool then
           if actually_taken
              && negb (present (PH.rasHistory front)) then
             front ←
               (if isReturn (PH.inst front) then
                  '(_, h) ← ras_pop tid (PH.rasHistory front);
                  mret (PH.set_rasHistory h front)
                else mret front);
             (if isCall (PH.inst front) then
                let return_addr :=
                  buildRetPC (PH.inst front) corr_target corr_target in
                h ← ras_push tid return_addr (PH.rasHistory front);
                mret (PH.set_rasHistory h front)
              else mret front)
           else if negb actually_taken
                   && present (PH.rasHistory front) then
             h ← ras_squash tid (PH.rasHistory front);
             mret (PH.set_rasHistory h front)
           else mret front
         else mret front);
      (if actually_taken then
         if PH.wasIndirect front then
           count St.incr_indirectMispredicted
         else
           count St.incr_BTBUpdates ;;
           btb_update tid (PH.pc front) corr_target
                      (getBranchType (PH.inst front))
       else mret tt) ;;
      put_hist tid (front :: rest)
  end.

(** *** [BPredUnit::drainSanityCheck] *)

(** A range-based [for] over a vector. *)
Fixpoint for_each {A} (f : A → M unit) (l : list A) : M unit :=
  match l with
  | [] => mret tt
  | a :: l => f a ;; for_each f l
  end.

(** [ph.empty()] *)
Definition queue_empty (ph : History) : bool :=
  match ph with [] => true | _ :: _ => false end.

Definition drainSanityCheck : M unit :=
  v ← gets predHist;
  for_each (λ ph, assert (queue_empty ph)) v.

(** *** [BPredUnit::dump] *)

(** What one [cprintf] of [dump] prints, by its arguments: the line
    [predHist[i].size(): n], the line of one record, and the empty line
    that ends a queue.  The layout of the text is left to [cprintf]. *)
Inductive Printed :=
  | PrintSize (i : Z) (size : nat)
  | PrintEntry (seqNum : InstSeqNum) (pc : Addr) (tid : ThreadID)
      (predTaken : bool) (bpHistory : option BPHistory)
  | PrintNewline.

Definition print_entry (r : PH.t) : Printed :=
  PrintEntry (PH.seqNum r) (PH.pc r) (PH.tid r) (PH.predTaken r)
             (PH.bpHistory r).

(** The loop over [predHist] with the counter [i], which is advanced by
    the [i++] inside the first [cprintf], so only for a queue that is not
    empty. *)
Fixpoint dump_from (i : Z) (v : list History) : list Printed :=
  match v with
  | [] => []
  | ph :: v =>
      if negb (queue_empty ph) then
        PrintSize i (length ph) :: map print_entry ph
        ++ PrintNewline :: dump_from (i + 1) v
      else dump_from i v
  end.

(** [dump] writes to the standard output and leaves the coordinator as it
    is: it is the list of what it prints. *)
Definition dump (s : BPredUnit) : list Printed := dump_from 0 (predHist s).
End Coordinator.

Arguments Event {_ _ _ _}.
Arguments BPredUnit {_ _ _ _ _}.
Arguments Printed {_ _}.

(** ** What the properties are stated on *)

Section Observations.
Context `{!Arch} `{!DirectionPredictor} `{!BranchTargetBuffer}
        `{!IndirectPredictor} `{!ReturnAddrStack}.

(** *** Counting events *)

Definition occurrences (p : Event → bool) (l : list Event) : nat :=
  length (List.filter p l).

Definition is_NotifyBranches (e : Event) : bool :=
  match e with NotifyBranches _ => true | _ => false end.
Definition is_NotifyMisses (e : Event) : bool :=
  match e with NotifyMisses _ => true | _ => false end.
Definition is_CallBtbUpdate (e : Event) : bool :=
  match e with CallBtbUpdate _ _ _ => true | _ => false end.
Definition is_CallUpdate (e : Event) : bool :=
  match e with CallUpdate _ _ _ _ _ _ _ => true | _ => false end.
(** An authoritative update of the direction predictor: [squashed] is
    false. *)
Definition is_authoritative (e : Event) : bool :=
  match e with CallUpdate _ _ _ _ squashed _ _ => negb squashed | _ => false end.
Definition is_BtbLookup (e : Event) : bool :=
  match e with BtbLookup _ _ _ => true | _ => false end.
Definition is_BtbUpdate (e : Event) : bool :=
  match e with BtbUpdate _ _ _ _ => true | _ => false end.
Definition is_IPredLookup (e : Event) : bool :=
  match e with IPredLookup _ _ _ _ => true | _ => false end.
Definition is_IPredCommit (e : Event) : bool :=
  match e with IPredCommit _ _ _ => true | _ => false end.
Definition is_RasPush (e : Event) : bool :=
  match e with RasPush _ _ _ => true | _ => false end.
Definition is_RasCommit (e : Event) : bool :=
  match e with RasCommit _ _ _ _ => true | _ => false end.
Definition is_RasSquash (e : Event) : bool :=
  match e with RasSquash _ _ => true | _ => false end.

(** *** The direction step of [predict]

    [says_taken] is the value of [pred_taken] after the first [if] of
    [predict]: true for an unconditional branch, the answer of [lookup]
    otherwise.  The counters and the log do not influence it. *)
Definition says_taken (inst : StaticInst) (pc : PCState) (tid : ThreadID)
    (s : BPredUnit) : bool :=
  isUncondCtrl inst || (BP_lookup tid (instAddr pc) None (dir s)).1.1.

(** The state on entry of the misprediction squash, after
    [++stats.condIncorrect] and [ppMisses->notify(1)]. *)
Definition note_miss (s : BPredUnit) : BPredUnit :=
  log (NotifyMisses 1) (set_stats (St.incr_condIncorrect (stats s)) s).

(** What the repair of the boundary record [front] adds to the counters:
    [RASIncorrect] when the record holds a RAS token, and for a taken
    branch [indirectMispredicted] or [BTBUpdates]. *)
Definition repair_stats (front : PH.t) (actually_taken : bool) (c : St.t)
    : St.t :=
  let c :=
    if present (PH.rasHistory front) then St.incr_RASIncorrect c else c in
  if actually_taken then
    if PH.wasIndirect front then St.incr_indirectMispredicted c
    else St.incr_BTBUpdates c
  else c.

(** *** The calls one retired or flushed record causes *)

Definition commit_events (with_iPred with_ras : bool) (tid : ThreadID)
    (r : PH.t) : list Event :=
  [CallUpdate tid (PH.pc r) (PH.predTaken r) (PH.bpHistory r) false
     (PH.inst r) (PH.target r)]
  ++ (if with_iPred
      then [IPredCommit tid (PH.seqNum r) (PH.indirectHistory r)] else [])
  ++ (if with_ras
      then [RasCommit tid (PH.mispredict r) (getBranchType (PH.inst r))
              (PH.rasHistory r)]
      else []).

Definition squash_events (with_iPred : bool) (tid : ThreadID) (r : PH.t)
    : list Event :=
  (if present (PH.rasHistory r)
   then [RasSquash tid (PH.rasHistory r)] else [])
  ++ [CallSquash tid (PH.bpHistory r)]
  ++ (if with_iPred
      then [IPredSquash tid (PH.seqNum r) (PH.indirectHistory r)] else []).

(** *** Queues *)

(** Strictly decreasing sequence numbers from front to back. *)
Definition decreasing (h : History) : Prop :=
  StronglySorted (λ a b, PH.seqNum b < PH.seqNum a) h.

Definition empty_queues (s : BPredUnit) : Prop :=
  Forall (λ h, h = []) (predHist s).

(** Every queue is strictly decreasing and holds only sequence numbers
    that were passed to [predict] for its thread; [seen] lists those. *)
Definition queues_ok (seen : list (ThreadID * InstSeqNum)) (s : BPredUnit)
    : Prop :=
  ∀ tid h, hist_at (predHist s) tid = Some h →
    decreasing h ∧ Forall (λ r, (tid, PH.seqNum r) ∈ seen) h.

(** *** Counters *)

Definition stats_le (c c' : St.t) : Prop :=
  St.lookups c ≤ St.lookups c' ∧
  St.condPredicted c ≤ St.condPredicted c' ∧
  St.condIncorrect c ≤ St.condIncorrect c' ∧
  St.BTBLookups c ≤ St.BTBLookups c' ∧
  St.BTBUpdates c ≤ St.BTBUpdates c' ∧
  St.BTBHits c ≤ St.BTBHits c' ∧
  St.RASUsed c ≤ St.RASUsed c' ∧
  St.RASIncorrect c ≤ St.RASIncorrect c' ∧
  St.indirectLookups c ≤ St.indirectLookups c' ∧
  St.indirectHits c ≤ St.indirectHits c' ∧
  St.indirectMisses c ≤ St.indirectMisses c' ∧
  St.indirectMispredicted c ≤ St.indirectMispredicted c'.

(** The relations between counters, and between the lookup counters and
    the lookups that were made. *)
Definition stats_inv (s : BPredUnit) : Prop :=
  St.BTBHits (stats s) ≤ St.BTBLookups (stats s) ∧
  St.indirectHits (stats s) + St.indirectMisses (stats s)
    = St.indirectLookups (stats s) ∧
  St.BTBLookups (stats s) = N.of_nat (occurrences is_BtbLookup (trace s)) ∧
  St.indirectLookups (stats s)
    = N.of_nat (occurrences is_IPredLookup (trace s)).

(** *** Sequences of operations *)

Inductive Op :=
  | OpPredict (inst : StaticInst) (seqNum : InstSeqNum) (pc : PCState)
      (tid : ThreadID)
  | OpUpdate (done_sn : InstSeqNum) (tid : ThreadID)
  | OpSquash (squashed_sn : InstSeqNum) (tid : ThreadID)
  | OpMispredict (squashed_sn : InstSeqNum) (corr_target : PCState)
      (actually_taken : bool) (tid : ThreadID).

Definition exec (o : Op) : M unit :=
  match o with
  | OpPredict inst seqNum pc tid => predict inst seqNum pc tid ;; mret tt
  | OpUpdate done_sn tid => update done_sn tid
  | OpSquash squashed_sn tid => squash squashed_sn tid
  | OpMispredict squashed_sn corr_target actually_taken tid =>
      squash_mispredict squashed_sn corr_target actually_taken tid
  end.

Fixpoint run (ops : list Op) : M unit :=
  match ops with
  | [] => mret tt
  | o :: ops => exec o ;; run ops
  end.

(** Every [predict] uses a sequence number above all those passed to
    [predict] for the same thread before; [seen] lists the earlier ones. *)
Fixpoint ascending (seen : list (ThreadID * InstSeqNum)) (ops : list Op)
    : Prop :=
  match ops with
  | [] => True
  | OpPredict _ seqNum _ tid :: ops =>
      (∀ n, (tid, n) ∈ seen → n < seqNum)
      ∧ ascending ((tid, seqNum) :: seen) ops
  | _ :: ops => ascending seen ops
  end.

(** The sequence numbers passed to [predict] once [o] has run. *)
Definition seen_after (seen : list (ThreadID * InstSeqNum)) (o : Op)
    : list (ThreadID * InstSeqNum) :=
  match o with
  | OpPredict _ seqNum _ tid => (tid, seqNum) :: seen
  | _ => seen
  end.

Definition call_sn (c : StaticInst * InstSeqNum * PCState) : InstSeqNum :=
  c.1.2.

(** *** More events, and what holds of every record *)

Definition is_CallLookup (e : Event) : bool :=
  match e with CallLookup _ _ _ => true | _ => false end.
Definition is_CallUncondBranch (e : Event) : bool :=
  match e with CallUncondBranch _ _ _ => true | _ => false end.
Definition is_CallSquash (e : Event) : bool :=
  match e with CallSquash _ _ => true | _ => false end.
(** An update of the direction predictor with [squashed] true. *)
Definition is_squashed_update (e : Event) : bool :=
  match e with CallUpdate _ _ _ _ squashed _ _ => squashed | _ => false end.
Definition is_IPredUpdate (e : Event) : bool :=
  match e with IPredUpdate _ _ _ _ _ _ _ _ => true | _ => false end.
Definition is_IPredSquash (e : Event) : bool :=
  match e with IPredSquash _ _ _ => true | _ => false end.
Definition is_RasPop (e : Event) : bool :=
  match e with RasPop _ _ => true | _ => false end.

(** The thread an operation works on. *)
Definition op_tid (o : Op) : ThreadID :=
  match o with
  | OpPredict _ _ _ tid | OpUpdate _ tid | OpSquash _ tid
  | OpMispredict _ _ _ tid => tid
  end.

(** Every record sits in the queue of its own thread, has [pushedRAS]
    false, holds a RAS token only when there is a RAS, and holds an
    indirect predictor token or the [wasIndirect] mark only when there is
    an indirect predictor. *)
Definition records_ok (s : BPredUnit) : Prop :=
  ∀ t h r, hist_at (predHist s) t = Some h → r ∈ h →
    PH.tid r = t ∧ PH.pushedRAS r = false ∧
    (ras s = None → PH.rasHistory r = None) ∧
    (iPred s = None →
     PH.indirectHistory r = None ∧ PH.wasIndirect r = false).

(** [predict] once per entry of [calls], in order, all on thread [tid]. *)
Fixpoint predict_all (tid : ThreadID)
    (calls : list (StaticInst * InstSeqNum * PCState))
    : M (list (bool * PCState)) :=
  match calls with
  | [] => mret []
  | (inst, seqNum, pc) :: calls =>
      res ← predict inst seqNum pc tid;
      rest ← predict_all tid calls;
      mret (res :: rest)
  end.

(** *** The target lookups of [predict] *)

(** [predict] looks the target up in the BTB for a branch that the
    direction predictor says is taken, that is not a return, and that is
    direct or finds no indirect predictor; it looks it up in the indirect
    predictor for the other branches that are said taken and are not
    returns.  Nothing changes the BTB or the indirect predictor before
    the lookup, so its answer is the one they give in the state on
    entry. *)
Definition consults_btb (inst : StaticInst) (pc : PCState) (tid : ThreadID)
    (s : BPredUnit) : bool :=
  says_taken inst pc tid s && negb (isReturn inst)
  && (isDirectCtrl inst || negb (present (iPred s))).

Definition btb_hits (inst : StaticInst) (pc : PCState) (tid : ThreadID)
    (s : BPredUnit) : bool :=
  present (BTB_lookup tid (instAddr pc) (getBranchType inst) (btb s)).1.

Definition consults_iPred (inst : StaticInst) (pc : PCState)
    (tid : ThreadID) (s : BPredUnit) : bool :=
  says_taken inst pc tid s && negb (isReturn inst)
  && negb (isDirectCtrl inst) && present (iPred s).

Definition iPred_hits (inst : StaticInst) (seqNum : InstSeqNum)
    (pc : PCState) (tid : ThreadID) (s : BPredUnit) : bool :=
  match iPred s with
  | Some ip => present (IP_lookup tid seqNum (instAddr pc) None ip).1.1
  | None => false
  end.

(** The lookup that [predict] makes finds no target. *)
Definition target_missed (inst : StaticInst) (seqNum : InstSeqNum)
    (pc : PCState) (tid : ThreadID) (s : BPredUnit) : bool :=
  consults_btb inst pc tid s && negb (btb_hits inst pc tid s)
  || consults_iPred inst pc tid s && negb (iPred_hits inst seqNum pc tid s).

(** What one operation adds to the lookup counters. *)
Definition lookup_counts (o : Op) (s s' : BPredUnit) : Prop :=
  match o with
  | OpPredict inst seqNum pc tid =>
      St.BTBLookups (stats s')
        = St.BTBLookups (stats s)
          + (if consults_btb inst pc tid s then 1 else 0) ∧
      St.BTBHits (stats s')
        = St.BTBHits (stats s)
          + (if consults_btb inst pc tid s && btb_hits inst pc tid s
             then 1 else 0) ∧
      St.indirectLookups (stats s')
        = St.indirectLookups (stats s)
          + (if consults_iPred inst pc tid s then 1 else 0) ∧
      St.indirectHits (stats s')
        = St.indirectHits (stats s)
          + (if consults_iPred inst pc tid s
                && iPred_hits inst seqNum pc tid s then 1 else 0) ∧
      St.indirectMisses (stats s')
        = St.indirectMisses (stats s)
          + (if consults_iPred inst pc tid s
                && negb (iPred_hits inst seqNum pc tid s) then 1 else 0)
  | _ =>
      St.BTBLookups (stats s') = St.BTBLookups (stats s) ∧
      St.BTBHits (stats s') = St.BTBHits (stats s) ∧
      St.indirectLookups (stats s') = St.indirectLookups (stats s) ∧
      St.indirectHits (stats s') = St.indirectHits (stats s) ∧
      St.indirectMisses (stats s') = St.indirectMisses (stats s)
  end.

End Observations.

Arguments occurrences {_ _ _ _} p !l /.

(** ** A small concrete machine

    Collaborators simple enough to run the coordinator on: addresses are
    program counters, instructions are four bytes long, the direction
    predictor always gives the answer it is configured with, the BTB and the
    indirect predictor are association lists, and the RAS is a list whose
    tokens are snapshots of the stack. *)
Module Demo.

Record Inst := {
  uncond : bool;
  direct : bool;
  call : bool;
  ret : bool;
}.

Inductive Kind :=
  | NoBranch | Return | CallDirect | CallIndirect
  | DirectCond | DirectUncond | IndirectCond | IndirectUncond.

Definition kind (i : Inst) : Kind :=
  if ret i then Return
  else if call i then (if direct i then CallDirect else CallIndirect)
  else if direct i then (if uncond i then DirectUncond else DirectCond)
  else (if uncond i then IndirectUncond else IndirectCond).

Global Instance arch : Arch := {|
  PCState := N;
  StaticInst := Inst;
  BranchType := Kind;
  instAddr := λ p, p;
  isUncondCtrl := uncond;
  isDirectCtrl := direct;
  isCall := call;
  isReturn := ret;
  advancePC := λ _ p, p + 4;
  buildRetPC := λ _ _ p, p + 4;
  getBranchType := kind;
|}.

(** The state is the answer given to every [lookup]. *)
Global Instance direction : DirectionPredictor := {|
  DirState := bool;
  BPHistory := Addr;
  BP_lookup := λ _ pc _ d, (d, Some pc, d);
  BP_uncondBranch := λ _ pc _ d, (Some pc, d);
  BP_btbUpdate := λ _ _ h d, (h, d);
  BP_squash := λ _ _ d, d;
  BP_update := λ _ _ _ h _ _ _ d, (h, d);
|}.

Definition find (pc : Addr) (t : list (Addr * N)) : option N :=
  snd <$> List.find (λ e, fst e =? pc) t.

Global Instance table_btb : BranchTargetBuffer := {|
  BTBState := list (Addr * N);
  BTB_lookup := λ _ pc _ t, (find pc t, t);
  BTB_update := λ _ pc target _ t, (pc, target) :: t;
|}.

Global Instance table_iPred : IndirectPredictor := {|
  IPState := list (Addr * N);
  IHistory := InstSeqNum;
  IP_lookup := λ _ sn pc _ t, (find pc t, Some sn, t);
  IP_update := λ _ _ pc squashed taken target _ h t,
    (h, if squashed && taken then (pc, target) :: t else t);
  IP_commit := λ _ _ _ t, (None, t);
  IP_squash := λ _ _ _ t, (None, t);
|}.

Definition snapshot (h : option (list N)) (st : list N) : option (list N) :=
  match h with Some _ => h | None => Some st end.

Global Instance list_ras : ReturnAddrStack := {|
  RASState := list N;
  RASHistory := list N;
  RAS_pop := λ _ h st, (head st, snapshot h st, tail st);
  RAS_push := λ _ pc h st, (snapshot h st, pc :: st);
  RAS_commit := λ _ _ _ _ st, (None, st);
  RAS_squash := λ _ h st, (None, default st h);
|}.

Definition jump : StaticInst := Build_Inst true true false false.
Definition branch : StaticInst := Build_Inst false true false false.
Definition dcall : StaticInst := Build_Inst true true true false.
Definition ccall : StaticInst := Build_Inst false true true false.
Definition retn : StaticInst := Build_Inst true false false true.
Definition cretn : StaticInst := Build_Inst false false false true.
Definition ijump : StaticInst := Build_Inst true false false false.
Definition trampoline : StaticInst := Build_Inst true false true true.

(** One thread, a full set of collaborators, the BTB holding [entries]. *)
Definition machine (answer : bool) (entries : list (Addr * N)) : BPredUnit :=
  init 1 answer entries (Some []) (Some []).

(** The same without indirect predictor and without RAS. *)
Definition bare (answer : bool) (entries : list (Addr * N)) : BPredUnit :=
  init 1 answer entries None None.

(** The state a computation leaves (the state it started from when it
    stops short). *)
Definition after {A} (m : M A) (s : BPredUnit) : BPredUnit :=
  match m s with
  | Ok (_, s') => s'
  | Abort _ => s
  end.

(** The target a mispredicted branch resolves to. *)
Definition resolved : PCState := 0x8000.

(** An unconditional indirect jump predicted at sequence number 40. *)
Definition one_indirect : BPredUnit :=
  after (predict ijump 40 0x4040 0%Z) (machine false []).

(** A call and a return, predicted in this order. *)
Definition call_return : list (StaticInst * InstSeqNum * PCState) :=
  [(dcall, 20, 0x3000); (retn, 21, 0x4040)].

(** Two predictions, a flush of the younger one and the commit of the
    older one. *)
Definition session : list Op :=
  [OpPredict jump 10 0x1000 0%Z; OpPredict branch 11 0x1004 0%Z;
   OpSquash 10 0%Z; OpUpdate 10 0%Z].

(** The two predictions of [call_return] in flight, with a BTB entry for
    the call. *)
Definition two_in_flight : BPredUnit :=
  after (predict_all 0%Z call_return) (machine true [(0x3000, 0x4000)]).

(** The same after the RAS was taken away: its records still hold RAS
    tokens. *)
Definition ras_removed : BPredUnit := set_ras None two_in_flight.

(** The indirect predictor knows a target for the jump at 0x4040. *)
Definition trained : BPredUnit :=
  init 1 true [] (Some []) (Some [(0x4040, 0x5000)]).

(** The RAS holds one return address. *)
Definition called : BPredUnit := init 1 true [] (Some [0x3004]) (Some []).

End Demo.

(** * Properties *)

Section Properties.
Context `{!Arch} `{!DirectionPredictor} `{!BranchTargetBuffer}
        `{!IndirectPredictor} `{!ReturnAddrStack}.
Implicit Types (s : BPredUnit) (tid : ThreadID) (r : PH.t) (L : History).

(** *** Symbolic execution *)

Ltac unfold_prims :=
  unfold count, notify, assert, abort, gets, modify, push_front, pop_front,
    pop_back, put_hist, get_hist, lookup, uncondBranch, btbUpdate,
    squash_bp, update_bp, btb_lookup, btb_update, iPred_lookup,
    iPred_update, iPred_commit, iPred_squash, ras_pop, ras_push,
    ras_commit, ras_squash, with_iPred, with_ras, has_iPred, has_ras,
    mbind, mret, M_bind, M_ret, set_predHist, set_dir, set_btb, set_ras,
    set_iPred, set_stats, log in *.

Ltac msimpl := repeat (progress (unfold_prims; simpl in * )).

Ltac innermost x k :=
  lazymatch x with
  | context [match ?y with _ => _ end] => innermost y k
  | (?a && _)%bool => innermost a k
  | (?a || _)%bool => innermost a k
  | negb ?a => innermost a k
  | _ => k x
  end.

Ltac split_on x :=
  first [ match goal with E : x = _ |- _ => rewrite E in * end
        | is_var x; destruct x
        | let E := fresh "E" in destruct x eqn:E ];
  simpl in *.

Ltac step :=
  match goal with
  | H : Ok _ = Ok _ |- _ => injection H as H; try subst
  | H : Abort _ = Ok _ |- _ => discriminate H
  | H : Ok _ = Abort _ |- _ => discriminate H
  | H : Abort _ = Abort _ |- _ => injection H as H; try subst
  | H : (_, _) = (_, _) |- _ => injection H as H; try subst
  | H : Some _ = Some _ |- _ => injection H as H; try subst
  | E : ras ?s = _, H : context [ras ?s] |- _ =>
      rewrite E in H; simpl in H
  | E : iPred ?s = _, H : context [iPred ?s] |- _ =>
      rewrite E in H; simpl in H
  | E : hist_at _ _ = _, H : context [hist_at _ _] |- _ =>
      rewrite E in H; simpl in H
  | H : context [match ?x with _ => _ end] |- _ => innermost x split_on
  end.

Lemma occurrences_app p (l1 l2 : list Event) :
  occurrences p (l1 ++ l2) = (occurrences p l1 + occurrences p l2)%nat.
Proof. unfold occurrences. by rewrite List.filter_app, length_app. Qed.

Lemma occurrences_flat_map_0 {A} p (f : A → list Event) (l : list A) :
  (∀ a, occurrences p (f a) = 0%nat) →
  occurrences p (flat_map f l) = 0%nat.
Proof.
  intros Hf. induction l as [|a l IH]; [done|].
  simpl. rewrite occurrences_app, Hf, IH. done.
Qed.

Ltac stats_tac :=
  intros; unfold stats_le, stats_inv in *; simpl in *;
  rewrite <- ?app_assoc, ?occurrences_app in *; simpl in *;
  repeat split; lia.

Ltac tidy :=
  repeat match goal with E : ?a = ?a |- _ => clear E end.

Ltac use_path :=
  tidy;
  repeat match goal with
         | E : ?l = _ |- context [?l] => rewrite E; simpl
         end.

Lemma predict_inv inst sn pc tid s b pc' s' :
  predict inst sn pc tid s = Ok ((b, pc'), s') →
  ∃ L r delta,
    hist_at (predHist s) tid = Some L ∧
    predHist s' = <[Z.to_nat tid := r :: L]> (predHist s) ∧
    trace s' = trace s ++ NotifyBranches 1 :: delta ∧
    occurrences is_NotifyBranches delta = 0%nat ∧
    occurrences is_NotifyMisses delta = 0%nat ∧
    PH.seqNum r = sn ∧ PH.predTaken r = b ∧ PH.target r = instAddr pc' ∧
    PH.pc r = instAddr pc ∧ PH.pushedRAS r = false ∧ PH.inst r = inst ∧
    PH.mispredict r = false ∧
    present (ras s') = present (ras s) ∧
    present (iPred s') = present (iPred s) ∧
    St.lookups (stats s') = St.lookups (stats s) + 1 ∧
    St.condIncorrect (stats s') = St.condIncorrect (stats s) ∧
    stats_le (stats s) (stats s') ∧
    (stats_inv s → stats_inv s').
Proof.
  unfold predict. msimpl. intros Hp.
  destruct (ras s) eqn:Eras, (iPred s) eqn:Eip; simpl in *.
  all: repeat step.
  all: rewrite <- ?app_assoc; simpl.
  all: eexists _, _, _.
  all: split_and!; first [reflexivity | stats_tac].
Qed.

(** *** The queues as a vector *)

Lemma hist_at_valid (v : list History) tid L :
  hist_at v tid = Some L → (0 ≤ tid)%Z ∧ v !! Z.to_nat tid = Some L.
Proof. unfold hist_at. case_match; [|done]. intros. split; [lia|done]. Qed.

Lemma hist_at_insert_eq (v : list History) tid L L' :
  hist_at v tid = Some L → hist_at (<[Z.to_nat tid := L']> v) tid = Some L'.
Proof.
  intros [Hpos Hv]%hist_at_valid. unfold hist_at.
  case_match; [|lia]. apply list_lookup_insert_eq. by eapply lookup_lt_Some.
Qed.

Lemma hist_at_insert_ne (v : list History) tid t L L' :
  hist_at v tid = Some L → t ≠ tid →
  hist_at (<[Z.to_nat tid := L']> v) t = hist_at v t.
Proof.
  intros [Hpos Hv]%hist_at_valid Hne. unfold hist_at.
  case_match; [|done]. apply list_lookup_insert_ne. lia.
Qed.

Lemma hist_at_insert_id (v : list History) tid L :
  hist_at v tid = Some L → <[Z.to_nat tid := L]> v = v.
Proof. intros [_ Hv]%hist_at_valid. by apply list_insert_id. Qed.

Lemma hist_at_insert (v : list History) tid t L L' :
  hist_at v tid = Some L →
  hist_at (<[Z.to_nat tid := L']> v) t
  = if decide (t = tid) then Some L' else hist_at v t.
Proof.
  intros Hv. case_decide as Ht.
  - subst. by eapply hist_at_insert_eq.
  - by eapply hist_at_insert_ne.
Qed.

(** *** The commit loop *)

Ltac gstep :=
  match goal with
  | |- context [match ?x with _ => _ end] => innermost x split_on
  end.

Lemma update_loop_spec done_sn tid fuel : ∀ s L,
  hist_at (predHist s) tid = Some L → (length L ≤ fuel)%nat →
  ∃ s' keep gone,
    update_loop fuel done_sn tid s = Ok (tt, s') ∧
    L = keep ++ gone ∧
    predHist s' = <[Z.to_nat tid := keep]> (predHist s) ∧
    Forall (λ r, PH.seqNum r ≤ done_sn) gone ∧
    (∀ r, last keep = Some r → done_sn < PH.seqNum r) ∧
    trace s' = trace s ++
      flat_map (commit_events (present (iPred s)) (present (ras s)) tid)
               (reverse gone) ∧
    stats s' = stats s ∧ btb s' = btb s ∧
    present (ras s') = present (ras s) ∧
    present (iPred s') = present (iPred s).
Proof.
  induction fuel as [|fuel IH]; intros s L HL Hlen.
  - destruct L; [|simpl in Hlen; lia].
    exists s, [], []. simpl. unfold mbind, M_bind, get_hist. rewrite HL. simpl.
    split_and!; try done.
    + symmetry. by eapply hist_at_insert_id.
    + by rewrite app_nil_r.
  - destruct L as [|back L' _] using rev_ind.
    { exists s, [], []. simpl. unfold mbind, M_bind, get_hist. rewrite HL. simpl.
      split_and!; try done.
      + symmetry. by eapply hist_at_insert_id.
      + by rewrite app_nil_r. }
    rewrite length_app in Hlen. simpl in Hlen.
    simpl. unfold mbind at 1, M_bind at 1, get_hist at 1. rewrite HL.
    rewrite last_snoc.
    destruct (PH.seqNum back <=? done_sn) eqn:Hle.
    + destruct (ras s) eqn:Eras, (iPred s) eqn:Eip.
      all: msimpl; rewrite ?Eras, ?Eip, ?HL; simpl.
      all: repeat first [rewrite HL; simpl | gstep].
      all: rewrite ?removelast_last.
      all: match goal with
           | |- context [update_loop _ _ _ ?s1] =>
               destruct (IH s1 L') as
                 (s' & keep & gone & Hrun & -> & Hph & Hgone & Hkeep & Htr
                  & Hst & Hbtb & Hras & Hip);
               [by eapply hist_at_insert_eq | lia |];
               exists s', keep, (gone ++ [back]); rewrite Hrun
           end.
      all: simpl in *; rewrite ?list_insert_insert_eq in Hph.
      all: split_and!; try done.
      all: try (by rewrite app_assoc).
      all: try (apply Forall_app; split; [done|]; apply Forall_singleton;
                by apply N.leb_le).
      all: try (by rewrite Hras, ?Eras).
      all: try (by rewrite Hip, ?Eip).
      all: rewrite Htr, reverse_snoc; simpl; rewrite ?Eras, ?Eip; simpl.
      all: by rewrite <- ?app_assoc.
    + exists s, (L' ++ [back]), []. simpl.
      split_and!; try done.
      * by rewrite app_nil_r.
      * symmetry. by eapply hist_at_insert_id.
      * intros r. rewrite last_snoc. intros [= <-]. by apply N.leb_gt.
      * by rewrite app_nil_r.
Qed.

(** *** The flush loop *)

Lemma squash_loop_spec squashed_sn tid fuel : ∀ s L,
  hist_at (predHist s) tid = Some L → (length L ≤ fuel)%nat →
  (ras s = None ∧ squash_loop fuel squashed_sn tid s = Abort AssertionFailed)
  ∨ ∃ s' gone keep,
      squash_loop fuel squashed_sn tid s = Ok (tt, s') ∧
      L = gone ++ keep ∧
      predHist s' = <[Z.to_nat tid := keep]> (predHist s) ∧
      Forall (λ r, squashed_sn < PH.seqNum r) gone ∧
      (∀ r, head keep = Some r → PH.seqNum r ≤ squashed_sn) ∧
      trace s' = trace s ++
        flat_map (squash_events (present (iPred s)) tid) gone ∧
      stats s' = stats s ∧ btb s' = btb s ∧
      present (ras s') = present (ras s) ∧
      present (iPred s') = present (iPred s).
Proof.
  induction fuel as [|fuel IH]; intros s L HL Hlen.
  - destruct L; [|simpl in Hlen; lia].
    right. exists s, [], []. simpl. unfold mbind, M_bind, get_hist.
    rewrite HL. simpl. split_and!; try done.
    + symmetry. by eapply hist_at_insert_id.
    + by rewrite app_nil_r.
  - destruct L as [|front L'].
    { right. exists s, [], []. simpl. unfold mbind, M_bind, get_hist.
      rewrite HL. simpl. split_and!; try done.
      + symmetry. by eapply hist_at_insert_id.
      + by rewrite app_nil_r. }
    simpl in Hlen.
    destruct (squashed_sn <? PH.seqNum front) eqn:Hlt; cycle 1.
    { right. exists s, [], (front :: L'). simpl.
      unfold mbind at 1, M_bind at 1, get_hist at 1. rewrite HL, Hlt.
      split_and!; try done.
      * symmetry. by eapply hist_at_insert_id.
      * intros r [= <-]. by apply N.ltb_ge.
      * by rewrite app_nil_r. }
    destruct (squash_loop (S fuel) squashed_sn tid s) as [[[] s']|f] eqn:Hrun;
      [right|left].
    + simpl in Hrun.
      unfold mbind at 1, M_bind at 1, get_hist at 1 in Hrun.
      rewrite HL, Hlt in Hrun.
      destruct (ras s) eqn:Eras, (iPred s) eqn:Eip.
      all: msimpl; rewrite ?Eras, ?Eip, ?HL in Hrun; simpl in Hrun.
      all: repeat first [rewrite HL in Hrun; simpl in Hrun | step].
      all: match type of Hrun with
           | squash_loop _ _ _ ?s1 = _ =>
               destruct (IH s1 L') as
                 [[Hnone Habort]
                 |(s'' & gone & keep & Hrun' & -> & Hph & Hgone & Hkeep & Htr
                   & Hst & Hbtb & Hras & Hip)];
               [by eapply hist_at_insert_eq | lia | congruence |]
           end.
      all: rewrite Hrun' in Hrun; injection Hrun as ->.
      all: exists s', (front :: gone), keep.
      all: simpl in *; rewrite ?list_insert_insert_eq in Hph.
      all: split_and!; try done.
      all: try (apply Forall_cons; split; [by apply N.ltb_lt | done]).
      all: try (by rewrite Hras).
      all: try (by rewrite Hip).
      all: try rewrite Htr; unfold squash_events; simpl.
      all: repeat match goal with E : present _ = _ |- _ => rewrite E end.
      all: simpl; try by rewrite <- ?app_assoc.
      all: repeat match goal with E : present _ = _ |- _ => rewrite E end.
      all: simpl; by rewrite <- ?app_assoc.
    + simpl in Hrun.
      unfold mbind at 1, M_bind at 1, get_hist at 1 in Hrun.
      rewrite HL, Hlt in Hrun.
      destruct (ras s) eqn:Eras, (iPred s) eqn:Eip.
      all: msimpl; rewrite ?Eras, ?Eip, ?HL in Hrun; simpl in Hrun.
      all: repeat first [rewrite HL in Hrun; simpl in Hrun | step].
      all: try done.
      all: match type of Hrun with
           | squash_loop _ _ _ ?s1 = _ =>
               destruct (IH s1 L') as
                 [[Hnone Habort]
                 |(s'' & gone & keep & Hrun' & _)];
               [by eapply hist_at_insert_eq | lia | | congruence]
           end.
      all: simpl in Hnone; try discriminate.
      all: split; [done | congruence].
Qed.

Lemma update_spec done_sn tid s L :
  hist_at (predHist s) tid = Some L →
  ∃ s' keep gone,
    update done_sn tid s = Ok (tt, s') ∧
    L = keep ++ gone ∧
    predHist s' = <[Z.to_nat tid := keep]> (predHist s) ∧
    Forall (λ r, PH.seqNum r ≤ done_sn) gone ∧
    (∀ r, last keep = Some r → done_sn < PH.seqNum r) ∧
    trace s' = trace s ++
      flat_map (commit_events (present (iPred s)) (present (ras s)) tid)
               (reverse gone) ∧
    stats s' = stats s ∧ btb s' = btb s ∧
    present (ras s') = present (ras s) ∧
    present (iPred s') = present (iPred s).
Proof.
  intros HL. unfold update, mbind, M_bind, get_hist. rewrite HL.
  by apply update_loop_spec.
Qed.

Lemma squash_spec squashed_sn tid s L :
  hist_at (predHist s) tid = Some L →
  (ras s = None ∧ squash squashed_sn tid s = Abort AssertionFailed)
  ∨ ∃ s' gone keep,
      squash squashed_sn tid s = Ok (tt, s') ∧
      L = gone ++ keep ∧
      predHist s' = <[Z.to_nat tid := keep]> (predHist s) ∧
      Forall (λ r, squashed_sn < PH.seqNum r) gone ∧
      (∀ r, head keep = Some r → PH.seqNum r ≤ squashed_sn) ∧
      trace s' = trace s ++
        flat_map (squash_events (present (iPred s)) tid) gone ∧
      stats s' = stats s ∧ btb s' = btb s ∧
      present (ras s') = present (ras s) ∧
      present (iPred s') = present (iPred s).
Proof.
  intros HL. unfold squash, mbind, M_bind, get_hist. rewrite HL.
  by apply squash_loop_spec.
Qed.

Lemma out_of_bounds_update done_sn tid s :
  hist_at (predHist s) tid = None →
  update done_sn tid s = Abort OutOfBounds.
Proof. intros HL. unfold update, mbind, M_bind, get_hist. by rewrite HL. Qed.

Lemma out_of_bounds_squash squashed_sn tid s :
  hist_at (predHist s) tid = None →
  squash squashed_sn tid s = Abort OutOfBounds.
Proof. intros HL. unfold squash, mbind, M_bind, get_hist. by rewrite HL. Qed.

(** The step budget of the loops is never used up. *)
Lemma fuel_suffices_update done_sn tid s :
  update done_sn tid s ≠ Abort OutOfFuel.
Proof.
  destruct (hist_at (predHist s) tid) as [L|] eqn:HL.
  - destruct (update_spec done_sn tid s L HL) as (s' & ? & ? & -> & _). done.
  - by rewrite out_of_bounds_update.
Qed.

Lemma fuel_suffices_squash squashed_sn tid s :
  squash squashed_sn tid s ≠ Abort OutOfFuel.
Proof.
  destruct (hist_at (predHist s) tid) as [L|] eqn:HL.
  - destruct (squash_spec squashed_sn tid s L HL)
      as [[_ ->]|(s' & ? & ? & -> & _)]; done.
  - by rewrite out_of_bounds_squash.
Qed.

(** *** Events of the loops *)

Lemma occurrences_squash_events p b tid (L : list PH.t) :
  (∀ t h, p (RasSquash t h) = false) →
  (∀ t h, p (CallSquash t h) = false) →
  (∀ t n h, p (IPredSquash t n h) = false) →
  occurrences p (flat_map (squash_events b tid) L) = 0%nat.
Proof.
  intros Hp1 Hp2 Hp3. apply occurrences_flat_map_0. intros r.
  unfold squash_events.
  destruct (present (PH.rasHistory r)), b; simpl; by rewrite ?Hp1, ?Hp2, ?Hp3.
Qed.

Lemma occurrences_commit_events p bi br tid (L : list PH.t) :
  (∀ t a b h i g, p (CallUpdate t a b h false i g) = false) →
  (∀ t n h, p (IPredCommit t n h) = false) →
  (∀ t m k h, p (RasCommit t m k h) = false) →
  occurrences p (flat_map (commit_events bi br tid) L) = 0%nat.
Proof.
  intros Hp1 Hp2 Hp3. apply occurrences_flat_map_0. intros r.
  unfold commit_events.
  destruct bi, br; simpl; by rewrite ?Hp1, ?Hp2, ?Hp3.
Qed.


(** *** The misprediction squash *)

Ltac open_mispredict Hrun HL :=
  unfold squash_mispredict in Hrun;
  unfold mbind at 1, M_bind at 1, get_hist at 1 in Hrun;
  rewrite HL in Hrun;
  unfold mbind at 1, M_bind at 1, count at 1, modify at 1 in Hrun;
  unfold mbind at 1, M_bind at 1, notify at 1, modify at 1 in Hrun;
  unfold mbind at 1, M_bind at 1 in Hrun;
  match type of Hrun with context [squash _ _ (log _ (set_stats _ ?s))] =>
    change (log _ (set_stats _ s)) with (note_miss s) in Hrun
  end.

Lemma squash_mispredict_inv squashed_sn corr_target actually_taken tid s s1 keep :
  squash squashed_sn tid (note_miss s) = Ok (tt, s1) →
  hist_at (predHist s1) tid = Some keep →
  match keep with
  | [] =>
      squash_mispredict squashed_sn corr_target actually_taken tid s
      = Ok (tt, s1)
  | front :: rest =>
      if PH.seqNum front =? squashed_sn then
        ∃ s2 front' delta,
          squash_mispredict squashed_sn corr_target actually_taken tid s
            = Ok (tt, s2) ∧
          predHist s2 = <[Z.to_nat tid := front' :: rest]> (predHist s1) ∧
          trace s2 = trace s1 ++ delta ∧
          PH.seqNum front' = PH.seqNum front ∧
          PH.predTaken front' = actually_taken ∧
          PH.target front' = instAddr corr_target ∧
          PH.mispredict front' = true ∧
          PH.wasIndirect front' = PH.wasIndirect front ∧
          PH.pc front' = PH.pc front ∧
          PH.inst front' = PH.inst front ∧
          stats s2 = repair_stats front actually_taken (stats s1) ∧
          present (ras s2) = present (ras s1) ∧
          present (iPred s2) = present (iPred s1) ∧
          occurrences is_NotifyBranches delta = 0%nat ∧
          occurrences is_NotifyMisses delta = 0%nat ∧
          occurrences is_BtbLookup delta = 0%nat ∧
          occurrences is_IPredLookup delta = 0%nat ∧
          occurrences is_BtbUpdate delta
            = (if actually_taken && negb (PH.wasIndirect front)
               then 1 else 0)%nat ∧
          (actually_taken && negb (PH.wasIndirect front) = true →
           last delta = Some (BtbUpdate tid (PH.pc front) corr_target
                                (getBranchType (PH.inst front))))
      else
        squash_mispredict squashed_sn corr_target actually_taken tid s
        = Abort AssertionFailed
  end.
Proof.
  intros Hsq Hkeep.
  assert (∃ L, hist_at (predHist s) tid = Some L) as [L HL].
  { destruct (hist_at (predHist s) tid) eqn:E; [by eexists|].
    rewrite out_of_bounds_squash in Hsq; done. }
  destruct (squash_mispredict squashed_sn corr_target actually_taken tid s)
    as [[[] s2]|f] eqn:Hrun.
  - open_mispredict Hrun HL. rewrite Hsq in Hrun.
    unfold mbind at 1, M_bind at 1, get_hist at 1 in Hrun.
    rewrite Hkeep in Hrun.
    destruct keep as [|front rest]; [by injection Hrun as ->|].
    destruct (PH.seqNum front =? squashed_sn) eqn:Hsn; simpl in Hrun;
      [|done].
    destruct (ras s1) eqn:Eras, (iPred s1) eqn:Eip.
    all: msimpl.
    all: repeat step.
    all: rewrite <- ?app_assoc; simpl.
    all: eexists _, _, _.
    all: split_and!; try reflexivity.
    all: try done.
    all: unfold repair_stats; simpl.
    all: repeat match goal with E : _ = _ |- _ => rewrite E end.
    all: done.
  - open_mispredict Hrun HL. rewrite Hsq in Hrun.
    unfold mbind at 1, M_bind at 1, get_hist at 1 in Hrun.
    rewrite Hkeep in Hrun.
    destruct keep as [|front rest]; [done|].
    destruct (PH.seqNum front =? squashed_sn) eqn:Hsn; simpl in Hrun;
      [|by injection Hrun as <-].
    destruct (ras s1) eqn:Eras, (iPred s1) eqn:Eip.
    all: msimpl.
    all: repeat step.
Qed.

Lemma squash_ok_inv squashed_sn tid s s1 :
  squash squashed_sn tid s = Ok (tt, s1) →
  ∃ L gone keep,
    hist_at (predHist s) tid = Some L ∧
    L = gone ++ keep ∧
    predHist s1 = <[Z.to_nat tid := keep]> (predHist s) ∧
    hist_at (predHist s1) tid = Some keep ∧
    Forall (λ r, squashed_sn < PH.seqNum r) gone ∧
    (∀ r, head keep = Some r → PH.seqNum r ≤ squashed_sn) ∧
    trace s1 = trace s ++
      flat_map (squash_events (present (iPred s)) tid) gone ∧
    stats s1 = stats s ∧ btb s1 = btb s ∧
    present (ras s1) = present (ras s) ∧
    present (iPred s1) = present (iPred s).
Proof.
  intros Hsq.
  destruct (hist_at (predHist s) tid) as [L|] eqn:HL;
    [|by rewrite out_of_bounds_squash in Hsq].
  destruct (squash_spec squashed_sn tid s L HL)
    as [[_ Hab]|(s' & gone & keep & Hrun & HLs & Hph & Hrest)];
    [congruence|].
  rewrite Hrun in Hsq. injection Hsq as ->.
  exists L, gone, keep. split_and!; try done; try apply Hrest.
  rewrite Hph. by eapply hist_at_insert_eq.
Qed.

(** ** The boundary record of a misprediction squash *)

(** C2.  In the misprediction squash, once the flush of the entries
    younger than [squashed_sn] has returned: with an empty queue the call
    returns the state the flush left, with nothing else changed; with a
    non-empty queue whose front has another sequence number the call
    stops on the failed assertion ([assert] being compiled in), and no
    state is produced; only a front with [seqNum = squashed_sn] is
    repaired. *)
Theorem mispredict_squash_boundary squashed_sn corr_target actually_taken
    tid s s1 :
  squash squashed_sn tid (note_miss s) = Ok (tt, s1) →
  ∃ L gone keep,
    hist_at (predHist s) tid = Some L ∧ L = gone ++ keep ∧
    Forall (λ r, squashed_sn < PH.seqNum r) gone ∧
    (∀ r, head keep = Some r → PH.seqNum r ≤ squashed_sn) ∧
    hist_at (predHist s1) tid = Some keep ∧
    (keep = [] →
     squash_mispredict squashed_sn corr_target actually_taken tid s
     = Ok (tt, s1)) ∧
    (∀ front rest, keep = front :: rest →
       PH.seqNum front ≠ squashed_sn →
       squash_mispredict squashed_sn corr_target actually_taken tid s
       = Abort AssertionFailed) ∧
    (∀ front rest, keep = front :: rest →
       PH.seqNum front = squashed_sn →
       ∃ s2 front',
         squash_mispredict squashed_sn corr_target actually_taken tid s
         = Ok (tt, s2) ∧
         hist_at (predHist s2) tid = Some (front' :: rest) ∧
         PH.seqNum front' = squashed_sn ∧
         PH.mispredict front' = true).
Proof.
  intros Hsq.
  destruct (squash_ok_inv _ _ _ _ Hsq)
    as (L & gone & keep & HL & HLs & Hph & Hkeep & Hgone & Hhead & _).
  exists L, gone, keep. split_and!; try done.
  - intros ->. by apply (squash_mispredict_inv _ corr_target actually_taken
                           _ _ _ _ Hsq Hkeep).
  - intros front rest -> Hne.
    pose proof (squash_mispredict_inv _ corr_target actually_taken
                  _ _ _ _ Hsq Hkeep) as Hinv. simpl in Hinv.
    apply N.eqb_neq in Hne. by rewrite Hne in Hinv.
  - intros front rest -> Heq.
    pose proof (squash_mispredict_inv _ corr_target actually_taken
                  _ _ _ _ Hsq Hkeep) as Hinv. simpl in Hinv.
    apply N.eqb_eq in Heq as Heq'. rewrite Heq' in Hinv.
    destruct Hinv as (s2 & front' & delta & Hrun & Hph2 & _ & Hsn & _ & _
                      & Hmis & _).
    exists s2, front'. split_and!; try done.
    + rewrite Hph2. by eapply hist_at_insert_eq.
    + by rewrite Hsn.
Qed.

(** C5.  On the boundary record of a misprediction squash: a taken branch
    that was not an indirect lookup adds one to [BTBUpdates] and makes
    one call [btb->update(tid, pc, corr_target, type)], the last call of
    the squash; a taken branch that was an indirect lookup adds one to
    [indirectMispredicted] and the BTB is not updated; a not-taken branch
    changes neither counter and the BTB is not updated. *)
Theorem mispredict_squash_btb_update squashed_sn corr_target actually_taken
    tid s s1 front rest :
  squash squashed_sn tid (note_miss s) = Ok (tt, s1) →
  hist_at (predHist s1) tid = Some (front :: rest) →
  PH.seqNum front = squashed_sn →
  ∃ s2 delta,
    squash_mispredict squashed_sn corr_target actually_taken tid s
      = Ok (tt, s2) ∧
    trace s2 = trace s ++ delta ∧
    if actually_taken then
      if PH.wasIndirect front then
        St.indirectMispredicted (stats s2)
          = St.indirectMispredicted (stats s) + 1 ∧
        St.BTBUpdates (stats s2) = St.BTBUpdates (stats s) ∧
        occurrences is_BtbUpdate delta = 0%nat
      else
        St.BTBUpdates (stats s2) = St.BTBUpdates (stats s) + 1 ∧
        St.indirectMispredicted (stats s2)
          = St.indirectMispredicted (stats s) ∧
        occurrences is_BtbUpdate delta = 1%nat ∧
        last delta = Some (BtbUpdate tid (PH.pc front) corr_target
                             (getBranchType (PH.inst front)))
    else
      St.BTBUpdates (stats s2) = St.BTBUpdates (stats s) ∧
      St.indirectMispredicted (stats s2)
        = St.indirectMispredicted (stats s) ∧
      occurrences is_BtbUpdate delta = 0%nat.
Proof.
  intros Hsq Hkeep Heq.
  destruct (squash_ok_inv _ _ _ _ Hsq)
    as (L & gone & keep & HL & HLs & Hph & Hkeep' & Hgone & _ & Htr & Hst
        & _).
  pose proof (squash_mispredict_inv _ corr_target actually_taken
                _ _ _ _ Hsq Hkeep) as Hinv. simpl in Hinv.
  apply N.eqb_eq in Heq as Heq'. rewrite Heq' in Hinv.
  destruct Hinv as (s2 & front' & delta & Hrun & _ & Htr2 & _ & _ & _ & _
                    & _ & _ & _ & Hst2 & _ & _ & _ & _ & _ & _ & Hocc
                    & Hlast).
  exists s2, (NotifyMisses 1
              :: flat_map (squash_events (present (iPred s)) tid) gone
              ++ delta).
  split; [done|]. split.
  { rewrite Htr2, Htr. simpl. by rewrite <- !app_assoc. }
  assert (occurrences is_BtbUpdate
            (NotifyMisses 1
             :: flat_map (squash_events (present (iPred s)) tid) gone
             ++ delta)
          = occurrences is_BtbUpdate delta) as Hcount.
  { change (NotifyMisses 1 :: ?l ++ delta)
      with ([NotifyMisses 1] ++ l ++ delta).
    rewrite !occurrences_app, occurrences_squash_events by done. done. }
  rewrite Hcount, Hocc, Hst2, Hst. unfold repair_stats. simpl.
  destruct actually_taken, (PH.wasIndirect front),
    (present (PH.rasHistory front)); simpl; split_and!; try done.
  all: change (NotifyMisses 1 :: ?l ++ delta)
         with ((NotifyMisses 1 :: l) ++ delta).
  all: rewrite last_app, Hlast; done.
Qed.

(** *** What every returning misprediction squash does *)

Lemma squash_mispredict_summary squashed_sn corr_target actually_taken tid
    s s' :
  squash_mispredict squashed_sn corr_target actually_taken tid s
    = Ok (tt, s') →
  ∃ L gone keep keep' delta,
    hist_at (predHist s) tid = Some L ∧ L = gone ++ keep ∧
    predHist s' = <[Z.to_nat tid := keep']> (predHist s) ∧
    map PH.seqNum keep' = map PH.seqNum keep ∧
    trace s' = trace s ++ NotifyMisses 1 :: delta ∧
    occurrences is_NotifyMisses delta = 0%nat ∧
    occurrences is_NotifyBranches delta = 0%nat ∧
    occurrences is_BtbLookup delta = 0%nat ∧
    occurrences is_IPredLookup delta = 0%nat ∧
    St.condIncorrect (stats s') = St.condIncorrect (stats s) + 1 ∧
    St.lookups (stats s') = St.lookups (stats s) ∧
    stats_le (stats s) (stats s') ∧
    (stats_inv s → stats_inv s') ∧
    present (ras s') = present (ras s) ∧
    present (iPred s') = present (iPred s).
Proof.
  intros Hrun.
  destruct (hist_at (predHist s) tid) as [L|] eqn:HL; cycle 1.
  { unfold squash_mispredict, mbind, M_bind, get_hist in Hrun.
    by rewrite HL in Hrun. }
  destruct (squash squashed_sn tid (note_miss s)) as [[[] s1]|f] eqn:Hsq;
    cycle 1.
  { open_mispredict Hrun HL. by rewrite Hsq in Hrun. }
  destruct (squash_ok_inv _ _ _ _ Hsq)
    as (L0 & gone & keep & HL0 & HLs & Hph & Hkeep & Hgone & _ & Htr & Hst
        & _ & Hras & Hip).
  simpl in HL0. rewrite HL in HL0. injection HL0 as <-.
  pose proof (squash_mispredict_inv _ corr_target actually_taken
                _ _ _ _ Hsq Hkeep) as Hinv.
  set (flush := flat_map (squash_events (present (iPred (note_miss s))) tid)
                         gone) in *.
  assert (∀ p, (∀ t h, p (RasSquash t h) = false) →
               (∀ t h, p (CallSquash t h) = false) →
               (∀ t n h, p (IPredSquash t n h) = false) →
               occurrences p flush = 0%nat) as Hflush.
  { intros. by apply occurrences_squash_events. }
  destruct keep as [|front rest].
  - rewrite Hinv in Hrun. injection Hrun as <-.
    exists L, gone, [], [], flush.
    rewrite Hst, Hras, Hip, Htr. simpl.
    split_and!; try done; try (by apply Hflush).
    + by rewrite <- app_assoc.
    + stats_tac.
    + intros Hi. unfold stats_inv in *. simpl.
      rewrite Hst, Htr. simpl.
      rewrite !occurrences_app, !Hflush by done. simpl. lia.
  - destruct (PH.seqNum front =? squashed_sn) eqn:Hsn;
      [|congruence].
    destruct Hinv as (s2 & front' & delta & Hrun' & Hph2 & Htr2 & Hsn' & _
                      & _ & _ & _ & _ & _ & Hst2 & Hras2 & Hip2 & Ho1 & Ho2
                      & Ho3 & Ho4 & _).
    rewrite Hrun' in Hrun. injection Hrun as <-.
    exists L, gone, (front :: rest), (front' :: rest), (flush ++ delta).
    rewrite Hst2, Hras2, Hip2, Htr2, Hst, Hras, Hip, Htr.
    split_and!; try done.
    + rewrite Hph2, Hph. simpl. by rewrite list_insert_insert_eq.
    + simpl. by rewrite Hsn'.
    + simpl. by rewrite <- !app_assoc.
    + rewrite occurrences_app, Hflush, Ho2; done.
    + rewrite occurrences_app, Hflush, Ho1; done.
    + rewrite occurrences_app, Hflush, Ho3; done.
    + rewrite occurrences_app, Hflush, Ho4; done.
    + unfold repair_stats.
      destruct actually_taken, (PH.wasIndirect front),
        (present (PH.rasHistory front)); simpl; done.
    + unfold repair_stats.
      destruct actually_taken, (PH.wasIndirect front),
        (present (PH.rasHistory front)); simpl; done.
    + unfold repair_stats.
      destruct actually_taken, (PH.wasIndirect front),
        (present (PH.rasHistory front)); stats_tac.
    + intros Hi. unfold stats_inv in *.
      rewrite Hst2, Htr2, Hst, Htr. simpl.
      rewrite !occurrences_app, !Hflush, Ho3, Ho4 by done.
      unfold repair_stats.
      destruct actually_taken, (PH.wasIndirect front),
        (present (PH.rasHistory front)); simpl; lia.
Qed.

(** ** Probes and the counters [lookups] and [condIncorrect] *)

(** C9.  Every misprediction squash that returns has added exactly one to
    [condIncorrect] and notified the "Misses" probe exactly once, with
    count 1, as its first action, whatever the queue holds and whatever
    the branch is; every [predict] that returns has added exactly one to
    [lookups] and notified the "Branches" probe exactly once, with count
    1, as its first action. *)
Theorem probes_fire_once :
  (∀ squashed_sn corr_target actually_taken tid s s',
     squash_mispredict squashed_sn corr_target actually_taken tid s
       = Ok (tt, s') →
     St.condIncorrect (stats s') = St.condIncorrect (stats s) + 1 ∧
     ∃ delta,
       trace s' = trace s ++ NotifyMisses 1 :: delta ∧
       occurrences is_NotifyMisses delta = 0%nat ∧
       occurrences is_NotifyBranches delta = 0%nat) ∧
  (∀ inst seqNum pc tid s taken pc' s',
     predict inst seqNum pc tid s = Ok ((taken, pc'), s') →
     St.lookups (stats s') = St.lookups (stats s) + 1 ∧
     St.condIncorrect (stats s') = St.condIncorrect (stats s) ∧
     ∃ delta,
       trace s' = trace s ++ NotifyBranches 1 :: delta ∧
       occurrences is_NotifyBranches delta = 0%nat ∧
       occurrences is_NotifyMisses delta = 0%nat).
Proof.
  split.
  - intros * Hrun.
    destruct (squash_mispredict_summary _ _ _ _ _ _ Hrun)
      as (L & gone & keep & keep' & delta & _ & _ & _ & _ & Htr & Ho1 & Ho2
          & _ & _ & Hc & _).
    split; [done|]. by exists delta.
  - intros * Hrun.
    destruct (predict_inv _ _ _ _ _ _ _ _ Hrun)
      as (L & r & delta & _ & _ & Htr & Ho1 & Ho2 & _ & _ & _ & _ & _ & _
          & _ & _ & _ & Hl & Hc & _).
    split_and!; try done. by exists delta.
Qed.

(** ** Sequences of operations *)

Lemma update_ok_inv done_sn tid s s' :
  update done_sn tid s = Ok (tt, s') →
  ∃ keep gone,
    hist_at (predHist s) tid = Some (keep ++ gone) ∧
    predHist s' = <[Z.to_nat tid := keep]> (predHist s) ∧
    Forall (λ r, PH.seqNum r ≤ done_sn) gone ∧
    (∀ r, last keep = Some r → done_sn < PH.seqNum r) ∧
    trace s' = trace s ++
      flat_map (commit_events (present (iPred s)) (present (ras s)) tid)
               (reverse gone) ∧
    stats s' = stats s ∧
    present (ras s') = present (ras s) ∧
    present (iPred s') = present (iPred s).
Proof.
  intros Hrun.
  destruct (hist_at (predHist s) tid) as [L|] eqn:HL;
    [|by rewrite out_of_bounds_update in Hrun].
  destruct (update_spec done_sn tid s L HL)
    as (s1 & keep & gone & Hrun' & -> & Hph & Hgone & Hkeep & Htr & Hst & _
        & Hras & Hip).
  rewrite Hrun' in Hrun. injection Hrun as ->.
  by exists keep, gone.
Qed.

Lemma exec_predict inst seqNum pc tid s s' :
  exec (OpPredict inst seqNum pc tid) s = Ok (tt, s') →
  ∃ taken pc', predict inst seqNum pc tid s = Ok ((taken, pc'), s').
Proof.
  simpl. unfold mbind, M_bind, mret, M_ret.
  destruct (predict inst seqNum pc tid s) as [[[taken pc'] s1]|]; [|done].
  intros [= ->]. by exists taken, pc'.
Qed.

Lemma exec_stats o s s' :
  exec o s = Ok (tt, s') →
  stats_le (stats s) (stats s') ∧ (stats_inv s → stats_inv s').
Proof.
  destruct o as [inst sn pc tid|done_sn tid|sn tid|sn corr taken tid].
  - intros (taken & pc' & Hrun)%exec_predict.
    destruct (predict_inv _ _ _ _ _ _ _ _ Hrun)
      as (L & r & delta & Hrest).
    split; apply Hrest.
  - intros (keep & gone & _ & _ & _ & _ & Htr & Hst & _)%update_ok_inv.
    split; [rewrite Hst; stats_tac|].
    unfold stats_inv. rewrite Hst, Htr, !occurrences_app,
      !occurrences_commit_events by done. intros. lia.
  - simpl. intros (L & gone & keep & _ & _ & _ & _ & _ & _ & Htr & Hst & _)
             %squash_ok_inv.
    split; [rewrite Hst; stats_tac|].
    unfold stats_inv. rewrite Hst, Htr, !occurrences_app,
      !occurrences_squash_events by done. intros. lia.
  - simpl. intros Hrun.
    destruct (squash_mispredict_summary _ _ _ _ _ _ Hrun)
      as (L & gone & keep & keep' & delta & Hrest).
    split; apply Hrest.
Qed.

Lemma run_cons o ops s s' :
  run (o :: ops) s = Ok (tt, s') →
  ∃ s1, exec o s = Ok (tt, s1) ∧ run ops s1 = Ok (tt, s').
Proof.
  simpl. unfold mbind, M_bind.
  destruct (exec o s) as [[[] s1]|]; [|done]. intros Hrun. by exists s1.
Qed.

Lemma stats_le_refl c : stats_le c c.
Proof. stats_tac. Qed.

Lemma stats_le_trans c1 c2 c3 :
  stats_le c1 c2 → stats_le c2 c3 → stats_le c1 c3.
Proof. stats_tac. Qed.

Lemma stats_inv_init n d b rs i : stats_inv (init n d b rs i).
Proof. unfold stats_inv. simpl. lia. Qed.

Lemma predict_lookups inst seqNum pc tid s taken pc' s' :
  predict inst seqNum pc tid s = Ok ((taken, pc'), s') →
  lookup_counts (OpPredict inst seqNum pc tid) s s' ∧
  taken = says_taken inst pc tid s
          && negb (target_missed inst seqNum pc tid s) ∧
  ∃ delta,
    trace s' = trace s ++ delta ∧
    occurrences is_BtbLookup delta
      = (if consults_btb inst pc tid s then 1 else 0)%nat ∧
    occurrences is_IPredLookup delta
      = (if consults_iPred inst pc tid s then 1 else 0)%nat ∧
    occurrences is_CallBtbUpdate delta
      = (if consults_btb inst pc tid s && negb (btb_hits inst pc tid s)
            && negb (isCall inst) then 1 else 0)%nat ∧
    occurrences is_CallUpdate delta = 0%nat ∧
    occurrences is_CallSquash delta = 0%nat.
Proof.
  unfold lookup_counts, target_missed, consults_btb, consults_iPred,
    btb_hits, iPred_hits, says_taken, predict.
  msimpl. intros Hp.
  destruct (ras s) eqn:Eras, (iPred s) eqn:Eip; simpl in *.
  all: repeat step.
  all: rewrite <- ?app_assoc; simpl.
  all: tidy.
  all: use_path.
  all: split_and!; try reflexivity; try lia.
  all: eexists; split; [reflexivity|].
  all: split_and!; reflexivity.
Qed.

Lemma run_app ops1 : ∀ ops2 s s',
  run (ops1 ++ ops2) s = Ok (tt, s') →
  ∃ s1, run ops1 s = Ok (tt, s1) ∧ run ops2 s1 = Ok (tt, s').
Proof.
  induction ops1 as [|o ops1 IH]; intros ops2 s s' Hrun.
  - by exists s.
  - change ((o :: ops1) ++ ops2) with (o :: (ops1 ++ ops2)) in Hrun.
    apply run_cons in Hrun as (s0 & Hex & Hrun).
    destruct (IH _ _ _ Hrun) as (s1 & Ha & Hb).
    exists s1. split; [|done].
    simpl. unfold mbind, M_bind. by rewrite Hex.
Qed.

Lemma exec_lookup_counts o s s' :
  exec o s = Ok (tt, s') → lookup_counts o s s'.
Proof.
  destruct o as [inst sn pc tid|done_sn tid|sn tid|sn corr taken tid].
  - intros (taken & pc' & Hrun)%exec_predict.
    by destruct (predict_lookups _ _ _ _ _ _ _ _ Hrun) as [Hc _].
  - intros (keep & gone & _ & _ & _ & _ & _ & Hst & _)%update_ok_inv.
    simpl. by rewrite Hst.
  - simpl. intros (L & gone & keep & _ & _ & _ & _ & _ & _ & _ & Hst & _)
             %squash_ok_inv.
    by rewrite Hst.
  - simpl. intros Hrun.
    destruct (hist_at (predHist s) tid) as [L|] eqn:HL; cycle 1.
    { unfold squash_mispredict, mbind, M_bind, get_hist in Hrun.
      by rewrite HL in Hrun. }
    destruct (squash sn tid (note_miss s)) as [[[] s1]|f] eqn:Hsq; cycle 1.
    { open_mispredict Hrun HL. by rewrite Hsq in Hrun. }
    destruct (squash_ok_inv _ _ _ _ Hsq)
      as (L0 & gone & keep & _ & _ & _ & Hkeep & _ & _ & _ & Hst & _).
    simpl in Hst.
    pose proof (squash_mispredict_inv _ corr taken _ _ _ _ Hsq Hkeep) as Hinv.
    destruct keep as [|front rest].
    + rewrite Hinv in Hrun. injection Hrun as <-. by rewrite Hst.
    + destruct (PH.seqNum front =? sn) eqn:Hsn; [|congruence].
      destruct Hinv as (s2 & front' & delta & Hrun' & _ & _ & _ & _ & _ & _
                        & _ & _ & _ & Hst2 & _).
      rewrite Hrun' in Hrun. injection Hrun as <-.
      rewrite Hst2, Hst. unfold repair_stats.
      destruct (present (PH.rasHistory front)), taken,
        (PH.wasIndirect front); done.
Qed.

(** C8.  Over any sequence of [predict], [update] and the two squashes
    that runs to its end, no counter decreases, and the relations
    [BTBHits ≤ BTBLookups] and
    [indirectHits + indirectMisses = indirectLookups] carry over from
    the state before to the state after, together with the equalities
    between [BTBLookups] and the BTB lookups made and between
    [indirectLookups] and the indirect predictor lookups made; the
    relations hold for a newly constructed coordinator.  Each operation
    of the sequence changes the lookup counters as follows.  A [predict]
    adds one to [BTBLookups] exactly when it consults the BTB, and one to
    [BTBHits] exactly when it does and the BTB has a target; it adds one
    to [indirectLookups] exactly when it consults the indirect predictor,
    and then one to [indirectHits] when that has a target and one to
    [indirectMisses] when it has none.  [update] and the two squashes
    leave these five counters as they are. *)
Theorem counters_monotone_consistent ops s s' :
  run ops s = Ok (tt, s') →
  stats_le (stats s) (stats s') ∧
  (stats_inv s → stats_inv s') ∧
  ((∃ n d b rs i, s = init n d b rs i) →
   St.BTBHits (stats s') ≤ St.BTBLookups (stats s') ∧
   St.indirectHits (stats s') + St.indirectMisses (stats s')
     = St.indirectLookups (stats s')) ∧
  (∀ before o later, ops = before ++ o :: later →
   ∃ s1 s2,
     run before s = Ok (tt, s1) ∧ exec o s1 = Ok (tt, s2) ∧
     run later s2 = Ok (tt, s') ∧ lookup_counts o s1 s2).
Proof.
  intros Hrun.
  assert (stats_le (stats s) (stats s') ∧ (stats_inv s → stats_inv s'))
    as [Hle Hinv].
  { revert s Hrun. induction ops as [|o ops IH]; intros s Hrun.
    - injection Hrun as ->. split; [apply stats_le_refl|done].
    - apply run_cons in Hrun as (s1 & Hexec & Hrun).
      destruct (exec_stats _ _ _ Hexec) as [Hle1 Hinv1].
      destruct (IH _ Hrun) as [Hle2 Hinv2].
      split; [by eapply stats_le_trans|auto]. }
  split_and!; try done.
  - intros (n & d & b & rs & i & ->).
    destruct (Hinv (stats_inv_init n d b rs i)) as (? & ? & _). done.
  - intros before o later ->.
    apply run_app in Hrun as (s1 & Hbefore & Hrun).
    apply run_cons in Hrun as (s2 & Hex & Hlater).
    exists s1, s2. split_and!; try done. by apply exec_lookup_counts.
Qed.

(** ** The order of the history queues *)

Lemma decreasing_seqNums (L L' : History) :
  map PH.seqNum L = map PH.seqNum L' → decreasing L → decreasing L'.
Proof.
  unfold decreasing. revert L'.
  induction L as [|a L IH]; intros [|a' L'] Hmap HL; try done.
  injection Hmap as Ha Hmap.
  apply StronglySorted_cons in HL as [Hall HL].
  apply StronglySorted_cons. split; [|by apply IH].
  rewrite <- Ha.
  apply Forall_forall. intros b' Hb'.
  apply (list_elem_of_fmap_2 PH.seqNum) in Hb'.
  change (PH.seqNum <$> L') with (map PH.seqNum L') in Hb'.
  rewrite <- Hmap in Hb'.
  apply list_elem_of_fmap in Hb' as (b & -> & Hb).
  by eapply Forall_forall in Hall.
Qed.

Lemma seen_seqNums (P : InstSeqNum → Prop) (L L' : History) :
  map PH.seqNum L = map PH.seqNum L' →
  Forall (λ r, P (PH.seqNum r)) L → Forall (λ r, P (PH.seqNum r)) L'.
Proof.
  revert L'. induction L as [|a L IH]; intros [|a' L'] Hmap HL; try done.
  injection Hmap as Ha Hmap. apply Forall_cons in HL as [Hhd HL].
  apply Forall_cons. split; [by rewrite <- Ha|by apply IH].
Qed.

(** What one operation does to the queues: one queue is replaced, either
    by itself with a new front, or by a stretch of itself in which the
    sequence numbers are kept. *)
Lemma exec_queues o s s' :
  exec o s = Ok (tt, s') →
  ∃ tid L L',
    hist_at (predHist s) tid = Some L ∧
    predHist s' = <[Z.to_nat tid := L']> (predHist s) ∧
    match o with
    | OpPredict _ seqNum _ t =>
        t = tid ∧ ∃ r, L' = r :: L ∧ PH.seqNum r = seqNum
    | _ => ∃ a K b, L = a ++ K ++ b ∧ map PH.seqNum L' = map PH.seqNum K
    end.
Proof.
  destruct o as [inst sn pc tid|done_sn tid|sn tid|sn corr taken tid].
  - intros (taken & pc' & Hrun)%exec_predict.
    destruct (predict_inv _ _ _ _ _ _ _ _ Hrun)
      as (L & r & delta & HL & Hph & _ & _ & _ & Hsn & _).
    exists tid, L, (r :: L). split_and!; try done. by exists r.
  - intros (keep & gone & HL & Hph & _)%update_ok_inv.
    exists tid, (keep ++ gone), keep. split_and!; try done.
    by exists [], keep, gone.
  - simpl. intros (L & gone & keep & HL & -> & Hph & _)%squash_ok_inv.
    exists tid, (gone ++ keep), keep. split_and!; try done.
    exists gone, keep, []. by rewrite app_nil_r.
  - simpl. intros Hrun.
    destruct (squash_mispredict_summary _ _ _ _ _ _ Hrun)
      as (L & gone & keep & keep' & delta & HL & -> & Hph & Hmap & _).
    exists tid, (gone ++ keep), keep'. split_and!; try done.
    exists gone, keep, []. by rewrite app_nil_r.
Qed.

Lemma exec_queues_ok seen o ops s s' :
  queues_ok seen s → ascending seen (o :: ops) →
  exec o s = Ok (tt, s') →
  queues_ok (seen_after seen o) s' ∧ ascending (seen_after seen o) ops.
Proof.
  intros Hok Hasc Hexec.
  destruct (exec_queues _ _ _ Hexec) as (tid & L & L' & HL & Hph & Ho).
  destruct (Hok _ _ HL) as [Hdec Hseen].
  assert (∀ t h, hist_at (predHist s') t = Some h →
            (t = tid ∧ h = L') ∨ (hist_at (predHist s) t = Some h))
    as Hcases.
  { intros t h. rewrite Hph, (hist_at_insert _ _ _ _ _ HL).
    case_decide; [intros [= <-]; by left | by right]. }
  destruct o as [inst sn pc tid'|done_sn tid'|sn tid'|sn corr taken tid'];
    simpl in *.
  - destruct Ho as (-> & r & -> & Hsn). destruct Hasc as [Hnew Hasc].
    split; [|done].
    intros t h [[-> ->]|Hold]%Hcases.
    + split.
      * apply StronglySorted_cons. split; [|done].
        rewrite Hsn. eapply Forall_impl; [exact Hseen|].
        intros b Hb. by apply Hnew.
      * apply Forall_cons. split; [rewrite Hsn; by left|].
        eapply Forall_impl; [exact Hseen|]. intros b Hb. by right.
    + destruct (Hok _ _ Hold) as [Hd Hs]. split; [done|].
      eapply Forall_impl; [exact Hs|]. intros b Hb. by right.
  - destruct Ho as (a & K & b & -> & Hmap). split; [|done].
    intros t h [[-> ->]|Hold]%Hcases; [|by apply Hok].
    apply Forall_app in Hseen as [_ [HK _]%Forall_app].
    apply StronglySorted_app in Hdec as (_ & _ & Hdec).
    apply StronglySorted_app in Hdec as (_ & Hdec & _).
    split; [by eapply decreasing_seqNums|].
    by eapply (seen_seqNums (λ n, (tid, n) ∈ seen)).
  - destruct Ho as (a & K & b & -> & Hmap). split; [|done].
    intros t h [[-> ->]|Hold]%Hcases; [|by apply Hok].
    apply Forall_app in Hseen as [_ [HK _]%Forall_app].
    apply StronglySorted_app in Hdec as (_ & _ & Hdec).
    apply StronglySorted_app in Hdec as (_ & Hdec & _).
    split; [by eapply decreasing_seqNums|].
    by eapply (seen_seqNums (λ n, (tid, n) ∈ seen)).
  - destruct Ho as (a & K & b & -> & Hmap). split; [|done].
    intros t h [[-> ->]|Hold]%Hcases; [|by apply Hok].
    apply Forall_app in Hseen as [_ [HK _]%Forall_app].
    apply StronglySorted_app in Hdec as (_ & _ & Hdec).
    apply StronglySorted_app in Hdec as (_ & Hdec & _).
    split; [by eapply decreasing_seqNums|].
    by eapply (seen_seqNums (λ n, (tid, n) ∈ seen)).
Qed.

Lemma run_queues_ok ops : ∀ seen s s',
  queues_ok seen s → ascending seen ops → run ops s = Ok (tt, s') →
  ∃ seen', queues_ok seen' s'.
Proof.
  induction ops as [|o ops IH]; intros seen s s' Hok Hasc Hrun.
  - injection Hrun as ->. by exists seen.
  - apply run_cons in Hrun as (s1 & Hexec & Hrun).
    destruct (exec_queues_ok _ _ _ _ _ Hok Hasc Hexec) as [Hok1 Hasc1].
    by eapply IH.
Qed.

Lemma empty_queues_ok s : empty_queues s → queues_ok [] s.
Proof.
  intros Hempty tid h [_ Hh]%hist_at_valid.
  eapply Forall_lookup_1 in Hempty; [|exact Hh]. subst h.
  split; constructor.
Qed.

(** C7.  Start from a coordinator whose queues are empty and run any
    sequence of [predict], [update], flush squash and misprediction
    squash in which every [predict] uses a sequence number above all
    those passed to [predict] for the same thread before.  In the state
    reached, every queue is strictly decreasing in [seqNum] from front to
    back; each operation carries the invariant [queues_ok] from the
    state before to the state after. *)
Theorem history_strictly_decreasing ops s s' :
  empty_queues s → ascending [] ops → run ops s = Ok (tt, s') →
  (∀ tid h, hist_at (predHist s') tid = Some h → decreasing h) ∧
  (∀ seen o rest s1 s2,
     queues_ok seen s1 → ascending seen (o :: rest) →
     exec o s1 = Ok (tt, s2) → queues_ok (seen_after seen o) s2).
Proof.
  intros Hempty Hasc Hrun. split.
  - destruct (run_queues_ok ops [] s s') as [seen' Hok]; try done.
    { by apply empty_queues_ok. }
    intros tid h Hh. by apply (Hok tid h).
  - intros seen o rest s1 s2 Hok Ha Hexec.
    by destruct (exec_queues_ok _ _ _ _ _ Hok Ha Hexec).
Qed.

(** ** Predicting and then committing everything *)

Lemma predict_all_queue tid calls : ∀ s L res s1,
  hist_at (predHist s) tid = Some L →
  predict_all tid calls s = Ok (res, s1) →
  ∃ H,
    hist_at (predHist s1) tid = Some (H ++ L) ∧
    map PH.seqNum (reverse H) = map call_sn calls ∧
    present (ras s1) = present (ras s) ∧
    present (iPred s1) = present (iPred s).
Proof.
  induction calls as [|[[inst sn] pc] calls IH]; intros s L res s1 HL Hrun.
  - injection Hrun as <- <-. by exists [].
  - simpl in Hrun. unfold mbind at 1, M_bind at 1 in Hrun.
    destruct (predict inst sn pc tid s) as [[[taken pc'] s']|] eqn:Hp;
      [|done].
    unfold mbind at 1, M_bind at 1 in Hrun.
    destruct (predict_all tid calls s') as [[rest s'']|] eqn:Hall; [|done].
    injection Hrun as <- <-.
    destruct (predict_inv _ _ _ _ _ _ _ _ Hp)
      as (L0 & r & delta & HL0 & Hph & _ & _ & _ & Hsn & _ & _ & _ & _ & _
          & _ & Hras & Hip & _).
    rewrite HL in HL0. injection HL0 as <-.
    destruct (IH s' (r :: L) rest s'') as (H' & HH & Hmap & Hras' & Hip');
      try done.
    { rewrite Hph. by eapply hist_at_insert_eq. }
    exists (H' ++ [r]). split_and!.
    + by rewrite <- app_assoc.
    + rewrite reverse_snoc. simpl. unfold call_sn at 1. simpl.
      by rewrite Hmap, Hsn.
    + by rewrite Hras'.
    + by rewrite Hip'.
Qed.

Lemma commit_events_updates bi br tid (L : list PH.t) :
  List.filter is_CallUpdate (flat_map (commit_events bi br tid) L)
  = map (λ r, CallUpdate tid (PH.pc r) (PH.predTaken r) (PH.bpHistory r)
                false (PH.inst r) (PH.target r)) L.
Proof.
  induction L as [|r L IH]; [done|].
  change (flat_map ?f (r :: L)) with (f r ++ flat_map f L).
  rewrite List.filter_app, IH.
  unfold commit_events. by destruct bi, br.
Qed.

Lemma commit_events_authoritative bi br tid (L : list PH.t) :
  occurrences is_authoritative (flat_map (commit_events bi br tid) L)
  = length L.
Proof.
  induction L as [|r L IH]; [done|].
  change (flat_map ?f (r :: L)) with (f r ++ flat_map f L).
  rewrite occurrences_app, IH.
  unfold commit_events. by destruct bi, br.
Qed.

Lemma commit_events_iPred bi br tid (L : list PH.t) :
  occurrences is_IPredCommit (flat_map (commit_events bi br tid) L)
  = if bi then length L else 0%nat.
Proof.
  induction L as [|r L IH]; [by destruct bi|].
  change (flat_map ?f (r :: L)) with (f r ++ flat_map f L).
  rewrite occurrences_app, IH.
  unfold commit_events. by destruct bi, br.
Qed.

Lemma commit_events_ras bi br tid (L : list PH.t) :
  occurrences is_RasCommit (flat_map (commit_events bi br tid) L)
  = if br then length L else 0%nat.
Proof.
  induction L as [|r L IH]; [by destruct br|].
  change (flat_map ?f (r :: L)) with (f r ++ flat_map f L).
  rewrite occurrences_app, IH.
  unfold commit_events. by destruct bi, br.
Qed.

(** C6.  From an empty queue of thread [tid], [predict] called once per
    entry of [calls] with strictly increasing sequence numbers, followed
    by [update(last_sn, tid)] with [last_sn] at least all of them: the
    update returns and leaves the queue empty; what it calls is, record
    by record from the oldest to the youngest, one update of the
    direction predictor with [squashed = false], then one commit of the
    indirect predictor when there is one, then one commit of the RAS when
    there is one, and nothing else. *)
Theorem predicts_then_update_drains tid calls last_sn s0 res s1 :
  hist_at (predHist s0) tid = Some [] →
  StronglySorted N.lt (map call_sn calls) →
  Forall (λ c, call_sn c ≤ last_sn) calls →
  predict_all tid calls s0 = Ok (res, s1) →
  ∃ s2 H delta,
    hist_at (predHist s1) tid = Some H ∧
    map PH.seqNum (reverse H) = map call_sn calls ∧
    StronglySorted N.lt (map PH.seqNum (reverse H)) ∧
    update last_sn tid s1 = Ok (tt, s2) ∧
    hist_at (predHist s2) tid = Some [] ∧
    trace s2 = trace s1 ++ delta ∧
    delta = flat_map (commit_events (present (iPred s0)) (present (ras s0))
                                    tid) (reverse H) ∧
    List.filter is_CallUpdate delta
      = map (λ r, CallUpdate tid (PH.pc r) (PH.predTaken r)
                    (PH.bpHistory r) false (PH.inst r) (PH.target r))
            (reverse H) ∧
    occurrences is_CallUpdate delta = length calls ∧
    occurrences is_authoritative delta = length calls ∧
    occurrences is_IPredCommit delta
      = (if present (iPred s0) then length calls else 0%nat) ∧
    occurrences is_RasCommit delta
      = (if present (ras s0) then length calls else 0%nat).
Proof.
  intros Hempty Hsorted Hle Hrun.
  destruct (predict_all_queue _ _ _ _ _ _ Hempty Hrun)
    as (H' & HH & Hmap & Hras & Hip).
  rewrite app_nil_r in HH.
  destruct (update_spec last_sn tid s1 H' HH)
    as (s2 & keep & gone & Hup & -> & Hph & Hgone & Hkeep & Htr & _).
  assert (keep = []) as ->.
  { destruct (last keep) as [r|] eqn:Hlast; [|by apply last_None].
    exfalso. specialize (Hkeep r eq_refl).
    assert (PH.seqNum r ∈ map call_sn calls) as Hin.
    { rewrite <- Hmap. apply (list_elem_of_fmap_2 PH.seqNum).
      apply elem_of_reverse, elem_of_app. left.
      by apply last_Some_elem_of. }
    apply list_elem_of_fmap in Hin as (c & Hc & Hin).
    eapply Forall_forall in Hle; [|exact Hin]. simpl in Hle. lia. }
  simpl in *.
  assert (length gone = length calls) as Hlen.
  { rewrite <- (length_map call_sn calls), <- Hmap, length_map.
    by rewrite length_reverse. }
  exists s2, gone, (flat_map (commit_events (present (iPred s0))
                                (present (ras s0)) tid) (reverse gone)).
  split_and!; try done.
  - by rewrite Hmap.
  - rewrite Hph. by eapply hist_at_insert_eq.
  - by rewrite Htr, Hras, Hip.
  - apply commit_events_updates.
  - unfold occurrences. by rewrite commit_events_updates, length_map,
      length_reverse.
  - by rewrite commit_events_authoritative, length_reverse.
  - rewrite commit_events_iPred, length_reverse, Hlen. done.
  - rewrite commit_events_ras, length_reverse, Hlen. done.
Qed.

(** ** [predict] and the return address stack *)

Lemma predict_null_ras inst seqNum pc tid s :
  ras s = None → says_taken inst pc tid s = true →
  isReturn inst || isCall inst = true →
  predict inst seqNum pc tid s = Abort NullPointer.
Proof.
  unfold says_taken. intros Hras Htaken Hrc.
  unfold predict. msimpl. rewrite ?Hras.
  repeat first [progress simplify_eq/= | gstep]; done.
Qed.

Lemma predict_null_ras_inv inst seqNum pc tid s :
  predict inst seqNum pc tid s = Abort NullPointer →
  ras s = None ∧ says_taken inst pc tid s = true ∧
  isReturn inst || isCall inst = true.
Proof.
  unfold says_taken, predict. msimpl. intros Hrun.
  repeat step.
  all: split_and!; use_path; done.
Qed.

Lemma predict_total inst seqNum pc tid s :
  is_Some (hist_at (predHist s) tid) →
  (says_taken inst pc tid s = true → isReturn inst || isCall inst = true →
   is_Some (ras s)) →
  ∃ taken pc' s', predict inst seqNum pc tid s = Ok ((taken, pc'), s').
Proof.
  intros [L HL] Hpre.
  destruct (predict inst seqNum pc tid s) as [[[taken pc'] s']|f] eqn:Hrun;
    [by eauto|exfalso].
  assert (f ≠ NullPointer) as Hf.
  { intros ->. apply predict_null_ras_inv in Hrun as (Hras & Ht & Hrc).
    destruct (Hpre Ht Hrc) as [? ?]. congruence. }
  revert Hrun. unfold predict. msimpl. intros Hrun.
  repeat step; done.
Qed.

Lemma squash_mispredict_no_null squashed_sn corr_target actually_taken tid s :
  squash_mispredict squashed_sn corr_target actually_taken tid s
  ≠ Abort NullPointer.
Proof.
  intros Hrun.
  destruct (hist_at (predHist s) tid) as [L|] eqn:HL; cycle 1.
  { unfold squash_mispredict, mbind, M_bind, get_hist in Hrun.
    by rewrite HL in Hrun. }
  destruct (squash_spec squashed_sn tid (note_miss s) L HL)
    as [[_ Hab]|(s1 & gone & keep & Hsq & _ & Hph & _)].
  { open_mispredict Hrun HL. by rewrite Hab in Hrun. }
  assert (hist_at (predHist s1) tid = Some keep) as Hkeep.
  { rewrite Hph. by eapply hist_at_insert_eq. }
  pose proof (squash_mispredict_inv _ corr_target actually_taken
                _ _ _ _ Hsq Hkeep) as Hinv.
  destruct keep as [|front rest]; [congruence|].
  destruct (PH.seqNum front =? squashed_sn); [|congruence].
  destruct Hinv as (s2 & ? & ? & Hrun' & _). congruence.
Qed.

(** C10.  [predict] calls [ras->pop] and [ras->push] without testing
    [ras]: it stops on a null pointer exactly when there is no RAS and
    the branch is predicted taken and is a return or a call, and it
    returns whenever the RAS is present in that case (the thread being
    one of the coordinator's).  The commit and the misprediction squash
    never stop on a null pointer, with or without RAS, and the commit
    always returns. *)
Theorem predict_needs_ras :
  (∀ inst seqNum pc tid s,
     predict inst seqNum pc tid s = Abort NullPointer ↔
     ras s = None ∧ says_taken inst pc tid s = true ∧
     isReturn inst || isCall inst = true) ∧
  (∀ inst seqNum pc tid s,
     is_Some (hist_at (predHist s) tid) →
     (says_taken inst pc tid s = true →
      isReturn inst || isCall inst = true → is_Some (ras s)) →
     ∃ taken pc' s', predict inst seqNum pc tid s = Ok ((taken, pc'), s')) ∧
  (∀ done_sn tid s,
     update done_sn tid s ≠ Abort NullPointer ∧
     (is_Some (hist_at (predHist s) tid) →
      ∃ s', update done_sn tid s = Ok (tt, s'))) ∧
  (∀ squashed_sn corr_target actually_taken tid s,
     squash_mispredict squashed_sn corr_target actually_taken tid s
     ≠ Abort NullPointer).
Proof.
  split_and!.
  - intros. split.
    + apply predict_null_ras_inv.
    + intros (? & ? & ?). by apply predict_null_ras.
  - apply predict_total.
  - intros done_sn tid s. split.
    + destruct (hist_at (predHist s) tid) as [L|] eqn:HL.
      * destruct (update_spec done_sn tid s L HL) as (s' & ? & ? & -> & _).
        done.
      * by rewrite out_of_bounds_update.
    + intros [L HL].
      destruct (update_spec done_sn tid s L HL) as (s' & ? & ? & -> & _).
      by exists s'.
  - apply squash_mispredict_no_null.
Qed.

(** C4, as the code has it.  For a branch predicted taken that is a
    return, when the RAS is present and its pop yields no address,
    [predict] returns, the prediction stays taken, and the target written
    to [pc] and stored in the record is the incoming [pc] unchanged: the
    address of the branch itself. *)
Theorem predict_return_empty_ras inst seqNum pc tid s L rs h rs' :
  says_taken inst pc tid s = true → isReturn inst = true →
  hist_at (predHist s) tid = Some L →
  ras s = Some rs → RAS_pop tid None rs = (None, h, rs') →
  ∃ s' rec,
    predict inst seqNum pc tid s = Ok ((true, pc), s') ∧
    hist_at (predHist s') tid = Some (rec :: L) ∧
    PH.seqNum rec = seqNum ∧
    PH.predTaken rec = true ∧
    PH.target rec = instAddr pc ∧
    PH.target rec = PH.pc rec.
Proof.
  unfold says_taken. intros Htaken Hret HL Hras Hpop.
  unfold predict. msimpl. rewrite ?Hras, ?Hret.
  repeat first [progress simplify_eq/= | gstep].
  all: eexists _, _; split; [reflexivity|]; simpl.
  all: rewrite (hist_at_insert_eq _ _ _ _ HL).
  all: split_and!; reflexivity.
Qed.

(** ** [predict] when the BTB misses *)

(** C1.  In [predict], for a branch that is not a return, predicted
    taken, looked up in the BTB (it is direct, or there is no indirect
    predictor) and missed there: [predict] returns not-taken, the record
    has [predTaken] false, the new [pc] and the record's target are the
    sequential successor of the branch; [btbUpdate] is called once when
    the instruction is not a call (nor a return) and not at all
    otherwise; and for a conditional call the RAS is squashed once, with
    the token the push handed back, which undoes the push. *)
Theorem predict_btb_miss inst seqNum pc tid s L bs :
  says_taken inst pc tid s = true → isReturn inst = false →
  isDirectCtrl inst = true ∨ iPred s = None →
  BTB_lookup tid (instAddr pc) (getBranchType inst) (btb s) = (None, bs) →
  hist_at (predHist s) tid = Some L →
  (isCall inst = true → is_Some (ras s)) →
  ∃ s' rec delta,
    predict inst seqNum pc tid s = Ok ((false, advancePC inst pc), s') ∧
    hist_at (predHist s') tid = Some (rec :: L) ∧
    trace s' = trace s ++ delta ∧
    PH.seqNum rec = seqNum ∧
    PH.predTaken rec = false ∧
    PH.target rec = instAddr (advancePC inst pc) ∧
    PH.pushedRAS rec = false ∧
    occurrences is_CallBtbUpdate delta
      = (if negb (isCall inst) && negb (isReturn inst) then 1 else 0)%nat ∧
    occurrences is_RasSquash delta
      = (if isCall inst && negb (isUncondCtrl inst) then 1 else 0)%nat ∧
    (isCall inst = true → isUncondCtrl inst = false →
     ∃ rs h rs',
       ras s = Some rs ∧
       RAS_push tid (buildRetPC inst pc pc) None rs = (h, rs') ∧
       RasSquash tid h ∈ delta ∧
       PH.rasHistory rec = (RAS_squash tid h rs').1 ∧
       ras s' = Some (RAS_squash tid h rs').2).
Proof.
  unfold says_taken. intros Htaken Hret Hbtb Hmiss HL Hras.
  unfold predict. msimpl. rewrite ?Hret.
  destruct (isCall inst) eqn:Hcall; simpl in *.
  - destruct Hras as [rs Hras]; [done|]. rewrite ?Hras.
    destruct Hbtb as [Hd|Hip]; rewrite ?Hd, ?Hip; simpl.
    all: repeat first [progress simplify_eq/= | gstep].
    all: rewrite <- ?app_assoc; simpl.
    all: eexists _, _, _; split; [reflexivity|]; simpl.
    all: rewrite (hist_at_insert_eq _ _ _ _ HL).
    all: split_and!; try reflexivity; try done.
    all: intros _ _; eexists _, _, _; split_and!;
         try reflexivity; try eassumption.
    all: try (repeat match goal with E : _ = _ |- _ => rewrite E end; done).
    all: rewrite !elem_of_cons; auto 10.
  - destruct Hbtb as [Hd|Hip]; rewrite ?Hd, ?Hip; simpl.
    all: repeat first [progress simplify_eq/= | gstep].
    all: rewrite <- ?app_assoc; simpl.
    all: eexists _, _, _; split; [reflexivity|]; simpl.
    all: rewrite (hist_at_insert_eq _ _ _ _ HL).
    all: split_and!; try reflexivity; done.
Qed.

(** ** [predict] on a call *)

(** C3, as the code has it.  In [predict], whenever the branch is
    predicted taken and the instruction is a call, a return address built
    from the branch [pc] is pushed onto the RAS, once, with the record's
    token (null, or the one the pop of a return handed back).  The
    result is taken exactly when the target lookup does not miss.  When
    the lookup in the BTB or in the indirect predictor misses and the call
    is conditional, the push is undone: the RAS is squashed once, with
    the token of the push, and the record and the RAS keep what the
    squash hands back.  In every other case the RAS is not squashed, and
    the record and the RAS keep what the push handed back.  The record's
    [pushedRAS] is false on every path: [predict] never sets it. *)
Theorem predict_call_pushes inst seqNum pc tid s taken pc' s' :
  says_taken inst pc tid s = true → isCall inst = true →
  predict inst seqNum pc tid s = Ok ((taken, pc'), s') →
  ∃ rec L delta rs h0 rs0 h1 rs1,
    hist_at (predHist s) tid = Some L ∧
    hist_at (predHist s') tid = Some (rec :: L) ∧
    trace s' = trace s ++ delta ∧
    ras s = Some rs ∧
    (if isReturn inst
     then ∃ a, RAS_pop tid None rs = (a, h0, rs0)
     else h0 = None ∧ rs0 = rs) ∧
    RAS_push tid (buildRetPC inst pc pc) h0 rs0 = (h1, rs1) ∧
    RasPush tid (buildRetPC inst pc pc) h0 ∈ delta ∧
    occurrences is_RasPush delta = 1%nat ∧
    taken = negb (target_missed inst seqNum pc tid s) ∧
    (if target_missed inst seqNum pc tid s && negb (isUncondCtrl inst)
     then occurrences is_RasSquash delta = 1%nat ∧
          RasSquash tid h1 ∈ delta ∧
          PH.rasHistory rec = (RAS_squash tid h1 rs1).1 ∧
          ras s' = Some (RAS_squash tid h1 rs1).2
     else occurrences is_RasSquash delta = 0%nat ∧
          PH.rasHistory rec = h1 ∧
          ras s' = Some rs1) ∧
    PH.pushedRAS rec = false.
Proof.
  unfold target_missed, consults_btb, consults_iPred, btb_hits, iPred_hits,
    says_taken, predict.
  msimpl. intros Htaken Hcall Hrun.
  rewrite Hcall in *.
  destruct (ras s) eqn:Eras, (iPred s) eqn:Eip; simpl in *.
  all: repeat step.
  all: try discriminate.
  all: rewrite <- ?app_assoc; simpl.
  all: tidy.
  all: match goal with
       | HL : hist_at _ _ = Some ?h |- _ =>
           eexists _, h, _, _, _, _, _, _;
           rewrite (hist_at_insert_eq _ _ _ _ HL)
       end.
  all: split_and!;
       [reflexivity | reflexivity | reflexivity | reflexivity | ..].
  all: first
    [ reflexivity
    | eassumption
    | (eexists; eassumption)
    | (split; reflexivity)
    | (rewrite !elem_of_cons; by auto 10)
    | (use_path; reflexivity) ].
Qed.
(** * Further properties *)

(** ** Draining and dumping *)

Lemma for_each_assert_empty (v : list History) s :
  for_each (λ ph, assert (queue_empty ph)) v s
  = if forallb queue_empty v then Ok (tt, s) else Abort AssertionFailed.
Proof.
  induction v as [|ph v IH]; [done|].
  simpl. unfold mbind, M_bind. destruct ph; simpl; [exact IH|done].
Qed.

Lemma forallb_queue_empty (v : list History) :
  forallb queue_empty v = true ↔ Forall (λ h, h = []) v.
Proof.
  induction v as [|ph v IH]; simpl.
  - split; [constructor|done].
  - rewrite andb_true_iff, IH, Forall_cons.
    destruct ph; simpl; split; intros [? ?]; split; done.
Qed.

(** X1.  [drainSanityCheck] returns exactly when every queue is empty,
    and then leaves the coordinator as it is; with any queue holding a
    record it stops on the failed assertion. *)
Theorem drain_sanity_check s :
  (drainSanityCheck s = Ok (tt, s) ↔ empty_queues s) ∧
  (drainSanityCheck s = Abort AssertionFailed ↔ ¬ empty_queues s) ∧
  (∀ n d b rs i, drainSanityCheck (init n d b rs i)
                 = Ok (tt, init n d b rs i)).
Proof.
  unfold drainSanityCheck, empty_queues, mbind, M_bind, gets.
  rewrite for_each_assert_empty.
  pose proof (forallb_queue_empty (predHist s)) as Hiff.
  split_and!.
  - destruct (forallb queue_empty (predHist s)).
    + split; [intros _; by apply Hiff | done].
    + split; [done | intros He%Hiff; done].
  - destruct (forallb queue_empty (predHist s)).
    + split; [done | intros Hne; destruct Hne; by apply Hiff].
    + split; [intros _ He%Hiff; done | done].
  - intros n d b rs i. rewrite for_each_assert_empty.
    assert (forallb queue_empty (predHist (init n d b rs i)) = true) as ->;
      [|done].
    apply forallb_queue_empty. simpl. induction n; by constructor.
Qed.

Lemma dump_from_shape (v : list History) : ∀ i,
  dump_from i v
  = mjoin (imap (λ k ph, PrintSize (i + Z.of_nat k) (length ph)
                         :: map print_entry ph ++ [PrintNewline])
                (List.filter (λ ph, negb (queue_empty ph)) v)).
Proof.
  induction v as [|ph v IH]; intros i; [done|].
  simpl. destruct (queue_empty ph) eqn:Hph; simpl; [apply IH|].
  rewrite Z.add_0_r. rewrite <- app_assoc. simpl. do 3 f_equal.
  rewrite IH. f_equal. apply imap_ext. intros k x _. simpl.
  do 2 f_equal. lia.
Qed.

(** X2.  [dump] goes through the queues in the order of the vector and
    skips the empty ones; for the others it prints the size line, one line
    per record from the front to the back, and an empty line.  The number
    in the size line counts the queues printed so far: the k-th queue that
    is not empty is printed as [predHist[k]], whatever its thread is.
    Nothing is printed exactly when every queue is empty. *)
Theorem dump_numbers_printed_queues s :
  dump s
  = mjoin (imap (λ k ph, PrintSize (Z.of_nat k) (length ph)
                         :: map print_entry ph ++ [PrintNewline])
                (List.filter (λ ph, negb (queue_empty ph)) (predHist s))) ∧
  (dump s = [] ↔ empty_queues s).
Proof.
  split; [apply dump_from_shape|].
  unfold dump, empty_queues. generalize 0%Z.
  induction (predHist s) as [|ph v IH]; intros i; simpl.
  - split; [constructor|done].
  - destruct ph; simpl.
    + rewrite IH, Forall_cons. split; [intros ?; by split | by intros [_ ?]].
    + split; [done|]. intros [Hne _]%Forall_cons. done.
Qed.

(** ** Commit and flush on an ordered queue *)

Lemma filter_all {A} (P : A → Prop) `{!∀ x, Decision (P x)} (l : list A) :
  Forall P l → filter P l = l.
Proof.
  induction 1 as [|x l Hx Hl IH]; [done|].
  by rewrite filter_cons_True, IH.
Qed.

Lemma filter_none {A} (P : A → Prop) `{!∀ x, Decision (P x)} (l : list A) :
  Forall (λ x, ¬ P x) l → filter P l = [].
Proof.
  induction 1 as [|x l Hx Hl IH]; [done|].
  by rewrite filter_cons_False, IH.
Qed.

(** In a decreasing queue everything behind a record is older than it. *)
Lemma decreasing_behind (front : PH.t) (rest : History) :
  decreasing (front :: rest) →
  Forall (λ r, PH.seqNum r < PH.seqNum front) rest.
Proof. by intros [? _]%StronglySorted_cons. Qed.

Lemma decreasing_before (keep : History) (back : PH.t) :
  decreasing (keep ++ [back]) →
  Forall (λ r, PH.seqNum back < PH.seqNum r) keep.
Proof.
  intros (Hall & _ & _)%StronglySorted_app.
  apply Forall_forall. intros r Hr.
  apply (Hall r back Hr). by left.
Qed.

Lemma flushed_is_filter squashed_sn (gone keep : History) :
  decreasing (gone ++ keep) →
  Forall (λ r, squashed_sn < PH.seqNum r) gone →
  (∀ r, head keep = Some r → PH.seqNum r ≤ squashed_sn) →
  gone = filter (λ r, squashed_sn < PH.seqNum r) (gone ++ keep) ∧
  keep = filter (λ r, PH.seqNum r ≤ squashed_sn) (gone ++ keep).
Proof.
  intros Hdec Hgone Hhead.
  assert (Forall (λ r, PH.seqNum r ≤ squashed_sn) keep) as Hkeep.
  { destruct keep as [|front rest]; [constructor|].
    specialize (Hhead front eq_refl).
    apply StronglySorted_app in Hdec as (_ & _ & Hd).
    apply decreasing_behind in Hd.
    constructor; [done|]. eapply Forall_impl; [exact Hd|].
    intros r Hr. simpl in Hr. lia. }
  rewrite !filter_app. split.
  - rewrite (filter_all _ gone Hgone), filter_none, app_nil_r; [done|].
    eapply Forall_impl; [exact Hkeep|]. intros r Hr. simpl in *. lia.
  - rewrite (filter_all _ keep Hkeep), filter_none; [done|].
    eapply Forall_impl; [exact Hgone|]. intros r Hr. simpl in *. lia.
Qed.

Lemma committed_is_filter done_sn (keep gone : History) :
  decreasing (keep ++ gone) →
  Forall (λ r, PH.seqNum r ≤ done_sn) gone →
  (∀ r, last keep = Some r → done_sn < PH.seqNum r) →
  gone = filter (λ r, PH.seqNum r ≤ done_sn) (keep ++ gone) ∧
  keep = filter (λ r, done_sn < PH.seqNum r) (keep ++ gone).
Proof.
  intros Hdec Hgone Hlast.
  assert (Forall (λ r, done_sn < PH.seqNum r) keep) as Hkeep.
  { destruct keep as [|back keep' _] using rev_ind; [constructor|].
    rewrite last_snoc in Hlast. specialize (Hlast back eq_refl).
    apply StronglySorted_app in Hdec as (_ & Hd & _).
    apply decreasing_before in Hd.
    apply Forall_app. split; [|by repeat constructor].
    eapply Forall_impl; [exact Hd|]. intros r Hr. simpl in Hr. lia. }
  rewrite !filter_app. split.
  - rewrite (filter_all _ gone Hgone), filter_none; [done|].
    eapply Forall_impl; [exact Hkeep|]. intros r Hr. simpl in *. lia.
  - rewrite (filter_all _ keep Hkeep), filter_none, app_nil_r; [done|].
    eapply Forall_impl; [exact Hgone|]. intros r Hr. simpl in *. lia.
Qed.

(** X3.  On a queue that is strictly decreasing, [update(done_sn, tid)]
    returns, retires exactly the records with [seqNum ≤ done_sn] and
    keeps exactly the others, in their order; its calls are the commit
    calls of the retired records from the oldest to the youngest; the
    counters, the BTB and the other queues stay as they are. *)
Theorem update_retires_older done_sn tid s L :
  hist_at (predHist s) tid = Some L → decreasing L →
  ∃ s',
    update done_sn tid s = Ok (tt, s') ∧
    predHist s'
      = <[Z.to_nat tid := filter (λ r, done_sn < PH.seqNum r) L]>
          (predHist s) ∧
    trace s' = trace s ++
      flat_map (commit_events (present (iPred s)) (present (ras s)) tid)
               (reverse (filter (λ r, PH.seqNum r ≤ done_sn) L)) ∧
    stats s' = stats s ∧ btb s' = btb s.
Proof.
  intros HL Hdec.
  destruct (update_spec done_sn tid s L HL)
    as (s' & keep & gone & Hrun & -> & Hph & Hgone & Hkeep & Htr & Hst & Hbtb
        & _).
  destruct (committed_is_filter done_sn keep gone Hdec Hgone Hkeep)
    as [Hg Hk].
  exists s'. unfold History in *. rewrite <- Hg, <- Hk. done.
Qed.

Lemma squash_loop_no_tokens squashed_sn tid fuel : ∀ s L,
  hist_at (predHist s) tid = Some L →
  Forall (λ r, PH.rasHistory r = None) L → (length L ≤ fuel)%nat →
  squash_loop fuel squashed_sn tid s ≠ Abort AssertionFailed.
Proof.
  induction fuel as [|fuel IH]; intros s L HL Hno Hlen Hrun.
  - destruct L; [|simpl in Hlen; lia].
    simpl in Hrun. unfold mbind, M_bind, get_hist in Hrun.
    by rewrite HL in Hrun.
  - simpl in Hrun. unfold mbind at 1, M_bind at 1, get_hist at 1 in Hrun.
    rewrite HL in Hrun.
    destruct L as [|front L']; [done|].
    apply Forall_cons in Hno as [Hfront Hno]. simpl in Hlen.
    destruct (squashed_sn <? PH.seqNum front); [|done].
    rewrite Hfront in Hrun. simpl in Hrun.
    destruct (iPred s) eqn:Eip.
    all: msimpl.
    all: repeat step.
    all: match type of Hrun with
         | squash_loop _ _ _ ?s1 = _ =>
             apply (IH s1 L'); [by eapply hist_at_insert_eq | done | lia | done]
         end.
Qed.

Lemma squash_returns squashed_sn tid s L :
  hist_at (predHist s) tid = Some L →
  is_Some (ras s) ∨ Forall (λ r, PH.rasHistory r = None) L →
  ∃ s', squash squashed_sn tid s = Ok (tt, s').
Proof.
  intros HL Hcond.
  destruct (squash_spec squashed_sn tid s L HL)
    as [[Hnone Hab]|(s' & gone & keep & Hrun & _)]; [|by exists s'].
  exfalso. destruct Hcond as [[rs Hrs]|Hno]; [congruence|].
  revert Hab. unfold squash, mbind, M_bind, get_hist. rewrite HL.
  by apply (squash_loop_no_tokens _ _ _ _ L).
Qed.

(** X4.  On a queue that is strictly decreasing, the flush
    [squash(squashed_sn, tid)] returns when there is a RAS or no record
    holds a RAS token; it removes exactly the records with
    [seqNum > squashed_sn] and keeps exactly the others, in their order
    (nothing at all when no record is younger, the whole queue when all
    are); its calls are the squash calls of the removed records from the
    youngest to the oldest; the counters, the BTB and the other queues
    stay as they are. *)
Theorem squash_removes_younger squashed_sn tid s L :
  hist_at (predHist s) tid = Some L → decreasing L →
  is_Some (ras s) ∨ Forall (λ r, PH.rasHistory r = None) L →
  ∃ s',
    squash squashed_sn tid s = Ok (tt, s') ∧
    predHist s'
      = <[Z.to_nat tid := filter (λ r, PH.seqNum r ≤ squashed_sn) L]>
          (predHist s) ∧
    trace s' = trace s ++
      flat_map (squash_events (present (iPred s)) tid)
               (filter (λ r, squashed_sn < PH.seqNum r) L) ∧
    stats s' = stats s ∧ btb s' = btb s.
Proof.
  intros HL Hdec Hcond.
  destruct (squash_returns squashed_sn tid s L HL Hcond) as [s' Hrun].
  destruct (squash_ok_inv _ _ _ _ Hrun)
    as (L0 & gone & keep & HL0 & -> & Hph & _ & Hgone & Hkeep & Htr & Hst
        & Hbtb & _).
  rewrite HL in HL0. injection HL0 as ->.
  destruct (flushed_is_filter squashed_sn gone keep Hdec Hgone Hkeep)
    as [Hg Hk].
  exists s'. unfold History in *. rewrite <- Hg, <- Hk. done.
Qed.

Lemma squash_loop_token_aborts squashed_sn tid r rest (gone : History) :
  ∀ fuel s,
  hist_at (predHist s) tid = Some (gone ++ r :: rest) →
  (length (gone ++ r :: rest) ≤ fuel)%nat →
  ras s = None →
  Forall (λ x, squashed_sn < PH.seqNum x) gone →
  squashed_sn < PH.seqNum r → present (PH.rasHistory r) = true →
  squash_loop fuel squashed_sn tid s = Abort AssertionFailed.
Proof.
  induction gone as [|front gone IH]; intros fuel s HL Hlen Hras Hgone Hr Htok.
  - destruct fuel as [|fuel]; [simpl in Hlen; lia|].
    simpl. unfold mbind at 1, M_bind at 1, get_hist at 1. rewrite HL.
    simpl. apply N.ltb_lt in Hr. rewrite Hr, Htok.
    msimpl. by rewrite Hras.
  - destruct fuel as [|fuel]; [simpl in Hlen; lia|].
    apply Forall_cons in Hgone as [Hfront Hgone].
    simpl. unfold mbind at 1, M_bind at 1, get_hist at 1. rewrite HL.
    simpl. apply N.ltb_lt in Hfront. rewrite Hfront.
    destruct (present (PH.rasHistory front)) eqn:Hft.
    + msimpl. by rewrite Hras.
    + destruct (iPred s) eqn:Eip.
      all: msimpl; rewrite ?Eip, ?HL; simpl.
      all: repeat first [rewrite HL; simpl | gstep].
      all: apply IH; simpl; try done;
           [by eapply hist_at_insert_eq | simpl in Hlen; lia].
Qed.

(** X5.  Without a RAS, the flush stops on [assert(ras)] as soon as a
    record it has to remove holds a RAS token: when the records in front
    of such a record are all younger than [squashed_sn], the call ends in
    the failed assertion. *)
Theorem squash_asserts_ras squashed_sn tid s gone r rest :
  hist_at (predHist s) tid = Some (gone ++ r :: rest) →
  ras s = None →
  Forall (λ x, squashed_sn < PH.seqNum x) gone →
  squashed_sn < PH.seqNum r → present (PH.rasHistory r) = true →
  squash squashed_sn tid s = Abort AssertionFailed.
Proof.
  intros HL Hras Hgone Hr Htok.
  unfold squash, mbind, M_bind, get_hist. rewrite HL.
  by apply (squash_loop_token_aborts _ _ r rest gone).
Qed.

(** ** What [predict] always does *)

Lemma predict_record inst seqNum pc tid s taken pc' s' :
  predict inst seqNum pc tid s = Ok ((taken, pc'), s') →
  ∃ L r,
    hist_at (predHist s) tid = Some L ∧
    predHist s' = <[Z.to_nat tid := r :: L]> (predHist s) ∧
    PH.seqNum r = seqNum ∧
    PH.tid r = tid ∧ PH.pushedRAS r = false ∧
    (ras s = None → PH.rasHistory r = None) ∧
    (iPred s = None →
     PH.indirectHistory r = None ∧ PH.wasIndirect r = false) ∧
    present (ras s') = present (ras s) ∧
    present (iPred s') = present (iPred s).
Proof.
  unfold predict. msimpl. intros Hp.
  destruct (ras s) eqn:Eras, (iPred s) eqn:Eip; simpl in *.
  all: repeat step.
  all: eexists _, _.
  all: split_and!; try reflexivity; try done.
Qed.

(** X6.  The calls [predict] makes to the direction predictor.  An
    unconditional branch makes one call of [uncondBranch] and none of
    [lookup], and leaves [condPredicted] as it is; any other branch makes
    one call of [lookup] and none of [uncondBranch], and adds one to
    [condPredicted].  [btbUpdate] is called once exactly when the BTB is
    consulted, has no target, and the instruction is not a call; it is
    then the last call before the update of the indirect predictor, with
    the address of the branch and the token of the first call.  [update]
    and [squash] of the direction predictor are never called.  The record
    keeps the token the first call handed back, also when [btbUpdate] is
    called with it later, and it starts with [mispredict] false. *)
Theorem predict_direction_step inst seqNum pc tid s taken pc' s' :
  predict inst seqNum pc tid s = Ok ((taken, pc'), s') →
  ∃ L r delta,
    hist_at (predHist s') tid = Some (r :: L) ∧
    trace s' = trace s ++ delta ∧
    occurrences is_CallUncondBranch delta
      = (if isUncondCtrl inst then 1 else 0)%nat ∧
    occurrences is_CallLookup delta
      = (if isUncondCtrl inst then 0 else 1)%nat ∧
    St.condPredicted (stats s')
      = St.condPredicted (stats s) + (if isUncondCtrl inst then 0 else 1) ∧
    PH.bpHistory r
      = (if isUncondCtrl inst
         then (BP_uncondBranch tid (instAddr pc) None (dir s)).1
         else (BP_lookup tid (instAddr pc) None (dir s)).1.2) ∧
    PH.seqNum r = seqNum ∧ PH.pc r = instAddr pc ∧ PH.inst r = inst ∧
    PH.tid r = tid ∧ PH.mispredict r = false ∧
    occurrences is_CallBtbUpdate delta
      = (if consults_btb inst pc tid s && negb (btb_hits inst pc tid s)
            && negb (isCall inst) then 1 else 0)%nat ∧
    (consults_btb inst pc tid s && negb (btb_hits inst pc tid s)
     && negb (isCall inst) = true →
     last (List.filter (λ e, negb (is_IPredUpdate e)) delta)
       = Some (CallBtbUpdate tid (instAddr pc) (PH.bpHistory r))) ∧
    occurrences is_CallUpdate delta = 0%nat ∧
    occurrences is_CallSquash delta = 0%nat.
Proof.
  unfold consults_btb, btb_hits, says_taken, predict. msimpl. intros Hp.
  destruct (ras s) eqn:Eras, (iPred s) eqn:Eip; simpl in *.
  all: repeat step.
  all: rewrite <- ?app_assoc; simpl.
  all: tidy.
  all: match goal with
       | HL : hist_at _ _ = Some ?h |- _ =>
           eexists h, _, _; rewrite (hist_at_insert_eq _ _ _ _ HL)
       end.
  all: split_and!; try reflexivity.
  all: use_path; try reflexivity; try (intros; discriminate); lia.
Qed.

(** X7.  [predict] tells the indirect predictor about every branch: when
    there is an indirect predictor its [update] is called once, as the
    last call, with [squashed] false, the direction returned and the new
    [pc]; when there is none it is not called. *)
Theorem predict_informs_iPred inst seqNum pc tid s taken pc' s' :
  predict inst seqNum pc tid s = Ok ((taken, pc'), s') →
  ∃ delta,
    trace s' = trace s ++ delta ∧
    occurrences is_IPredUpdate delta
      = (if present (iPred s) then 1 else 0)%nat ∧
    (present (iPred s) = true →
     ∃ h, last delta = Some (IPredUpdate tid seqNum (instAddr pc) false taken
                               pc' (getBranchType inst) h)).
Proof.
  unfold predict. msimpl. intros Hp.
  destruct (ras s) eqn:Eras, (iPred s) eqn:Eip; simpl in *.
  all: repeat step.
  all: rewrite <- ?app_assoc; simpl.
  all: eexists; split; [reflexivity|].
  all: split; [reflexivity|].
  all: intros; try discriminate; eexists; reflexivity.
Qed.

(** X8.  [predict] uses the RAS only for a branch predicted taken: it
    pops once, and adds one to [RASUsed], exactly when such a branch is a
    return, and it pushes once exactly when such a branch is a call; a
    branch predicted not taken causes no RAS call at all. *)
Theorem predict_ras_use inst seqNum pc tid s taken pc' s' :
  predict inst seqNum pc tid s = Ok ((taken, pc'), s') →
  ∃ delta,
    trace s' = trace s ++ delta ∧
    occurrences is_RasPop delta
      = (if says_taken inst pc tid s && isReturn inst then 1 else 0)%nat ∧
    occurrences is_RasPush delta
      = (if says_taken inst pc tid s && isCall inst then 1 else 0)%nat ∧
    St.RASUsed (stats s')
      = St.RASUsed (stats s)
        + (if says_taken inst pc tid s && isReturn inst then 1 else 0) ∧
    (says_taken inst pc tid s = false →
     occurrences is_RasSquash delta = 0%nat ∧ ras s' = ras s).
Proof.
  unfold says_taken, predict. msimpl. intros Hp.
  destruct (ras s) eqn:Eras, (iPred s) eqn:Eip; simpl in *.
  all: repeat step.
  all: rewrite <- ?app_assoc; simpl.
  all: tidy.
  all: eexists; split; [reflexivity|].
  all: use_path.
  all: split_and!; try reflexivity; try lia.
  all: intros; try discriminate; split; reflexivity.
Qed.

(** ** The paths of [predict] *)

(** X9.  A branch predicted not taken: [predict] returns false, the new
    [pc] and the record's target are the sequential successor of the
    branch, only [lookups] and [condPredicted] are counted, and neither
    the BTB nor the RAS nor the lookup of the indirect predictor is
    called; the BTB and the RAS stay as they are. *)
Theorem predict_not_taken inst seqNum pc tid s L :
  says_taken inst pc tid s = false →
  hist_at (predHist s) tid = Some L →
  ∃ s' rec delta,
    predict inst seqNum pc tid s = Ok ((false, advancePC inst pc), s') ∧
    hist_at (predHist s') tid = Some (rec :: L) ∧
    trace s' = trace s ++ delta ∧
    PH.predTaken rec = false ∧
    PH.target rec = instAddr (advancePC inst pc) ∧
    PH.rasHistory rec = None ∧ PH.wasIndirect rec = false ∧
    stats s' = St.incr_condPredicted (St.incr_lookups (stats s)) ∧
    occurrences is_BtbLookup delta = 0%nat ∧
    occurrences is_IPredLookup delta = 0%nat ∧
    occurrences is_CallBtbUpdate delta = 0%nat ∧
    btb s' = btb s ∧ ras s' = ras s.
Proof.
  unfold says_taken. intros Htaken HL.
  apply orb_false_iff in Htaken as [Hu Hl].
  unfold predict. msimpl. rewrite ?Hu. simpl.
  destruct (BP_lookup tid (instAddr pc) None (dir s)) as [[b h] d] eqn:E.
  simpl in Hl. subst b. simpl.
  destruct (iPred s) eqn:Eip; simpl.
  all: repeat first [progress simplify_eq/= | gstep].
  all: rewrite <- ?app_assoc; simpl.
  all: eexists _, _, _; split; [reflexivity|]; simpl.
  all: rewrite (hist_at_insert_eq _ _ _ _ HL).
  all: split_and!; reflexivity.
Qed.

(** X10.  A branch that is not a return, is predicted taken and hits in
    the BTB (it is direct, or there is no indirect predictor): [predict]
    returns true with the target of the BTB, adds one to [BTBLookups] and
    one to [BTBHits], does not call [btbUpdate], does not squash the RAS
    and does not look up the indirect predictor. *)
Theorem predict_btb_hit inst seqNum pc tid s L t bs :
  says_taken inst pc tid s = true → isReturn inst = false →
  isDirectCtrl inst = true ∨ iPred s = None →
  BTB_lookup tid (instAddr pc) (getBranchType inst) (btb s) = (Some t, bs) →
  hist_at (predHist s) tid = Some L →
  (isCall inst = true → is_Some (ras s)) →
  ∃ s' rec delta,
    predict inst seqNum pc tid s = Ok ((true, t), s') ∧
    hist_at (predHist s') tid = Some (rec :: L) ∧
    trace s' = trace s ++ delta ∧
    PH.predTaken rec = true ∧ PH.target rec = instAddr t ∧
    PH.wasIndirect rec = false ∧
    St.BTBLookups (stats s') = St.BTBLookups (stats s) + 1 ∧
    St.BTBHits (stats s') = St.BTBHits (stats s) + 1 ∧
    occurrences is_BtbLookup delta = 1%nat ∧
    occurrences is_CallBtbUpdate delta = 0%nat ∧
    occurrences is_RasSquash delta = 0%nat ∧
    occurrences is_IPredLookup delta = 0%nat ∧
    btb s' = bs.
Proof.
  unfold says_taken. intros Htaken Hret Hbtb Hhit HL Hras.
  unfold predict. msimpl. rewrite ?Hret.
  destruct (isCall inst) eqn:Hcall; simpl in *.
  - destruct Hras as [rs Hras]; [done|]. rewrite ?Hras.
    destruct Hbtb as [Hd|Hip]; rewrite ?Hd, ?Hip; simpl.
    all: repeat first [progress simplify_eq/= | gstep].
    all: rewrite <- ?app_assoc; simpl.
    all: eexists _, _, _; split; [reflexivity|]; simpl.
    all: rewrite (hist_at_insert_eq _ _ _ _ HL).
    all: split_and!; reflexivity.
  - destruct Hbtb as [Hd|Hip]; rewrite ?Hd, ?Hip; simpl.
    all: repeat first [progress simplify_eq/= | gstep].
    all: rewrite <- ?app_assoc; simpl.
    all: eexists _, _, _; split; [reflexivity|]; simpl.
    all: rewrite (hist_at_insert_eq _ _ _ _ HL).
    all: split_and!; reflexivity.
Qed.

(** X11.  A branch that is neither a return nor direct, predicted taken,
    with an indirect predictor that has a target for it: [predict] returns
    true with that target, marks the record [wasIndirect], keeps the token
    of the lookup until the final [update] of the indirect predictor,
    adds one to [indirectLookups] and one to [indirectHits], and does not
    consult the BTB. *)
Theorem predict_indirect_hit inst seqNum pc tid s L ip t h ip' :
  says_taken inst pc tid s = true → isReturn inst = false →
  isDirectCtrl inst = false → iPred s = Some ip →
  IP_lookup tid seqNum (instAddr pc) None ip = (Some t, h, ip') →
  hist_at (predHist s) tid = Some L →
  (isCall inst = true → is_Some (ras s)) →
  ∃ s' rec delta,
    predict inst seqNum pc tid s = Ok ((true, t), s') ∧
    hist_at (predHist s') tid = Some (rec :: L) ∧
    trace s' = trace s ++ delta ∧
    PH.predTaken rec = true ∧ PH.target rec = instAddr t ∧
    PH.wasIndirect rec = true ∧
    St.indirectLookups (stats s') = St.indirectLookups (stats s) + 1 ∧
    St.indirectHits (stats s') = St.indirectHits (stats s) + 1 ∧
    St.indirectMisses (stats s') = St.indirectMisses (stats s) ∧
    St.BTBLookups (stats s') = St.BTBLookups (stats s) ∧
    occurrences is_IPredLookup delta = 1%nat ∧
    occurrences is_BtbLookup delta = 0%nat ∧
    last delta = Some (IPredUpdate tid seqNum (instAddr pc) false true t
                         (getBranchType inst) h) ∧
    btb s' = btb s.
Proof.
  unfold says_taken. intros Htaken Hret Hd Hip Hhit HL Hras.
  unfold predict. msimpl. rewrite ?Hret, ?Hd, ?Hip.
  destruct (isCall inst) eqn:Hcall; simpl in *.
  - destruct Hras as [rs Hras]; [done|]. rewrite ?Hras. simpl.
    repeat first [progress simplify_eq/= | gstep].
    all: rewrite <- ?app_assoc; simpl.
    all: eexists _, _, _; split; [reflexivity|]; simpl.
    all: rewrite (hist_at_insert_eq _ _ _ _ HL).
    all: split_and!; reflexivity.
  - repeat first [progress simplify_eq/= | gstep].
    all: rewrite <- ?app_assoc; simpl.
    all: eexists _, _, _; split; [reflexivity|]; simpl.
    all: rewrite (hist_at_insert_eq _ _ _ _ HL).
    all: split_and!; reflexivity.
Qed.

(** X12.  The same branch when the indirect predictor has no target:
    [predict] returns false with the sequential successor as target, the
    record is marked [wasIndirect] with [predTaken] false, one is added to
    [indirectLookups] and to [indirectMisses]; [btbUpdate] is not called
    and the BTB is not consulted; for a conditional call the RAS is
    squashed once, with the token of the push. *)
Theorem predict_indirect_miss inst seqNum pc tid s L ip h ip' :
  says_taken inst pc tid s = true → isReturn inst = false →
  isDirectCtrl inst = false → iPred s = Some ip →
  IP_lookup tid seqNum (instAddr pc) None ip = (None, h, ip') →
  hist_at (predHist s) tid = Some L →
  (isCall inst = true → is_Some (ras s)) →
  ∃ s' rec delta,
    predict inst seqNum pc tid s = Ok ((false, advancePC inst pc), s') ∧
    hist_at (predHist s') tid = Some (rec :: L) ∧
    trace s' = trace s ++ delta ∧
    PH.predTaken rec = false ∧
    PH.target rec = instAddr (advancePC inst pc) ∧
    PH.wasIndirect rec = true ∧
    St.indirectLookups (stats s') = St.indirectLookups (stats s) + 1 ∧
    St.indirectMisses (stats s') = St.indirectMisses (stats s) + 1 ∧
    St.indirectHits (stats s') = St.indirectHits (stats s) ∧
    St.BTBLookups (stats s') = St.BTBLookups (stats s) ∧
    occurrences is_CallBtbUpdate delta = 0%nat ∧
    occurrences is_BtbLookup delta = 0%nat ∧
    occurrences is_RasSquash delta
      = (if isCall inst && negb (isUncondCtrl inst) then 1 else 0)%nat ∧
    (isCall inst = true → isUncondCtrl inst = false →
     ∃ rs hp rs',
       ras s = Some rs ∧
       RAS_push tid (buildRetPC inst pc pc) None rs = (hp, rs') ∧
       RasSquash tid hp ∈ delta ∧
       PH.rasHistory rec = (RAS_squash tid hp rs').1).
Proof.
  unfold says_taken. intros Htaken Hret Hd Hip Hmiss HL Hras.
  unfold predict. msimpl. rewrite ?Hret, ?Hd, ?Hip.
  destruct (isCall inst) eqn:Hcall; simpl in *.
  - destruct Hras as [rs Hras]; [done|]. rewrite ?Hras. simpl.
    repeat first [progress simplify_eq/= | gstep].
    all: rewrite <- ?app_assoc; simpl.
    all: eexists _, _, _; split; [reflexivity|]; simpl.
    all: rewrite (hist_at_insert_eq _ _ _ _ HL).
    all: split_and!; try reflexivity; try done.
    all: intros _ _; eexists _, _, _; split_and!;
         try reflexivity; try eassumption.
    all: try (repeat match goal with E : _ = _ |- _ => rewrite E end; done).
    all: rewrite !elem_of_cons; auto 10.
  - repeat first [progress simplify_eq/= | gstep].
    all: rewrite <- ?app_assoc; simpl.
    all: eexists _, _, _; split; [reflexivity|]; simpl.
    all: rewrite (hist_at_insert_eq _ _ _ _ HL).
    all: split_and!; try reflexivity; done.
Qed.

(** X13.  A return predicted taken when the RAS has an address: [predict]
    returns true with the popped address as target and consults neither
    the BTB nor the indirect predictor.  When the return is also a call
    the pop comes first and the push follows at once, with the token the
    pop handed back; the record keeps the token of the push, and the token
    of the pop otherwise. *)
Theorem predict_return_hit inst seqNum pc tid s L rs a h rs' :
  says_taken inst pc tid s = true → isReturn inst = true →
  hist_at (predHist s) tid = Some L →
  ras s = Some rs → RAS_pop tid None rs = (Some a, h, rs') →
  ∃ s' rec delta,
    predict inst seqNum pc tid s = Ok ((true, a), s') ∧
    hist_at (predHist s') tid = Some (rec :: L) ∧
    trace s' = trace s ++ delta ∧
    PH.predTaken rec = true ∧ PH.target rec = instAddr a ∧
    PH.wasIndirect rec = false ∧
    occurrences is_BtbLookup delta = 0%nat ∧
    occurrences is_IPredLookup delta = 0%nat ∧
    occurrences is_RasSquash delta = 0%nat ∧
    (if isCall inst then
       ∃ before after,
         delta = before ++ RasPop tid None
                 :: RasPush tid (buildRetPC inst pc pc) h :: after ∧
         PH.rasHistory rec
           = (RAS_push tid (buildRetPC inst pc pc) h rs').1
     else
       RasPop tid None ∈ delta ∧ PH.rasHistory rec = h ∧
       ras s' = Some rs').
Proof.
  unfold says_taken. intros Htaken Hret HL Hras Hpop.
  unfold predict. msimpl. rewrite ?Hras, ?Hret.
  repeat first [progress simplify_eq/= | gstep].
  all: rewrite <- ?app_assoc; simpl.
  all: eexists _, _, _; split; [reflexivity|]; simpl.
  all: rewrite (hist_at_insert_eq _ _ _ _ HL).
  all: split_and!; try reflexivity.
  all: use_path.
  all: first
    [ reflexivity
    | (rewrite !elem_of_cons; by auto 10)
    | (eexists [_; _], _; split; [simpl; reflexivity | reflexivity]) ].
Qed.

(** ** The repair of the boundary record *)

Lemma squash_mispredict_repair squashed_sn corr_target actually_taken tid
    s s1 front rest :
  squash squashed_sn tid (note_miss s) = Ok (tt, s1) →
  hist_at (predHist s1) tid = Some (front :: rest) →
  PH.seqNum front = squashed_sn →
  ∃ s2 front' delta,
    squash_mispredict squashed_sn corr_target actually_taken tid s
      = Ok (tt, s2) ∧
    predHist s2 = <[Z.to_nat tid := front' :: rest]> (predHist s1) ∧
    trace s2 = trace s1 ++ delta ∧
    PH.tid front' = PH.tid front ∧
    PH.pushedRAS front' = PH.pushedRAS front ∧
    (ras s1 = None → PH.rasHistory front' = PH.rasHistory front) ∧
    (iPred s1 = None →
     PH.indirectHistory front' = PH.indirectHistory front) ∧
    PH.bpHistory front'
      = (BP_update tid (PH.pc front) actually_taken (PH.bpHistory front)
           true (PH.inst front) (instAddr corr_target) (dir s1)).1 ∧
    head delta = Some (CallUpdate tid (PH.pc front) actually_taken
                         (PH.bpHistory front) true (PH.inst front)
                         (instAddr corr_target)) ∧
    occurrences is_squashed_update delta = 1%nat ∧
    occurrences is_authoritative delta = 0%nat ∧
    occurrences is_IPredUpdate delta
      = (if present (iPred s1) then 1 else 0)%nat ∧
    (present (iPred s1) = true →
     IPredUpdate tid squashed_sn (PH.pc front) true actually_taken
       corr_target (getBranchType (PH.inst front))
       (PH.indirectHistory front) ∈ delta) ∧
    occurrences is_RasPop delta
      = (if present (ras s1) && actually_taken
            && negb (present (PH.rasHistory front))
            && isReturn (PH.inst front) then 1 else 0)%nat ∧
    occurrences is_RasPush delta
      = (if present (ras s1) && actually_taken
            && negb (present (PH.rasHistory front))
            && isCall (PH.inst front) then 1 else 0)%nat ∧
    occurrences is_RasSquash delta
      = (if present (ras s1) && negb actually_taken
            && present (PH.rasHistory front) then 1 else 0)%nat ∧
    occurrences is_RasCommit delta = 0%nat ∧
    occurrences is_CallSquash delta = 0%nat ∧
    (present (ras s1) && actually_taken
     && negb (present (PH.rasHistory front))
     && isCall (PH.inst front) = true →
     ∃ h, RasPush tid (buildRetPC (PH.inst front) corr_target corr_target) h
          ∈ delta) ∧
    (present (ras s1) && negb actually_taken
     && present (PH.rasHistory front) = true →
     RasSquash tid (PH.rasHistory front) ∈ delta) ∧
    St.RASIncorrect (stats s2)
      = St.RASIncorrect (stats s1)
        + (if present (PH.rasHistory front) then 1 else 0).
Proof.
  intros Hsq Hkeep Heq.
  assert (∃ L, hist_at (predHist s) tid = Some L) as [L HL].
  { destruct (hist_at (predHist s) tid) eqn:E; [by eexists|].
    rewrite out_of_bounds_squash in Hsq; done. }
  pose proof (squash_mispredict_inv _ corr_target actually_taken
                _ _ _ _ Hsq Hkeep) as Hinv. simpl in Hinv.
  apply N.eqb_eq in Heq as Heq'. rewrite Heq' in Hinv.
  destruct Hinv as (s2 & _ & _ & Hrun & _).
  exists s2. rewrite Hrun.
  open_mispredict Hrun HL. rewrite Hsq in Hrun.
  unfold mbind at 1, M_bind at 1, get_hist at 1 in Hrun.
  rewrite Hkeep, Heq' in Hrun. simpl in Hrun.
  destruct (ras s1) eqn:Eras, (iPred s1) eqn:Eip.
  all: msimpl.
  all: repeat step.
  all: rewrite <- ?app_assoc; simpl.
  all: tidy.
  all: eexists _, _.
  all: split_and!; try reflexivity.
  all: use_path; try reflexivity.
  all: try (intros; discriminate).
  all: try (intros _; rewrite !elem_of_cons; by auto 10).
  all: try (intros _; eexists; rewrite !elem_of_cons; by auto 10).
  all: lia.
Qed.

Lemma update_all_retired done_sn tid s L :
  hist_at (predHist s) tid = Some L →
  Forall (λ r, PH.seqNum r ≤ done_sn) L →
  ∃ s',
    update done_sn tid s = Ok (tt, s') ∧
    predHist s' = <[Z.to_nat tid := []]> (predHist s) ∧
    trace s' = trace s ++
      flat_map (commit_events (present (iPred s)) (present (ras s)) tid)
               (reverse L) ∧
    stats s' = stats s ∧ btb s' = btb s ∧
    present (ras s') = present (ras s) ∧
    present (iPred s') = present (iPred s).
Proof.
  intros HL Hall.
  destruct (update_spec done_sn tid s L HL)
    as (s' & keep & gone & Hrun & -> & Hph & _ & Hlast & Htr & Hrest).
  assert (keep = []) as ->.
  { destruct (last keep) as [r|] eqn:Hl; [|by apply last_None in Hl].
    specialize (Hlast r eq_refl).
    apply last_Some_elem_of in Hl.
    rewrite Forall_forall in Hall.
    specialize (Hall r). simpl in Hall.
    assert (PH.seqNum r ≤ done_sn); [|lia].
    apply Hall, elem_of_app. by left. }
  exists s'. done.
Qed.

(** X14.  On the boundary record, the misprediction squash first calls the
    direction predictor's [update] with [squashed] true, the resolved
    direction, the record's token and the address of the corrected target;
    that is its only update of the direction predictor, and the record
    keeps the token handed back.  The indirect predictor's [update] is
    called once with [squashed] true when there is one.  [RASIncorrect]
    grows by one exactly when the record held a RAS token.  The record
    ends up with the resolved direction, the corrected target and
    [mispredict] true. *)
Theorem mispredict_squash_corrects_predictors squashed_sn corr_target
    actually_taken tid s s1 front rest :
  squash squashed_sn tid (note_miss s) = Ok (tt, s1) →
  hist_at (predHist s1) tid = Some (front :: rest) →
  PH.seqNum front = squashed_sn →
  ∃ s2 front' delta,
    squash_mispredict squashed_sn corr_target actually_taken tid s
      = Ok (tt, s2) ∧
    hist_at (predHist s2) tid = Some (front' :: rest) ∧
    trace s2 = trace s1 ++ delta ∧
    head delta = Some (CallUpdate tid (PH.pc front) actually_taken
                         (PH.bpHistory front) true (PH.inst front)
                         (instAddr corr_target)) ∧
    occurrences is_squashed_update delta = 1%nat ∧
    occurrences is_authoritative delta = 0%nat ∧
    occurrences is_IPredUpdate delta
      = (if present (iPred s) then 1 else 0)%nat ∧
    (present (iPred s) = true →
     IPredUpdate tid squashed_sn (PH.pc front) true actually_taken
       corr_target (getBranchType (PH.inst front))
       (PH.indirectHistory front) ∈ delta) ∧
    St.RASIncorrect (stats s2)
      = St.RASIncorrect (stats s)
        + (if present (PH.rasHistory front) then 1 else 0) ∧
    PH.bpHistory front'
      = (BP_update tid (PH.pc front) actually_taken (PH.bpHistory front)
           true (PH.inst front) (instAddr corr_target) (dir s1)).1 ∧
    PH.predTaken front' = actually_taken ∧
    PH.target front' = instAddr corr_target ∧
    PH.mispredict front' = true.
Proof.
  intros Hsq Hkeep Heq.
  destruct (squash_ok_inv _ _ _ _ Hsq)
    as (_ & _ & _ & _ & _ & _ & _ & _ & _ & _ & Hst & _ & _ & Hip).
  simpl in Hst, Hip.
  destruct (squash_mispredict_repair _ corr_target actually_taken
              _ _ _ _ _ Hsq Hkeep Heq)
    as (s2 & front' & delta & Hrun & Hph & Htr & _ & _ & _ & _ & Hbp & Hhd
        & Ho1 & Ho2 & Ho3 & Hin & _ & _ & _ & _ & _ & _ & _ & Hri).
  pose proof (squash_mispredict_inv _ corr_target actually_taken
                _ _ _ _ Hsq Hkeep) as Hinv. simpl in Hinv.
  apply N.eqb_eq in Heq as Heq'. rewrite Heq' in Hinv.
  destruct Hinv as (s2' & front'' & delta' & Hrun' & Hph' & _ & _ & Hpt & Htg
                    & Hmis & _).
  rewrite Hrun in Hrun'. injection Hrun' as <-.
  assert (front'' = front') as ->.
  { rewrite Hph in Hph'.
    apply (f_equal (λ v, hist_at v tid)) in Hph'.
    rewrite !(hist_at_insert_eq _ _ _ _ Hkeep) in Hph'. congruence. }
  exists s2, front', delta. rewrite Hri, Hst, <- Hip. simpl.
  split_and!; try done.
  rewrite Hph. by eapply hist_at_insert_eq.
Qed.

(** X15.  The repair of the RAS on the boundary record.  With a RAS: a
    branch resolved taken whose record holds no RAS token gets one pop
    when it is a return and one push, of the return address built from the
    corrected target, when it is a call; a branch resolved not taken whose
    record holds a RAS token gets one squash with that token; in every
    other case, and always without a RAS, the RAS is not called.  The
    squash never commits to the RAS. *)
Theorem mispredict_squash_repairs_ras squashed_sn corr_target actually_taken
    tid s s1 front rest :
  squash squashed_sn tid (note_miss s) = Ok (tt, s1) →
  hist_at (predHist s1) tid = Some (front :: rest) →
  PH.seqNum front = squashed_sn →
  ∃ s2 delta,
    squash_mispredict squashed_sn corr_target actually_taken tid s
      = Ok (tt, s2) ∧
    trace s2 = trace s1 ++ delta ∧
    occurrences is_RasPop delta
      = (if present (ras s) && actually_taken
            && negb (present (PH.rasHistory front))
            && isReturn (PH.inst front) then 1 else 0)%nat ∧
    occurrences is_RasPush delta
      = (if present (ras s) && actually_taken
            && negb (present (PH.rasHistory front))
            && isCall (PH.inst front) then 1 else 0)%nat ∧
    occurrences is_RasSquash delta
      = (if present (ras s) && negb actually_taken
            && present (PH.rasHistory front) then 1 else 0)%nat ∧
    occurrences is_RasCommit delta = 0%nat ∧
    (present (ras s) && actually_taken
     && negb (present (PH.rasHistory front))
     && isCall (PH.inst front) = true →
     ∃ h, RasPush tid (buildRetPC (PH.inst front) corr_target corr_target) h
          ∈ delta) ∧
    (present (ras s) && negb actually_taken
     && present (PH.rasHistory front) = true →
     RasSquash tid (PH.rasHistory front) ∈ delta).
Proof.
  intros Hsq Hkeep Heq.
  destruct (squash_ok_inv _ _ _ _ Hsq)
    as (_ & _ & _ & _ & _ & _ & _ & _ & _ & _ & _ & _ & Hras & _).
  simpl in Hras.
  destruct (squash_mispredict_repair _ corr_target actually_taken
              _ _ _ _ _ Hsq Hkeep Heq)
    as (s2 & front' & delta & Hrun & _ & Htr & _ & _ & _ & _ & _ & _
        & _ & _ & _ & _ & Hpop & Hpush & Hsqu & Hcom & _ & Hin1 & Hin2 & _).
  exists s2, delta. rewrite <- Hras. done.
Qed.

(** X16.  A misprediction squash followed by the commit of the same
    sequence number, on a queue that is strictly decreasing: the commit
    returns and empties the queue, and its last update of the direction
    predictor is the authoritative one of the boundary record, with the
    resolved direction and the corrected target and the token the squash
    left in the record; with a RAS, the boundary record is committed to it
    as mispredicted. *)
Theorem mispredict_then_update squashed_sn corr_target actually_taken tid
    s s1 front rest :
  squash squashed_sn tid (note_miss s) = Ok (tt, s1) →
  hist_at (predHist s1) tid = Some (front :: rest) →
  PH.seqNum front = squashed_sn →
  decreasing (front :: rest) →
  ∃ s2 s3 front' delta,
    squash_mispredict squashed_sn corr_target actually_taken tid s
      = Ok (tt, s2) ∧
    hist_at (predHist s2) tid = Some (front' :: rest) ∧
    update squashed_sn tid s2 = Ok (tt, s3) ∧
    hist_at (predHist s3) tid = Some [] ∧
    trace s3 = trace s2 ++ delta ∧
    last (List.filter is_CallUpdate delta)
      = Some (CallUpdate tid (PH.pc front) actually_taken
                (PH.bpHistory front') false (PH.inst front)
                (instAddr corr_target)) ∧
    occurrences is_squashed_update delta = 0%nat ∧
    (present (ras s) = true →
     RasCommit tid true (getBranchType (PH.inst front))
       (PH.rasHistory front') ∈ delta).
Proof.
  intros Hsq Hkeep Heq Hdec.
  destruct (squash_ok_inv _ _ _ _ Hsq)
    as (_ & _ & _ & _ & _ & _ & _ & _ & _ & _ & _ & _ & Hras & _).
  simpl in Hras.
  pose proof (squash_mispredict_inv _ corr_target actually_taken
                _ _ _ _ Hsq Hkeep) as Hinv. simpl in Hinv.
  apply N.eqb_eq in Heq as Heq'. rewrite Heq' in Hinv.
  destruct Hinv as (s2 & front' & d0 & Hrun & Hph & _ & Hsn & Hpt & Htg
                    & Hmis & _ & Hpc & Hinst & _ & Hras2 & _).
  assert (hist_at (predHist s2) tid = Some (front' :: rest)) as HL2.
  { rewrite Hph. by eapply hist_at_insert_eq. }
  assert (Forall (λ r, PH.seqNum r ≤ squashed_sn) (front' :: rest)) as Hall.
  { constructor; [rewrite Hsn; lia|].
    apply decreasing_behind in Hdec.
    eapply Forall_impl; [exact Hdec|]. intros r Hr. simpl in Hr. lia. }
  destruct (update_all_retired squashed_sn tid s2 _ HL2 Hall)
    as (s3 & Hup & Hph3 & Htr3 & _).
  exists s2, s3, front',
    (flat_map (commit_events (present (iPred s2)) (present (ras s2)) tid)
              (reverse (front' :: rest))).
  split_and!; try done.
  - rewrite Hph3. by eapply hist_at_insert_eq.
  - rewrite commit_events_updates, reverse_cons, map_app. cbn [map].
    rewrite last_snoc.
    by rewrite Hpc, Hpt, Hinst, Htg.
  - apply occurrences_commit_events; done.
  - intros Hr. rewrite Hras2, Hras, Hr.
    rewrite reverse_cons, flat_map_app. apply elem_of_app. right.
    simpl. rewrite app_nil_r, Hmis, Hinst.
    destruct (present (iPred s2)); simpl; rewrite !elem_of_cons; by auto.
Qed.

(** ** What holds of every record, and of every queue but one *)

Lemma present_None {A} (o : option A) : present o = false ↔ o = None.
Proof. by destruct o. Qed.

Lemma present_same_None {A B} (o : option A) (o' : option B) :
  present o' = present o → o' = None → o = None.
Proof. by destruct o, o'. Qed.

Lemma records_ok_insert s s' tid L L' :
  records_ok s →
  hist_at (predHist s) tid = Some L →
  predHist s' = <[Z.to_nat tid := L']> (predHist s) →
  present (ras s') = present (ras s) →
  present (iPred s') = present (iPred s) →
  (∀ r, r ∈ L' → r ∈ L ∨
     (PH.tid r = tid ∧ PH.pushedRAS r = false ∧
      (ras s = None → PH.rasHistory r = None) ∧
      (iPred s = None →
       PH.indirectHistory r = None ∧ PH.wasIndirect r = false))) →
  records_ok s'.
Proof.
  intros Hok HL Hph Hras Hip Hnew t h r Hh Hr.
  assert (ras s' = None → ras s = None) as Hr1
    by (apply present_same_None; done).
  assert (iPred s' = None → iPred s = None) as Hr2
    by (apply present_same_None; done).
  rewrite Hph, (hist_at_insert _ _ _ _ _ HL) in Hh.
  destruct (decide (t = tid)) as [->|Hne].
  - injection Hh as <-.
    destruct (Hnew r Hr) as [Hold|(Ha & Hb & Hc & Hd)].
    + destruct (Hok tid L r HL Hold) as (Ha & Hb & Hc & Hd).
      split_and!; auto.
    + split_and!; auto.
  - destruct (Hok t h r Hh Hr) as (Ha & Hb & Hc & Hd).
    split_and!; auto.
Qed.

Lemma squash_mispredict_records squashed_sn corr_target actually_taken tid
    s s' :
  squash_mispredict squashed_sn corr_target actually_taken tid s
    = Ok (tt, s') →
  ∃ gone keep keep',
    hist_at (predHist s) tid = Some (gone ++ keep) ∧
    predHist s' = <[Z.to_nat tid := keep']> (predHist s) ∧
    present (ras s') = present (ras s) ∧
    present (iPred s') = present (iPred s) ∧
    (keep' = keep ∨
     ∃ front rest front',
       keep = front :: rest ∧ keep' = front' :: rest ∧
       PH.tid front' = PH.tid front ∧
       PH.pushedRAS front' = PH.pushedRAS front ∧
       PH.wasIndirect front' = PH.wasIndirect front ∧
       (ras s = None → PH.rasHistory front' = PH.rasHistory front) ∧
       (iPred s = None →
        PH.indirectHistory front' = PH.indirectHistory front)).
Proof.
  intros Hrun.
  destruct (hist_at (predHist s) tid) as [L|] eqn:HL; cycle 1.
  { unfold squash_mispredict, mbind, M_bind, get_hist in Hrun.
    by rewrite HL in Hrun. }
  destruct (squash squashed_sn tid (note_miss s)) as [[[] s1]|f] eqn:Hsq;
    cycle 1.
  { open_mispredict Hrun HL. by rewrite Hsq in Hrun. }
  destruct (squash_ok_inv _ _ _ _ Hsq)
    as (L0 & gone & keep & HL0 & -> & Hph & _ & _ & _ & _ & _ & _ & Hras
        & Hip).
  simpl in HL0. rewrite HL in HL0. injection HL0 as ->.
  simpl in Hph, Hras, Hip.
  assert (hist_at (predHist s1) tid = Some keep) as Hkeep.
  { rewrite Hph. by eapply hist_at_insert_eq. }
  pose proof (squash_mispredict_inv _ corr_target actually_taken
                _ _ _ _ Hsq Hkeep) as Hinv.
  destruct keep as [|front rest].
  - rewrite Hrun in Hinv. injection Hinv as ->.
    exists gone, [], []. split_and!; auto.
  - simpl in Hinv.
    destruct (PH.seqNum front =? squashed_sn) eqn:Heq;
      [|rewrite Hrun in Hinv; done].
    apply N.eqb_eq in Heq.
    destruct Hinv as (s2 & f2 & _ & Hrun2 & Hph2 & _ & _ & _ & _ & _ & Hwi
                      & _).
    destruct (squash_mispredict_repair _ corr_target actually_taken
                _ _ _ _ _ Hsq Hkeep Heq)
      as (s2' & front' & _ & Hrun3 & Hph3 & _ & Htid & Hpu & Hrh & Hih & _
          & _ & _ & _ & _ & _).
    rewrite Hrun in Hrun2, Hrun3.
    injection Hrun2 as <-. injection Hrun3 as <-.
    assert (f2 = front') as ->.
    { rewrite Hph3 in Hph2.
      apply (f_equal (λ v, hist_at v tid)) in Hph2.
      rewrite !(hist_at_insert_eq _ _ _ _ Hkeep) in Hph2. congruence. }
    pose proof (squash_mispredict_summary _ _ _ _ _ _ Hrun)
      as (_ & _ & _ & _ & _ & _ & _ & _ & _ & _ & _ & _ & _ & _ & _ & _
          & _ & _ & Hras' & Hip').
    exists gone, (front :: rest), (front' :: rest).
    split_and!; [done| |done|done|].
    + rewrite Hph3, Hph. apply list_insert_insert_eq.
    + right. exists front, rest, front'. split_and!; auto.
      * intros Hn. apply Hrh. eapply present_same_None; [|exact Hn].
        symmetry. exact Hras.
      * intros Hn. apply Hih. eapply present_same_None; [|exact Hn].
        symmetry. exact Hip.
Qed.

Lemma exec_vector o s s' :
  exec o s = Ok (tt, s') →
  ∃ L L',
    hist_at (predHist s) (op_tid o) = Some L ∧
    predHist s' = <[Z.to_nat (op_tid o) := L']> (predHist s) ∧
    present (ras s') = present (ras s) ∧
    present (iPred s') = present (iPred s).
Proof.
  destruct o as [inst sn pc tid|sn tid|sn tid|sn corr taken tid];
    simpl; intros Hrun.
  - revert Hrun. msimpl.
    destruct (predict inst sn pc tid s) as [[[tk pc'] s1]|] eqn:Hp; [|done].
    intros [= <-].
    destruct (predict_record _ _ _ _ _ _ _ _ Hp)
      as (L & r & HL & Hph & _ & _ & _ & _ & _ & Hras & Hip).
    by exists L, (r :: L).
  - destruct (update_ok_inv _ _ _ _ Hrun)
      as (keep & gone & HL & Hph & _ & _ & _ & _ & Hras & Hip).
    by exists (keep ++ gone), keep.
  - destruct (squash_ok_inv _ _ _ _ Hrun)
      as (L & gone & keep & HL & _ & Hph & _ & _ & _ & _ & _ & _ & Hras & Hip).
    by exists L, keep.
  - destruct (squash_mispredict_records _ _ _ _ _ _ Hrun)
      as (gone & keep & keep' & HL & Hph & Hras & Hip & _).
    by exists (gone ++ keep), keep'.
Qed.

Lemma exec_records_ok o s s' :
  records_ok s → exec o s = Ok (tt, s') → records_ok s'.
Proof.
  intros Hok.
  destruct o as [inst sn pc tid|sn tid|sn tid|sn corr taken tid];
    simpl; intros Hrun.
  - revert Hrun. msimpl.
    destruct (predict inst sn pc tid s) as [[[tk pc'] s1]|] eqn:Hp; [|done].
    intros [= <-].
    destruct (predict_record _ _ _ _ _ _ _ _ Hp)
      as (L & r & HL & Hph & _ & Ha & Hb & Hc & Hd & Hras & Hip).
    eapply records_ok_insert; eauto.
    intros r0 [->|Hin]%elem_of_cons; auto.
  - destruct (update_ok_inv _ _ _ _ Hrun)
      as (keep & gone & HL & Hph & _ & _ & _ & _ & Hras & Hip).
    eapply records_ok_insert; eauto.
    intros r0 Hin. left. apply elem_of_app. by left.
  - destruct (squash_ok_inv _ _ _ _ Hrun)
      as (L & gone & keep & HL & -> & Hph & _ & _ & _ & _ & _ & _ & Hras
          & Hip).
    eapply records_ok_insert; eauto.
    intros r0 Hin. left. apply elem_of_app. by right.
  - destruct (squash_mispredict_records _ _ _ _ _ _ Hrun)
      as (gone & keep & keep' & HL & Hph & Hras & Hip & Hcase).
    eapply records_ok_insert; eauto.
    intros r0 Hin.
    destruct Hcase as [->|(front & rest & front' & -> & -> & Ha & Hb & Hc
                          & Hd & He)].
    { left. apply elem_of_app. by right. }
    apply elem_of_cons in Hin as [->|Hin].
    + right.
      destruct (Hok tid _ front HL) as (Hf1 & Hf2 & Hf3 & Hf4).
      { apply elem_of_app. right. by left. }
      split_and!; try congruence.
      * intros Hn. rewrite (Hd Hn). auto.
      * intros Hn. destruct (Hf4 Hn) as [Hi1 Hi2].
        rewrite (He Hn), Hc. auto.
    + left. apply elem_of_app. right. by right.
Qed.

Lemma run_records_ok ops : ∀ s s',
  records_ok s → run ops s = Ok (tt, s') → records_ok s'.
Proof.
  induction ops as [|o ops IH]; intros s s' Hok Hrun.
  - by injection Hrun as <-.
  - apply run_cons in Hrun as (s1 & Hex & Hrun).
    eapply IH; [|exact Hrun]. by eapply exec_records_ok.
Qed.

Lemma empty_records_ok s : empty_queues s → records_ok s.
Proof.
  intros He t h r [_ Hh]%hist_at_valid Hr.
  unfold empty_queues in He. rewrite Forall_lookup in He.
  rewrite (He _ _ Hh) in Hr. by apply elem_of_nil in Hr.
Qed.

(** X17.  In every state reached from empty queues by calls of [predict],
    [update] and the two forms of [squash] that returned, every record
    sits in the queue of the thread it names, has [pushedRAS] false (no
    call ever sets it), holds a RAS token only when there is a RAS, and
    holds an indirect predictor token or the [wasIndirect] mark only when
    there is an indirect predictor. *)
Theorem reachable_records_ok ops s s' :
  empty_queues s → run ops s = Ok (tt, s') →
  ∀ t h r, hist_at (predHist s') t = Some h → r ∈ h →
    PH.tid r = t ∧ PH.pushedRAS r = false ∧
    (ras s' = None → PH.rasHistory r = None) ∧
    (iPred s' = None →
     PH.indirectHistory r = None ∧ PH.wasIndirect r = false).
Proof.
  intros He Hrun.
  apply (run_records_ok ops s s'); [by apply empty_records_ok|done].
Qed.

(** X18.  In every state reached from empty queues by calls that
    returned, the flush [squash(squashed_sn, tid)] of a thread in range
    returns, whatever the sequence number: its [assert(ras)] cannot fail,
    because a record holds a RAS token only when there is a RAS. *)
Theorem reachable_squash_returns ops s s' squashed_sn tid :
  empty_queues s → run ops s = Ok (tt, s') →
  is_Some (hist_at (predHist s') tid) →
  ∃ s2, squash squashed_sn tid s' = Ok (tt, s2).
Proof.
  intros He Hrun [L HL].
  apply (squash_returns squashed_sn tid s' L HL).
  destruct (ras s') as [rs|] eqn:Eras; [by left; eexists|right].
  apply Forall_forall. intros r Hr.
  pose proof (run_records_ok ops s s' (empty_records_ok s He) Hrun) as Hok.
  destruct (Hok tid L r HL Hr) as (_ & _ & Hn & _). by apply Hn.
Qed.

Lemma run_vector ops : ∀ s s' t,
  run ops s = Ok (tt, s') →
  Forall (λ o, op_tid o ≠ t) ops →
  length (predHist s') = length (predHist s) ∧
  hist_at (predHist s') t = hist_at (predHist s) t ∧
  present (ras s') = present (ras s) ∧
  present (iPred s') = present (iPred s).
Proof.
  induction ops as [|o ops IH]; intros s s' t Hrun Hall.
  - by injection Hrun as <-.
  - apply run_cons in Hrun as (s1 & Hex & Hrun).
    apply Forall_cons in Hall as [Hne Hall].
    destruct (IH _ _ _ Hrun Hall) as (Hlen & Hsame & Hras & Hip).
    destruct (exec_vector _ _ _ Hex) as (L & L' & HL & Hph & Hras1 & Hip1).
    rewrite Hlen, Hsame, Hras, Hip, Hph, length_insert.
    split_and!; auto.
    eapply hist_at_insert_ne; eauto.
Qed.

(** X19.  Threads do not interfere: after any sequence of calls that
    returned, the number of queues is what it was, the queue of a thread
    that none of the calls names is what it was, and a RAS or an indirect
    predictor that was there is still there and one that was absent is
    still absent. *)
Theorem threads_do_not_interfere ops s s' t :
  run ops s = Ok (tt, s') →
  Forall (λ o, op_tid o ≠ t) ops →
  length (predHist s') = length (predHist s) ∧
  hist_at (predHist s') t = hist_at (predHist s) t ∧
  present (ras s') = present (ras s) ∧
  present (iPred s') = present (iPred s).
Proof. apply run_vector. Qed.

Lemma squash_loop_prefix_no_tokens squashed_sn tid (gone : History) :
  ∀ fuel s keep,
  hist_at (predHist s) tid = Some (gone ++ keep) →
  Forall (λ r, PH.rasHistory r = None) gone →
  (∀ r, head keep = Some r → PH.seqNum r ≤ squashed_sn) →
  squash_loop fuel squashed_sn tid s ≠ Abort AssertionFailed.
Proof.
  induction gone as [|front gone IH]; intros fuel s keep HL Hno Hkeep Hrun.
  - simpl in HL.
    destruct fuel; simpl in Hrun;
      unfold mbind at 1, M_bind at 1, get_hist at 1 in Hrun;
      rewrite HL in Hrun.
    all: destruct keep as [|k keep]; [done|].
    all: specialize (Hkeep k eq_refl).
    all: apply N.ltb_ge in Hkeep; by rewrite Hkeep in Hrun.
  - apply Forall_cons in Hno as [Hfront Hno].
    destruct fuel; simpl in Hrun;
      unfold mbind at 1, M_bind at 1, get_hist at 1 in Hrun;
      rewrite HL in Hrun; simpl in Hrun.
    { by destruct (squashed_sn <? PH.seqNum front). }
    destruct (squashed_sn <? PH.seqNum front); [|done].
    rewrite Hfront in Hrun. simpl in Hrun.
    destruct (iPred s) eqn:Eip.
    all: msimpl.
    all: repeat step.
    all: match type of Hrun with
         | squash_loop _ _ _ ?s1 = _ =>
             apply (IH fuel s1 keep);
               [by eapply hist_at_insert_eq | done | done | done]
         end.
Qed.

(** X20.  A prediction that is squashed at once leaves no mark on the
    queues: after [predict] with a sequence number above [squashed_sn], on
    a queue whose front is not above [squashed_sn], the flush returns,
    removes exactly the new record and leaves every queue as it was before
    the prediction; its calls are the squash calls of that one record, and
    it leaves the counters as [predict] left them. *)
Theorem predict_then_squash_restores inst seqNum pc tid s taken pc' s1 L
    squashed_sn :
  predict inst seqNum pc tid s = Ok ((taken, pc'), s1) →
  hist_at (predHist s) tid = Some L →
  (∀ r, head L = Some r → PH.seqNum r ≤ squashed_sn) →
  squashed_sn < seqNum →
  ∃ s2 r,
    hist_at (predHist s1) tid = Some (r :: L) ∧
    squash squashed_sn tid s1 = Ok (tt, s2) ∧
    predHist s2 = predHist s ∧
    trace s2 = trace s1 ++ squash_events (present (iPred s)) tid r ∧
    stats s2 = stats s1 ∧ btb s2 = btb s1.
Proof.
  intros Hp HL Hhead Hlt.
  destruct (predict_record _ _ _ _ _ _ _ _ Hp)
    as (L0 & r & HL0 & Hph & Hsn & _ & _ & Hrh & _ & Hras & Hip).
  rewrite HL in HL0. injection HL0 as <-.
  assert (hist_at (predHist s1) tid = Some (r :: L)) as HL1.
  { rewrite Hph. by eapply hist_at_insert_eq. }
  destruct (squash_spec squashed_sn tid s1 _ HL1)
    as [[Hnone Hab]|(s2 & gone & keep & Hrun & Hsplit & Hph2 & Hgone & Hkeep
                     & Htr & Hst & Hbtb & _)].
  { exfalso. revert Hab. unfold squash, mbind, M_bind, get_hist.
    rewrite HL1.
    apply (squash_loop_prefix_no_tokens _ _ [r] _ _ L); [done| |done].
    constructor; [|done]. apply Hrh.
    eapply present_same_None; [|exact Hnone]. done. }
  assert (gone = [r] ∧ keep = L) as [-> ->].
  { destruct gone as [|g gone].
    - simpl in Hsplit. subst keep. specialize (Hkeep r eq_refl). lia.
    - injection Hsplit as <- ->.
      destruct gone as [|g' gone]; [done|].
      apply Forall_cons in Hgone as [_ Hgone].
      apply Forall_cons in Hgone as [Hg' _].
      specialize (Hhead g' eq_refl). lia. }
  exists s2, r. split_and!; auto.
  - rewrite Hph2, Hph, list_insert_insert_eq.
    by eapply hist_at_insert_id.
  - rewrite Htr, Hip. simpl. by rewrite app_nil_r.
Qed.

(** ** Back to rest *)

Lemma drain_ok_empty s : empty_queues s → drainSanityCheck s = Ok (tt, s).
Proof.
  intros He. unfold drainSanityCheck, mbind, M_bind, gets.
  rewrite for_each_assert_empty.
  by apply forallb_queue_empty in He as ->.
Qed.

Lemma dump_empty s : empty_queues s → dump s = [].
Proof.
  unfold dump, empty_queues. generalize 0%Z.
  induction (predHist s) as [|ph v IH]; intros i He; [done|].
  apply Forall_cons in He as [-> He]. simpl. by apply IH.
Qed.

Lemma empty_queues_insert s s' tid :
  empty_queues s → predHist s' = <[Z.to_nat tid := []]> (predHist s) →
  empty_queues s'.
Proof.
  unfold empty_queues. intros He ->. by apply Forall_insert.
Qed.

Lemma predict_all_vector tid calls : ∀ s L res s1,
  hist_at (predHist s) tid = Some L →
  predict_all tid calls s = Ok (res, s1) →
  ∃ H,
    predHist s1 = <[Z.to_nat tid := H ++ L]> (predHist s) ∧
    map PH.seqNum (reverse H) = map call_sn calls ∧
    (ras s = None → Forall (λ r, PH.rasHistory r = None) H) ∧
    present (ras s1) = present (ras s) ∧
    present (iPred s1) = present (iPred s).
Proof.
  induction calls as [|[[inst sn] pc] calls IH]; intros s L res s1 HL Hrun.
  - injection Hrun as <- <-. exists [].
    split_and!; try done. symmetry. by eapply hist_at_insert_id.
  - simpl in Hrun. unfold mbind at 1, M_bind at 1 in Hrun.
    destruct (predict inst sn pc tid s) as [[[tk pc'] s0]|] eqn:Hp; [|done].
    unfold mbind at 1, M_bind at 1 in Hrun.
    destruct (predict_all tid calls s0) as [[rest s2]|] eqn:Hall; [|done].
    injection Hrun as <- <-.
    destruct (predict_record _ _ _ _ _ _ _ _ Hp)
      as (L0 & r & HL0 & Hph & Hsn & _ & _ & Hrh & _ & Hras & Hip).
    rewrite HL in HL0. injection HL0 as <-.
    assert (hist_at (predHist s0) tid = Some (r :: L)) as HL1.
    { rewrite Hph. by eapply hist_at_insert_eq. }
    destruct (IH _ _ _ _ HL1 Hall) as (H' & Hph2 & Hmap & Hno & Hras2 & Hip2).
    exists (H' ++ [r]). split_and!.
    + rewrite Hph2, Hph, list_insert_insert_eq. by rewrite <- app_assoc.
    + rewrite reverse_app. simpl. by rewrite Hmap, Hsn.
    + intros Hn. apply Forall_app. split.
      * apply Hno. eapply present_same_None; [|exact Hn]. done.
      * constructor; [by apply Hrh|done].
    + by rewrite Hras2.
    + by rewrite Hip2.
Qed.

(** X21.  Back to rest.  From empty queues, after any number of
    predictions on one thread, either the commit of a sequence number that
    none of them exceeds, or the flush with a sequence number below all of
    theirs, returns and leaves every queue empty: [drainSanityCheck] then
    passes and [dump] prints nothing. *)
Theorem predictions_then_drain tid calls sn s res s1 :
  empty_queues s →
  is_Some (hist_at (predHist s) tid) →
  predict_all tid calls s = Ok (res, s1) →
  (Forall (λ c, call_sn c ≤ sn) calls →
   ∃ s2, update sn tid s1 = Ok (tt, s2) ∧
         drainSanityCheck s2 = Ok (tt, s2) ∧ dump s2 = []) ∧
  (Forall (λ c, sn < call_sn c) calls →
   ∃ s2, squash sn tid s1 = Ok (tt, s2) ∧
         drainSanityCheck s2 = Ok (tt, s2) ∧ dump s2 = []).
Proof.
  intros He [L HL] Hrun.
  assert (L = []) as ->.
  { apply hist_at_valid in HL as [_ HL].
    unfold empty_queues in He. rewrite Forall_lookup in He. eauto. }
  destruct (predict_all_vector _ _ _ _ _ _ HL Hrun)
    as (H' & Hph & Hmap & Hno & Hras & Hip).
  rewrite app_nil_r in Hph.
  assert (hist_at (predHist s1) tid = Some H') as HL1.
  { rewrite Hph. by eapply hist_at_insert_eq. }
  assert (∀ P : InstSeqNum → Prop,
            Forall (λ c, P (call_sn c)) calls →
            Forall (λ r, P (PH.seqNum r)) H') as Hmove.
  { intros P Hc.
    assert (Forall P (map call_sn calls)) as Hm
      by (by apply List.Forall_map).
    rewrite <- Hmap in Hm.
    apply (proj1 (List.Forall_map _ _ _)) in Hm.
    apply (proj1 (Forall_reverse _ _)) in Hm. exact Hm. }
  split; intros Hc.
  - destruct (update_all_retired sn tid s1 H' HL1 (Hmove (λ n, n ≤ sn) Hc))
      as (s2 & Hup & Hph2 & _).
    assert (empty_queues s2) as He2.
    { apply (empty_queues_insert s s2 tid He).
      by rewrite Hph2, Hph, list_insert_insert_eq. }
    exists s2. split_and!; [done|by apply drain_ok_empty|by apply dump_empty].
  - destruct (squash_spec sn tid s1 H' HL1)
      as [[Hnone Hab]|(s2 & gone & keep & Hsq & -> & Hph2 & _ & Hkeep & _)].
    { exfalso. revert Hab. unfold squash, mbind, M_bind, get_hist.
      rewrite HL1.
      apply (squash_loop_prefix_no_tokens _ _ H' _ _ []);
        [by rewrite app_nil_r| |done].
      apply Hno. eapply present_same_None; [|exact Hnone]. done. }
    assert (keep = []) as ->.
    { destruct keep as [|k keep]; [done|].
      specialize (Hkeep k eq_refl).
      pose proof (Hmove (λ n, sn < n) Hc) as Hall.
      apply Forall_app in Hall as [_ Hall].
      apply Forall_cons in Hall as [Hk _]. simpl in Hk. lia. }
    assert (empty_queues s2) as He2.
    { apply (empty_queues_insert s s2 tid He).
      by rewrite Hph2, Hph, list_insert_insert_eq. }
    exists s2. split_and!; [done|by apply drain_ok_empty|by apply dump_empty].
Qed.

End Properties.

(** * The properties on the concrete machine *)

Section Witnesses.
Import Demo.

(** A direct jump predicted taken that misses in an empty BTB. *)
Lemma predict_btb_miss_witness :
  says_taken jump 0x1000 0%Z (machine true []) = true ∧
  BTB_lookup 0%Z 0x1000 (getBranchType jump) (btb (machine true []))
    = (None, []) ∧
  ∃ s', predict jump 10 0x1000 0%Z (machine true [])
        = Ok ((false, 0x1004), s').
Proof.
  split; [reflexivity|]. split; [reflexivity|].
  destruct (@predict_btb_miss arch direction table_btb table_iPred list_ras
              jump 10 0x1000 0%Z (machine true []) [] [])
    as (s' & rec & delta & Hrun & _);
    [reflexivity | reflexivity | by left | reflexivity | reflexivity
    | discriminate |].
  exists s'. exact Hrun.
Defined.

(** The misprediction squash of the only branch in flight. *)
Lemma mispredict_squash_boundary_witness :
  squash 40 0%Z (note_miss one_indirect)
    = Ok (tt, after (squash 40 0%Z) (note_miss one_indirect)) ∧
  ∃ s2, squash_mispredict 40 resolved true 0%Z one_indirect = Ok (tt, s2).
Proof.
  split; [vm_compute; reflexivity|].
  destruct (@mispredict_squash_boundary arch direction table_btb table_iPred
              list_ras 40 resolved true 0%Z one_indirect
              (after (squash 40 0%Z) (note_miss one_indirect)))
    as (L & gone & keep & _ & _ & _ & _ & Hkeep & _ & _ & Hgood);
    [vm_compute; reflexivity|].
  vm_compute in Hkeep. injection Hkeep as <-.
  destruct (Hgood _ _ eq_refl eq_refl) as (s2 & front' & Hrun & _).
  exists s2. exact Hrun.
Defined.

(** A taken direct call that hits in the BTB: the return address is pushed,
    the record holds the token of the push, and [pushedRAS] is false, not
    true. *)
Lemma call_leaves_pushedRAS_false :
  ∃ s' rec,
    predict dcall 20 0x3000 0%Z (machine true [(0x3000, 0x4000)])
      = Ok ((true, 0x4000), s') ∧
    hist_at (predHist s') 0%Z = Some [rec] ∧
    trace s' = [NotifyBranches 1; CallUncondBranch 0%Z 0x3000 None;
                RasPush 0%Z 0x3004 None; BtbLookup 0%Z 0x3000 CallDirect;
                IPredUpdate 0%Z 20 0x3000 false true 0x4000 CallDirect None] ∧
    PH.rasHistory rec = Some [] ∧
    PH.pushedRAS rec = false.
Proof. eexists _, _. split_and!; vm_compute; reflexivity. Qed.

(** A conditional call that misses in an empty BTB: the push is undone by
    one squash of the RAS, and [pushedRAS] is false. *)
Lemma predict_call_pushes_witness :
  says_taken ccall 0x3000 0%Z (machine true []) = true ∧
  isCall ccall = true ∧
  ∃ rec L delta,
    hist_at (predHist (after (predict ccall 20 0x3000 0%Z)
                             (machine true []))) 0%Z
      = Some (rec :: L) ∧
    trace (after (predict ccall 20 0x3000 0%Z) (machine true []))
      = [] ++ delta ∧
    occurrences is_RasPush delta = 1%nat ∧
    occurrences is_RasSquash delta = 1%nat ∧
    PH.pushedRAS rec = false.
Proof.
  split; [reflexivity|]. split; [reflexivity|].
  destruct (@predict_call_pushes arch direction table_btb table_iPred list_ras
              ccall 20 0x3000 0%Z (machine true [])
              false 0x3004
              (after (predict ccall 20 0x3000 0%Z) (machine true [])))
    as (rec & L & delta & rs & h0 & rs0 & h1 & rs1 & _ & Hq & Htr & _ & _ & _
        & _ & Hpush & _ & Hundo & Hflag);
    [reflexivity | reflexivity | vm_compute; reflexivity |].
  assert (target_missed ccall 20 0x3000 0%Z (machine true [])
          && negb (isUncondCtrl ccall) = true) as Hmiss
    by (vm_compute; reflexivity).
  rewrite Hmiss in Hundo. destruct Hundo as (Hsq & _).
  exists rec, L, delta.
  split_and!; [exact Hq | exact Htr | exact Hpush | exact Hsq | exact Hflag].
Defined.

(** A taken return on an empty RAS: the new [pc] and the target of the
    record are the address of the return itself, 0x4040, and not its
    sequential successor 0x4044. *)
Lemma return_on_empty_ras_keeps_branch_pc :
  ∃ s' rec,
    RAS_pop 0%Z None ([] : RASState) = (None, Some [], []) ∧
    predict retn 21 0x4040 0%Z (machine true []) = Ok ((true, 0x4040), s') ∧
    hist_at (predHist s') 0%Z = Some [rec] ∧
    PH.target rec = 0x4040 ∧
    advancePC retn 0x4040 = 0x4044 ∧
    (0x4040 : PCState) ≠ advancePC retn 0x4040.
Proof. eexists _, _. split_and!; vm_compute; first [reflexivity|discriminate]. Qed.

Lemma predict_return_empty_ras_witness :
  says_taken retn 0x4040 0%Z (machine true []) = true ∧
  RAS_pop 0%Z None ([] : RASState) = (None, Some [], []) ∧
  ∃ s', predict retn 21 0x4040 0%Z (machine true [])
        = Ok ((true, 0x4040), s').
Proof.
  split; [reflexivity|]. split; [reflexivity|].
  destruct (@predict_return_empty_ras arch direction table_btb table_iPred
              list_ras retn 21 0x4040 0%Z (machine true []) [] []
              (Some []) [])
    as (s' & rec & Hrun & _); try reflexivity.
  exists s'. exact Hrun.
Defined.

(** The jump of [one_indirect] went through the indirect predictor:
    resolving it as taken counts an indirect misprediction. *)
Lemma mispredict_squash_btb_update_witness :
  squash 40 0%Z (note_miss one_indirect)
    = Ok (tt, after (squash 40 0%Z) (note_miss one_indirect)) ∧
  ∃ s2,
    squash_mispredict 40 resolved true 0%Z one_indirect = Ok (tt, s2) ∧
    St.indirectMispredicted (stats s2) = 1 ∧
    St.BTBUpdates (stats s2) = 0.
Proof.
  split; [vm_compute; reflexivity|].
  unshelve epose proof
    (@mispredict_squash_btb_update arch direction table_btb table_iPred
       list_ras 40 resolved true 0%Z one_indirect
       (after (squash 40 0%Z) (note_miss one_indirect)) _ [] _ _ _)
    as (s2 & delta & Hrun & _ & Hcount);
    [| vm_compute; reflexivity | vm_compute; reflexivity | reflexivity |].
  simpl in Hcount. destruct Hcount as (Hi & Hb & _).
  exists s2. split; [exact Hrun|]. split; [exact Hi | exact Hb].
Defined.

Lemma predicts_then_update_drains_witness :
  StronglySorted N.lt (map call_sn call_return) ∧
  ∃ s2,
    update 21 0%Z (after (predict_all 0%Z call_return)
                         (machine true [(0x3000, 0x4000)]))
      = Ok (tt, s2) ∧
    hist_at (predHist s2) 0%Z = Some [].
Proof.
  assert (StronglySorted N.lt (map call_sn call_return)) as Hsorted.
  { repeat constructor. }
  split; [exact Hsorted|].
  unshelve epose proof
    (@predicts_then_update_drains arch direction table_btb table_iPred
       list_ras 0%Z call_return 21 (machine true [(0x3000, 0x4000)]) _
       (after (predict_all 0%Z call_return)
              (machine true [(0x3000, 0x4000)]))
       _ Hsorted _ _)
    as (s2 & H & delta & _ & _ & _ & Hup & Hempty & _);
    [| reflexivity | repeat constructor; discriminate
     | vm_compute; reflexivity |].
  exists s2. split; [exact Hup | exact Hempty].
Defined.

Lemma history_strictly_decreasing_witness :
  empty_queues (machine true []) ∧
  ascending [] session ∧
  ∀ h, hist_at (predHist (after (run session) (machine true []))) 0%Z
       = Some h → decreasing h.
Proof.
  assert (empty_queues (machine true [])) as Hempty.
  { repeat constructor. }
  assert (ascending [] session) as Hasc.
  { simpl. split_and!; try exact I.
    - intros n Hin. by apply elem_of_nil in Hin.
    - intros n Hin. apply list_elem_of_singleton in Hin.
      injection Hin as ->. reflexivity. }
  split; [exact Hempty|]. split; [exact Hasc|].
  destruct (@history_strictly_decreasing arch direction table_btb table_iPred
              list_ras session (machine true [])
              (after (run session) (machine true [])) Hempty Hasc)
    as [Hdec _]; [vm_compute; reflexivity|].
  exact (Hdec 0%Z).
Defined.

Lemma counters_monotone_consistent_witness :
  run session (machine true [])
    = Ok (tt, after (run session) (machine true [])) ∧
  stats_le (stats (machine true []))
           (stats (after (run session) (machine true []))) ∧
  stats_inv (after (run session) (machine true [])).
Proof.
  assert (run session (machine true [])
          = Ok (tt, after (run session) (machine true []))) as Hrun.
  { vm_compute. reflexivity. }
  split; [exact Hrun|].
  destruct (@counters_monotone_consistent arch direction table_btb
              table_iPred list_ras session (machine true [])
              (after (run session) (machine true [])) Hrun)
    as (Hle & Hinv & _).
  split; [exact Hle|]. apply Hinv. apply stats_inv_init.
Defined.

Lemma probes_fire_once_witness :
  ∃ delta,
    trace (after (squash_mispredict 40 resolved true 0%Z)
                 one_indirect)
      = trace one_indirect ++ NotifyMisses 1 :: delta ∧
    occurrences is_NotifyMisses delta = 0%nat.
Proof.
  destruct (proj1 (@probes_fire_once arch direction table_btb table_iPred
                     list_ras)
              40 resolved true 0%Z one_indirect
              (after (squash_mispredict 40 resolved true 0%Z)
                     one_indirect))
    as (_ & delta & Htr & Hocc & _); [vm_compute; reflexivity|].
  exists delta. split; [exact Htr | exact Hocc].
Defined.

(** Without a RAS, a taken return stops [predict] on the null pointer. *)
Lemma predict_needs_ras_witness :
  predict retn 21 0x4040 0%Z (bare true []) = Abort NullPointer.
Proof.
  apply (proj1 (@predict_needs_ras arch direction table_btb table_iPred
                  list_ras)).
  split_and!; reflexivity.
Defined.
(** The commit of the call of [two_in_flight] keeps the return. *)
Lemma update_retires_older_witness :
  ∃ s' rec,
    update 20 0%Z two_in_flight = Ok (tt, s') ∧
    hist_at (predHist s') 0%Z = Some [rec] ∧ PH.seqNum rec = 21.
Proof.
  unshelve epose proof
    (@update_retires_older arch direction table_btb table_iPred list_ras
       20 0%Z two_in_flight _ _ _) as (s' & Hrun & Hph & _);
    [| vm_compute; reflexivity | repeat constructor |].
  eexists s', _. split; [exact Hrun|].
  rewrite Hph. split; vm_compute; reflexivity.
Defined.

(** The flush of the return of [two_in_flight] keeps the call. *)
Lemma squash_removes_younger_witness :
  ∃ s' rec,
    squash 20 0%Z two_in_flight = Ok (tt, s') ∧
    hist_at (predHist s') 0%Z = Some [rec] ∧ PH.seqNum rec = 20.
Proof.
  unshelve epose proof
    (@squash_removes_younger arch direction table_btb table_iPred list_ras
       20 0%Z two_in_flight _ _ _ _) as (s' & Hrun & Hph & _);
    [| vm_compute; reflexivity | repeat constructor
     | left; eexists; reflexivity |].
  eexists s', _. split; [exact Hrun|].
  rewrite Hph. split; vm_compute; reflexivity.
Defined.

(** Without the RAS, the flush of the return stops on the assertion. *)
Lemma squash_asserts_ras_witness :
  squash 20 0%Z ras_removed = Abort AssertionFailed.
Proof.
  unshelve eapply
    (@squash_asserts_ras arch direction table_btb table_iPred list_ras
       20 0%Z ras_removed [] _ _);
    [| | vm_compute; reflexivity | reflexivity | constructor
     | reflexivity | reflexivity].
Defined.

(** An unconditional call: one [uncondBranch], no [lookup]. *)
Lemma predict_direction_step_witness :
  ∃ delta,
    trace (after (predict dcall 20 0x3000 0%Z)
                 (machine true [(0x3000, 0x4000)])) = [] ++ delta ∧
    occurrences is_CallUncondBranch delta = 1%nat ∧
    occurrences is_CallLookup delta = 0%nat.
Proof.
  destruct (@predict_direction_step arch direction table_btb table_iPred
              list_ras dcall 20 0x3000 0%Z (machine true [(0x3000, 0x4000)])
              true 0x4000
              (after (predict dcall 20 0x3000 0%Z)
                     (machine true [(0x3000, 0x4000)])))
    as (L & r & delta & _ & Htr & Hu & Hl & _); [vm_compute; reflexivity|].
  exists delta. split; [exact Htr|]. split; [exact Hu | exact Hl].
Defined.

(** The indirect predictor is told of a direct call as well. *)
Lemma predict_informs_iPred_witness :
  ∃ delta,
    trace (after (predict dcall 20 0x3000 0%Z)
                 (machine true [(0x3000, 0x4000)])) = [] ++ delta ∧
    occurrences is_IPredUpdate delta = 1%nat.
Proof.
  destruct (@predict_informs_iPred arch direction table_btb table_iPred
              list_ras dcall 20 0x3000 0%Z (machine true [(0x3000, 0x4000)])
              true 0x4000
              (after (predict dcall 20 0x3000 0%Z)
                     (machine true [(0x3000, 0x4000)])))
    as (delta & Htr & Hocc & _); [vm_compute; reflexivity|].
  exists delta. split; [exact Htr | exact Hocc].
Defined.

(** A taken call pushes once and pops nothing. *)
Lemma predict_ras_use_witness :
  ∃ delta,
    trace (after (predict dcall 20 0x3000 0%Z)
                 (machine true [(0x3000, 0x4000)])) = [] ++ delta ∧
    occurrences is_RasPop delta = 0%nat ∧
    occurrences is_RasPush delta = 1%nat.
Proof.
  destruct (@predict_ras_use arch direction table_btb table_iPred
              list_ras dcall 20 0x3000 0%Z (machine true [(0x3000, 0x4000)])
              true 0x4000
              (after (predict dcall 20 0x3000 0%Z)
                     (machine true [(0x3000, 0x4000)])))
    as (delta & Htr & Hpop & Hpush & _); [vm_compute; reflexivity|].
  exists delta. split; [exact Htr|]. split; [exact Hpop | exact Hpush].
Defined.

(** A conditional branch predicted not taken falls through. *)
Lemma predict_not_taken_witness :
  says_taken branch 0x1004 0%Z (machine false []) = false ∧
  ∃ s', predict branch 11 0x1004 0%Z (machine false [])
        = Ok ((false, 0x1008), s').
Proof.
  split; [reflexivity|].
  destruct (@predict_not_taken arch direction table_btb table_iPred list_ras
              branch 11 0x1004 0%Z (machine false []) [])
    as (s' & rec & delta & Hrun & _); [reflexivity | reflexivity |].
  exists s'. exact Hrun.
Defined.

(** A direct call that hits in the BTB. *)
Lemma predict_btb_hit_witness :
  ∃ s', predict dcall 20 0x3000 0%Z (machine true [(0x3000, 0x4000)])
        = Ok ((true, 0x4000), s').
Proof.
  destruct (@predict_btb_hit arch direction table_btb table_iPred list_ras
              dcall 20 0x3000 0%Z (machine true [(0x3000, 0x4000)]) []
              0x4000 [(0x3000, 0x4000)])
    as (s' & rec & delta & Hrun & _);
    [reflexivity | reflexivity | left; reflexivity | reflexivity
    | reflexivity | intros _; eexists; reflexivity |].
  exists s'. exact Hrun.
Defined.

(** An indirect jump the indirect predictor knows a target for. *)
Lemma predict_indirect_hit_witness :
  ∃ s', predict ijump 40 0x4040 0%Z trained = Ok ((true, 0x5000), s').
Proof.
  destruct (@predict_indirect_hit arch direction table_btb table_iPred
              list_ras ijump 40 0x4040 0%Z trained []
              [(0x4040, 0x5000)] 0x5000 (Some 40) [(0x4040, 0x5000)])
    as (s' & rec & delta & Hrun & _);
    [reflexivity | reflexivity | reflexivity | reflexivity | reflexivity
    | reflexivity | intros _; eexists; reflexivity |].
  exists s'. exact Hrun.
Defined.

(** An indirect jump the indirect predictor knows nothing of. *)
Lemma predict_indirect_miss_witness :
  ∃ s', predict ijump 40 0x4040 0%Z (machine true [])
        = Ok ((false, 0x4044), s').
Proof.
  destruct (@predict_indirect_miss arch direction table_btb table_iPred
              list_ras ijump 40 0x4040 0%Z (machine true []) []
              [] (Some 40) [])
    as (s' & rec & delta & Hrun & _);
    [reflexivity | reflexivity | reflexivity | reflexivity | reflexivity
    | reflexivity | intros _; eexists; reflexivity |].
  exists s'. exact Hrun.
Defined.

(** A return that pops the address the RAS holds. *)
Lemma predict_return_hit_witness :
  ∃ s', predict retn 21 0x4040 0%Z called = Ok ((true, 0x3004), s') ∧
        ras s' = Some [].
Proof.
  destruct (@predict_return_hit arch direction table_btb table_iPred
              list_ras retn 21 0x4040 0%Z called [] [0x3004] 0x3004
              (Some [0x3004]) [])
    as (s' & rec & delta & Hrun & _ & _ & _ & _ & _ & _ & _ & _ & Hret);
    [reflexivity | reflexivity | reflexivity | reflexivity | reflexivity |].
  simpl in Hret. destruct Hret as (_ & _ & Hras).
  exists s'. split; [exact Hrun | exact Hras].
Defined.

(** The jump of [one_indirect] resolved as taken to [resolved]. *)
Lemma mispredict_squash_corrects_predictors_witness :
  ∃ s2 front',
    squash_mispredict 40 resolved true 0%Z one_indirect = Ok (tt, s2) ∧
    hist_at (predHist s2) 0%Z = Some [front'] ∧
    PH.predTaken front' = true ∧ PH.target front' = resolved ∧
    PH.mispredict front' = true.
Proof.
  unshelve epose proof
    (@mispredict_squash_corrects_predictors arch direction table_btb
       table_iPred list_ras 40 resolved true 0%Z one_indirect
       (after (squash 40 0%Z) (note_miss one_indirect)) _ [] _ _ _)
    as (s2 & front' & delta & Hrun & Hq & _ & _ & _ & _ & _ & _ & _ & _
        & Hpt & Htg & Hmis);
    [| vm_compute; reflexivity | vm_compute; reflexivity | reflexivity |].
  exists s2, front'. split_and!; [exact Hrun|exact Hq|exact Hpt|exact Htg|exact Hmis].
Defined.

(** The same squash leaves the RAS alone: the jump is neither a call nor
    a return. *)
Lemma mispredict_squash_repairs_ras_witness :
  ∃ s2 delta,
    squash_mispredict 40 resolved true 0%Z one_indirect = Ok (tt, s2) ∧
    occurrences is_RasPop delta = 0%nat ∧
    occurrences is_RasPush delta = 0%nat ∧
    occurrences is_RasSquash delta = 0%nat.
Proof.
  unshelve epose proof
    (@mispredict_squash_repairs_ras arch direction table_btb
       table_iPred list_ras 40 resolved true 0%Z one_indirect
       (after (squash 40 0%Z) (note_miss one_indirect)) _ [] _ _ _)
    as (s2 & delta & Hrun & _ & Hpop & Hpush & Hsq & _);
    [| vm_compute; reflexivity | vm_compute; reflexivity | reflexivity |].
  exists s2, delta.
  split_and!; [exact Hrun|exact Hpop|exact Hpush|exact Hsq].
Defined.

(** The squash and then the commit of the same jump. *)
Lemma mispredict_then_update_witness :
  ∃ s2 s3,
    squash_mispredict 40 resolved true 0%Z one_indirect = Ok (tt, s2) ∧
    update 40 0%Z s2 = Ok (tt, s3) ∧
    hist_at (predHist s3) 0%Z = Some [].
Proof.
  unshelve epose proof
    (@mispredict_then_update arch direction table_btb
       table_iPred list_ras 40 resolved true 0%Z one_indirect
       (after (squash 40 0%Z) (note_miss one_indirect)) _ [] _ _ _ _)
    as (s2 & s3 & front' & delta & Hrun & _ & Hup & Hq & _);
    [| vm_compute; reflexivity | vm_compute; reflexivity | reflexivity
     | repeat constructor |].
  exists s2, s3. split_and!; [exact Hrun|exact Hup|exact Hq].
Defined.

(** After [session], every record in flight has [pushedRAS] false. *)
Lemma reachable_records_ok_witness :
  empty_queues (machine true []) ∧
  ∃ h, hist_at (predHist (after (run session) (machine true []))) 0%Z
       = Some h ∧
       Forall (λ r, PH.tid r = 0%Z ∧ PH.pushedRAS r = false) h.
Proof.
  assert (empty_queues (machine true [])) as Hempty.
  { repeat constructor. }
  split; [exact Hempty|].
  eexists. split; [vm_compute; reflexivity|].
  apply Forall_forall. intros r Hr.
  destruct (@reachable_records_ok arch direction table_btb table_iPred
              list_ras session (machine true [])
              (after (run session) (machine true [])) Hempty)
    with (t := 0%Z) (r := r)
         (h := default [] (hist_at (predHist (after (run session)
                                                    (machine true []))) 0%Z))
    as (Ht & Hp & _);
    [vm_compute; reflexivity | vm_compute; reflexivity | exact Hr |].
  split; [exact Ht | exact Hp].
Defined.

(** After [session], any flush of thread 0 returns. *)
Lemma reachable_squash_returns_witness :
  ∃ s2, squash 0 0%Z (after (run session) (machine true [])) = Ok (tt, s2).
Proof.
  apply (@reachable_squash_returns arch direction table_btb table_iPred
           list_ras session (machine true [])).
  - repeat constructor.
  - vm_compute. reflexivity.
  - eexists. vm_compute. reflexivity.
Defined.

(** [session] only names thread 0: the vector keeps its one queue, and a
    thread 1 stays out of range. *)
Lemma threads_do_not_interfere_witness :
  length (predHist (after (run session) (machine true []))) = 1%nat ∧
  hist_at (predHist (after (run session) (machine true []))) 1%Z = None.
Proof.
  destruct (@threads_do_not_interfere arch direction table_btb table_iPred
              list_ras session (machine true [])
              (after (run session) (machine true [])) 1%Z)
    as (Hlen & Hq & _);
    [vm_compute; reflexivity
    | repeat (constructor; [discriminate|]); constructor |].
  split; [exact Hlen | exact Hq].
Defined.

(** A jump predicted and then flushed. *)
Lemma predict_then_squash_restores_witness :
  ∃ s2,
    squash 9 0%Z (after (predict jump 10 0x1000 0%Z) (machine true []))
      = Ok (tt, s2) ∧
    predHist s2 = predHist (machine true []).
Proof.
  destruct (@predict_then_squash_restores arch direction table_btb
              table_iPred list_ras jump 10 0x1000 0%Z (machine true [])
              false 0x1004
              (after (predict jump 10 0x1000 0%Z) (machine true []))
              [] 9)
    as (s2 & r & _ & Hsq & Hph & _);
    [vm_compute; reflexivity | reflexivity | intros r [=] | reflexivity |].
  exists s2. split; [exact Hsq | exact Hph].
Defined.

(** The call and the return of [call_return], then the commit of both. *)
Lemma predictions_then_drain_witness :
  ∃ s2,
    update 21 0%Z two_in_flight = Ok (tt, s2) ∧
    drainSanityCheck s2 = Ok (tt, s2) ∧ dump s2 = [].
Proof.
  apply (proj1 (@predictions_then_drain arch direction table_btb table_iPred
                  list_ras 0%Z call_return 21
                  (machine true [(0x3000, 0x4000)])
                  (default [] (fst <$> (match predict_all 0%Z call_return
                                   (machine true [(0x3000, 0x4000)]) with
                           | Ok x => Some x | Abort _ => None end)))
                  two_in_flight
                  ltac:(repeat constructor)
                  ltac:(eexists; reflexivity)
                  ltac:(vm_compute; reflexivity))).
  repeat constructor; discriminate.
Defined.
End Witnesses.
